(** * Constrained clustering: constraints to labels

    A shallow embedding of [main.py] (classes [ConstrainedClustering] and
    [ConstraintsToLabels] with the module-level helpers they use), and the
    properties of the specification checked against it.

    NumPy arrays of sample indices and labels are lists of [nat]; the
    similarity matrix (a float array that only ever holds whole numbers) is a
    list of rows of [Z]; in-place array updates are list updates; Python
    exceptions are the [Raise] outcome of the [result] type. *)

From stdpp Require Import base tactics option numbers list sorting strings.

Local Open Scope nat_scope.

(** ** Outcomes of Python calls *)

Inductive exn : Type := Exn (name : string).

(** [Ok]: the call returns; [Raise]: it raises; [Timeout]: the iteration
    budget that bounds the model of a [while True] loop ran out (shown below
    never to happen for [graph_cut_approx]). *)
Inductive result (A : Type) : Type :=
  | Ok (a : A)
  | Raise (e : exn)
  | Timeout.
Arguments Ok {A} a.
Arguments Raise {A} e.
Arguments Timeout {A}.

Definition ValueError : exn := Exn "ValueError"%string.
Definition IndexError : exn := Exn "IndexError"%string.
Definition AssertionError : exn := Exn "AssertionError"%string.

Definition rbind {A B} (m : result A) (k : A -> result B) : result B :=
  match m with
  | Ok a => k a
  | Raise e => Raise e
  | Timeout => Timeout
  end.

Notation "x <~ m ;; k" := (rbind m (fun x => k))
  (at level 100, m at next level, right associativity).

(** [for x in xs: st = body st x], stopping at the first exception. *)
Fixpoint for_each {A St} (xs : list A) (body : St -> A -> result St) (st : St)
  : result St :=
  match xs with
  | [] => Ok st
  | x :: xs' => st' <~ body st x ;; for_each xs' body st'
  end.

(** ** NumPy primitives used by the program *)

(** [x[i]] for an integer [i]. *)
Definition np_get {A} (x : list A) (i : nat) : result A :=
  match x !! i with
  | Some v => Ok v
  | None => Raise IndexError
  end.

(** [x[idx]] for an integer array [idx]. *)
Fixpoint np_take {A} (x : list A) (idx : list nat) : result (list A) :=
  match idx with
  | [] => Ok []
  | i :: idx' => v <~ np_get x i ;; vs <~ np_take x idx' ;; Ok (v :: vs)
  end.

(** [x[idx] = v] for an integer array [idx] and a scalar [v]. *)
Definition np_put {A} (x : list A) (idx : list nat) (v : A) : result (list A) :=
  if decide (Forall (fun i => i < length x) idx)
  then Ok (foldl (fun acc i => <[i := v]> acc) x idx)
  else Raise IndexError.

(** [x[mask]] for a boolean array [mask] of the length of [x]. *)
Fixpoint np_mask {A} (x : list A) (mask : list bool) : list A :=
  match x, mask with
  | v :: x', b :: mask' => if b then v :: np_mask x' mask' else np_mask x' mask'
  | _, _ => []
  end.

(** [x[mask] = v] for a boolean array [mask] and a scalar [v]. *)
Definition np_mask_put {A} (x : list A) (mask : list bool) (v : A) : list A :=
  zip_with (fun xi (b : bool) => if b then v else xi) x mask.

(** [np.unique(a)]: the distinct values of [a] in increasing order. *)
Definition np_unique (a : list nat) : list nat :=
  merge_sort Nat.le (remove_dups a).

(** [np.sum] of a boolean array. *)
Definition np_sum_bool (b : list bool) : nat :=
  sum_list (fmap (fun x : bool => if x then 1 else 0) b).

(** [np.any] of a boolean array. *)
Definition np_any (b : list bool) : bool := existsb id b.

(** ** Module-level helpers *)

(** [memberInd[a==element] = 1] *)
Definition mark_equal (a : list nat) (element : nat) (memberInd : list nat)
  : list nat :=
  np_mask_put memberInd (fmap (fun x => bool_decide (x = element)) a) 1.

Definition ismember (a b : list nat) : list bool :=
  let memberInd := replicate (length a) 0 in
  let memberInd :=
    foldl (fun m element => mark_equal a element m) memberInd b in
  fmap (fun m => bool_decide (0 < m)) memberInd.

Definition translate_to_counting_numbers (a : list nat) : list nat :=
  let uniqueElements := np_unique a in
  let boolBlock :=
    fmap (fun x => fmap (fun u => bool_decide (x = u)) uniqueElements) a in
  let newValueInMatrix :=
    fmap (fun brow =>
           zip_with (fun (b : bool) k => (if b then 1 else 0) * k)
                    brow (seq 0 (length uniqueElements)))
        boolBlock in
  fmap sum_list newValueInMatrix.

(** ** class ConstrainedClustering *)

(** One row of the m x 3 constraint matrix: the two sample indices and the
    value 0 (CL) or 1 (ML). *)
Record crow : Type := CRow { cfst : nat; csnd : nat; ckind : nat }.

Record ConstrainedClustering : Type := Store {
  ML : list (nat * nat);
  CL : list (nat * nat);
  constrainedSamps : list nat
}.

Definition constraints_by_value (constraintMat : list crow) (consVal : nat)
  : list (nat * nat) :=
  let ind := fmap (fun r => bool_decide (ckind r = consVal)) constraintMat in
  np_mask (fmap (fun r => (cfst r, csnd r)) constraintMat) ind.

(** [block[:,-1::-1]]: the two columns in reverse order. *)
Definition reverse_columns (block : list (nat * nat)) : list (nat * nat) :=
  fmap (fun p => (p.2, p.1)) block.

(** [constraintMat.reshape(-1,1)]: every entry of the table, row by row. *)
Definition flatten_table (constraintMat : list crow) : list nat :=
  mjoin (fmap (fun r => [cfst r; csnd r; ckind r]) constraintMat).

Definition ConstrainedClustering_init (constraintMat : list crow)
  : result ConstrainedClustering :=
  let ML := constraints_by_value constraintMat 1 in
  let ML := ML ++ reverse_columns ML in
  let CL := constraints_by_value constraintMat 0 in
  let CL := CL ++ reverse_columns CL in
  Ok {| ML := ML; CL := CL;
        constrainedSamps := np_unique (flatten_table constraintMat) |}.

Definition other_sample_in_pair (self : ConstrainedClustering)
    (group : list nat) (consVal : nat) : result (list nat) :=
  if decide (consVal = 0 \/ consVal = 1) then
    let constraintBlock := if decide (consVal = 0) then CL self else ML self in
    let involvedInConstraint := ismember (constraintBlock.*1) group in
    Ok (np_mask (constraintBlock.*2) involvedInConstraint)
  else Raise AssertionError.

Definition is_CL_violated (self : ConstrainedClustering) (group : list nat)
  : result bool :=
  otherCLsamp <~ other_sample_in_pair self group 0 ;;
  let isAlsoInGroup := ismember group otherCLsamp in
  Ok (np_any isAlsoInGroup).

Definition number_of_constraints (self : ConstrainedClustering)
    (group1 group2 : list nat) (consVal : nat) : result nat :=
  otherSamp1 <~ other_sample_in_pair self group1 consVal ;;
  let isInGroup2 := ismember group2 otherSamp1 in
  Ok (np_sum_bool isInGroup2).

(** [ConstrainedClustering.make_constraints] for a given [Nconstraints].
    [queryMat] is the array drawn by [np.random.randint(0,N,(Nconstraints,2))]
    and [errorInd] the one drawn by [np.random.choice(2,Nconstraints,p=...)];
    [errorInd] is an integer array, so [link[errorInd,:]] selects the rows
    whose index it holds. *)
Definition make_constraints (labels : list nat) (queryMat : list (nat * nat))
    (errorInd : list nat) : result (list crow) :=
  first <~ np_take labels (queryMat.*1) ;;
  second <~ np_take labels (queryMat.*2) ;;
  let link :=
    zip_with (fun x y => if bool_decide (x = y) then 1 else 0) first second in
  picked <~ np_take link errorInd ;;
  let inverted := fmap (fun l => 2 - 2 ^ l) picked in
  let link :=
    foldl (fun link iv => <[iv.1 := iv.2]> link) link (zip errorInd inverted) in
  Ok (zip_with (fun q l => CRow q.1 q.2 l) queryMat link).

(** ** class ConstraintsToLabels *)

(** The similarity matrix: a list of rows. *)
Abbreviation matrix := (list (list Z)).

(** [simMat[r,c]] *)
Definition mget (simMat : matrix) (r c : nat) : Z := (simMat !!! r) !!! c.

(** [simMat[r,c] = v] *)
Definition mset (simMat : matrix) (r c : nat) (v : Z) : matrix :=
  <[r := <[c := v]> (simMat !!! r)]> simMat.

(** [simMat[r,:] = row] *)
Definition set_row (simMat : matrix) (r : nat) (row : list Z) : matrix :=
  <[r := row]> simMat.

(** [simMat[:,c] = col] *)
Definition set_col (simMat : matrix) (c : nat) (col : list Z) : matrix :=
  zip_with (fun row v => <[c := v]> row) simMat col.

(** One resumption of the generator [linkage_to_merges]: iteration [i] of
    its loop, up to the [yield]. The state kept between resumptions is
    [clusMem]. *)
Definition linkage_to_merges_next (children_ : list (nat * nat))
    (clusMem : list (list nat)) (i : nat)
  : result (list (list nat) * (list nat * list nat)) :=
  ch <~ np_get children_ i ;;
  let group1 := ch.1 in
  let group2 := ch.2 in
  m1 <~ np_get clusMem group1 ;;
  m2 <~ np_get clusMem group2 ;;
  Ok (clusMem ++ [m1 ++ m2], (m1, m2)).

(** The body of [for merge in allMerges] in
    [agglomerate_constrained_samples]. *)
Definition agglomerate_merge (self : ConstrainedClustering)
    (bigLabelSet : list nat) (merge : list nat * list nat)
  : result (list nat) :=
  let group1 := merge.1 in
  let group2 := merge.2 in
  let allSamps := group1 ++ group2 in
  violated <~ is_CL_violated self allSamps ;;
  if violated then Ok bigLabelSet
  else
    first2 <~ np_get group2 0 ;;
    lab <~ np_get bigLabelSet first2 ;;
    np_put bigLabelSet group1 lab.

(** The loop of [agglomerate_constrained_samples], the generator being
    resumed once per iteration. *)
Definition agglomerate_loop (self : ConstrainedClustering) (N : nat)
    (children_ : list (nat * nat)) : result (list (list nat) * list nat) :=
  let bigLabelSet := seq 0 N in
  let clusMem := fmap (fun x => [x]) (seq 0 N) in
  for_each (seq 0 (N - 1))
    (fun st i =>
       nx <~ linkage_to_merges_next children_ st.1 i ;;
       bigLabelSet <~ agglomerate_merge self st.2 nx.2 ;;
       Ok (nx.1, bigLabelSet))
    (clusMem, bigLabelSet).

(** Returns the new value of [self.labelSet]. [N] is the number of rows of
    the data matrix and [children_] the merges of the fitted hierarchical
    clustering. *)
Definition agglomerate_constrained_samples (self : ConstrainedClustering)
    (N : nat) (children_ : list (nat * nat)) : result (list nat) :=
  st <~ agglomerate_loop self N children_ ;;
  newLabels <~ np_take st.2 (constrainedSamps self) ;;
  Ok (translate_to_counting_numbers newLabels).

(** [self.constrainedSamps[self.labelSet==i]] *)
Definition group_of (self : ConstrainedClustering) (labelSet : list nat)
    (i : nat) : result (list nat) :=
  if decide (length labelSet = length (constrainedSamps self))
  then Ok (np_mask (constrainedSamps self)
                   (fmap (fun l => bool_decide (l = i)) labelSet))
  else Raise IndexError.

(** The first loop of [merge_nodes]: the Nml - Ncl net constraint value
    between every two nodes. The node centers and populations it also
    computes only feed the plot and the nearest-neighbour query. *)
Definition net_constraints (self : ConstrainedClustering)
    (labelSet : list nat) : result matrix :=
  let uniqueLabels := np_unique labelSet in
  let NuniqueLabels := length uniqueLabels in
  let simMat := replicate NuniqueLabels (replicate NuniqueLabels 0%Z) in
  for_each (seq 0 NuniqueLabels)
    (fun simMat i =>
       group1 <~ group_of self labelSet i ;;
       if decide (i < NuniqueLabels - 1) then
         for_each (seq (i + 1) (NuniqueLabels - (i + 1)))
           (fun simMat ii =>
              group2 <~ group_of self labelSet ii ;;
              Ncl <~ number_of_constraints self group1 group2 0 ;;
              Nml <~ number_of_constraints self group1 group2 1 ;;
              let val := (Z.of_nat Nml - Z.of_nat Ncl)%Z in
              let simMat := mset simMat i ii val in
              Ok (mset simMat ii i val))
           simMat
       else Ok simMat)
    simMat.

(** [indices] is the index array returned by the nearest-neighbour query on
    the node centers, one row of [k+1] indices per node. *)
Definition complete_matrix (indices : list (list nat)) (simMat : matrix)
    (k : nat) : result matrix :=
  if decide (1 <= k) then
    let Nnodes := length simMat in
    let newSimMat := simMat in
    for_each (seq 0 Nnodes)
      (fun newSimMat i =>
         let neighInd := replicate Nnodes false in
         indices_i <~ np_get indices i ;;
         neighInd <~ np_put neighInd (take k (drop 1 indices_i)) true ;;
         simMat_i <~ np_get simMat i ;;
         let neighInd :=
           zip_with andb neighInd
                    (fmap (fun v => bool_decide (v = 0%Z)) simMat_i) in
         let newSimMat :=
           set_row newSimMat i (np_mask_put (newSimMat !!! i) neighInd 1%Z) in
         let newSimMat :=
           zip_with (fun row (b : bool) => if b then <[i := 1%Z]> row else row)
                    newSimMat neighInd in
         Ok newSimMat)
      newSimMat
  else Raise AssertionError.

(** The part of [plot_graph_cut_problem] that can fail: [np.max] over the
    nonzero entries above the diagonal raises on an empty selection. The
    drawing itself has no effect on the labels. *)
Definition upper_nonzero (simMat : matrix) : list Z :=
  mjoin (imap (fun r row => filter (fun v => v <> 0%Z) (drop (r + 1) row))
               simMat).

Definition plot_graph_cut_problem (simMat : matrix) : result unit :=
  if decide (upper_nonzero simMat = []) then Raise ValueError else Ok tt.

(** [np.argmax] of the flattened array: the first position of the largest
    entry. *)
Fixpoint argmax_from (best_i : nat) (best : Z) (i : nat) (flat : list Z)
  : nat :=
  match flat with
  | [] => best_i
  | x :: flat' =>
      if decide (best < x)%Z then argmax_from i x (S i) flat'
      else argmax_from best_i best (S i) flat'
  end.

Definition np_argmax (simMat : matrix) : result nat :=
  match mjoin simMat with
  | [] => Raise ValueError
  | x :: flat => Ok (argmax_from 0 x 1 flat)
  end.

(** [np.unravel_index(maxInd, simMat.shape)] *)
Definition np_unravel_index (maxInd : nat) (simMat : matrix) : nat * nat :=
  let ncols := length (simMat !!! 0) in
  (maxInd / ncols, maxInd `mod` ncols).

(** [newLabels[newLabels==newLabels[c]] = newLabels[r]] *)
Definition relabel (newLabels : list nat) (r c : nat) : list nat :=
  let lab_c := newLabels !!! c in
  let lab_r := newLabels !!! r in
  np_mask_put newLabels
              (fmap (fun l => bool_decide (l = lab_c)) newLabels) lab_r.

(** The five assignments to [simMat] of one merge. *)
Definition merge_update (simMat : matrix) (r c : nat) : matrix :=
  let Nnodes := length simMat in
  let simMat :=
    set_row simMat c (zip_with Z.add (simMat !!! c) (simMat !!! r)) in
  let simMat := set_col simMat c (simMat !!! c) in
  let simMat := set_row simMat r (replicate Nnodes (-1)%Z) in
  let simMat := set_col simMat r (replicate Nnodes (-1)%Z) in
  mset simMat c c 0%Z.

Inductive loop_ctl (A : Type) : Type :=
  | Break (a : A)
  | Continue (a : A).
Arguments Break {A} a.
Arguments Continue {A} a.

(** The first statement of the body of [while True] in [graph_cut_approx]:
    [None] when its [else: break] is taken, the merged state otherwise. *)
Definition graph_cut_merge (st : matrix * list nat)
  : result (option (matrix * list nat)) :=
  let simMat := st.1 in
  let newLabels := st.2 in
  maxInd <~ np_argmax simMat ;;
  let rc := np_unravel_index maxInd simMat in
  let r := rc.1 in
  let c := rc.2 in
  let maxVal := mget simMat r c in
  if decide (0 < maxVal)%Z then
    let newLabels := relabel newLabels r c in
    let simMat := merge_update simMat r c in
    Ok (Some (simMat, newLabels))
  else Ok None.

(** The second statement: whether [self.n_clusters] stops the loop. *)
Definition n_clusters_reached (n_clusters : option nat)
    (newLabels : list nat) : bool :=
  match n_clusters with
  | Some K =>
      let Ngroups := length (np_unique newLabels) in
      bool_decide (Ngroups <= K)
  | None => false
  end.

(** One pass through the body of [while True]. *)
Definition graph_cut_body (n_clusters : option nat)
    (st : matrix * list nat) : result (loop_ctl (matrix * list nat)) :=
  merged <~ graph_cut_merge st ;;
  match merged with
  | None => Ok (Break st)
  | Some st' =>
      if n_clusters_reached n_clusters st'.2 then Ok (Break st')
      else Ok (Continue st')
  end.

Fixpoint graph_cut_loop (fuel : nat) (n_clusters : option nat)
    (st : matrix * list nat) : result (matrix * list nat) :=
  match fuel with
  | 0 => Timeout
  | S fuel' =>
      ctl <~ graph_cut_body n_clusters st ;;
      match ctl with
      | Break st' => Ok st'
      | Continue st' => graph_cut_loop fuel' n_clusters st'
      end
  end.

(** Every pass that continues retires one node, so [Nnodes + 1] passes are
    enough ([graph_cut_loop_fuel] below). *)
Definition graph_cut_approx (n_clusters : option nat) (simMat : matrix)
  : result (list nat) :=
  let Nnodes := length simMat in
  let newLabels := seq 0 Nnodes in
  st <~ graph_cut_loop (S Nnodes) n_clusters (simMat, newLabels) ;;
  Ok st.2.

(** The similarity matrix handed to the plot and to the cut. *)
Definition node_graph (self : ConstrainedClustering)
    (indices : list (list nat)) (labelSet : list nat) : result matrix :=
  simMat <~ net_constraints self labelSet ;;
  let Nneigh := 2 in
  if decide (Nneigh * 2 < length simMat)
  then complete_matrix indices simMat 2
  else Ok simMat.

Definition merge_nodes (self : ConstrainedClustering)
    (n_clusters : option nat) (indices : list (list nat))
    (labelSet : list nat) : result (list nat) :=
  simMat <~ node_graph self indices labelSet ;;
  _ <~ plot_graph_cut_problem simMat ;;
  graph_cut_approx n_clusters simMat.

Definition translate_labels (labelSet newLabels : list nat)
  : result (list nat) :=
  let uniqueLabels := np_unique labelSet in
  for_each uniqueLabels
    (fun labelSet lab =>
       v <~ np_get newLabels lab ;;
       Ok (np_mask_put labelSet
                       (fmap (fun l => bool_decide (l = lab)) labelSet) v))
    labelSet.

(** Returns the final [self.labelSet]. *)
Definition fit_constrained (self : ConstrainedClustering)
    (n_clusters : option nat) (N : nat) (children_ : list (nat * nat))
    (indices : list (list nat)) : result (list nat) :=
  labelSet <~ agglomerate_constrained_samples self N children_ ;;
  newLabels <~ merge_nodes self n_clusters indices labelSet ;;
  translate_labels labelSet newLabels.

(** ** Auxiliary definitions for the statements and proofs *)

(** Row [x] of [newValueInMatrix] summed: the columns are numbered from [s]. *)
Definition indicator_sum (x : nat) (u : list nat) (s : nat) : nat :=
  sum_list (zip_with (fun (b : bool) k => (if b then 1 else 0) * k)
                     ((fun y => bool_decide (x = y)) <$> u) (seq s (length u))).

(** The numbering the specification describes for the renumbering step:
    distinct values numbered in the order in which they first appear. *)
Fixpoint first_seen (seen a : list nat) : list nat :=
  match a with
  | [] => seen
  | x :: a' =>
      if decide (x ∈ seen) then first_seen seen a'
      else first_seen (seen ++ [x]) a'
  end.

Definition position (x : nat) (l : list nat) : nat :=
  from_option fst 0 (list_find (fun y => y = x) l).

Definition number_by_first_appearance (a : list nat) : list nat :=
  (fun x => position x (first_seen [] a)) <$> a.

(** An M x M array. *)
Definition square (M : nat) (simMat : matrix) : Prop :=
  length simMat = M /\ Forall (fun row => length row = M) simMat.

(** [simMat[a,b] == simMat[b,a]] for all node pairs. *)
Definition symmetric (M : nat) (simMat : matrix) : Prop :=
  forall a b, a < M -> b < M -> mget simMat a b = mget simMat b a.

(** The states after each pass of the loop of [graph_cut_approx] that merged
    two nodes, in order. *)
Fixpoint graph_cut_history (fuel : nat) (n_clusters : option nat)
    (st : matrix * list nat) : list (matrix * list nat) :=
  match fuel with
  | 0 => []
  | S fuel' =>
      match graph_cut_merge st with
      | Ok (Some st') =>
          st' :: (if n_clusters_reached n_clusters st'.2 then []
                  else graph_cut_history fuel' n_clusters st')
      | _ => []
      end
  end.

(** How many arrays of [history] differ from the one before ([prev] before
    the first). *)
Fixpoint label_changes (prev : list nat) (history : list (list nat)) : nat :=
  match history with
  | [] => 0
  | newLabels :: history' =>
      (if decide (newLabels = prev) then 0 else 1)
      + label_changes newLabels history'
  end.

(** The state of the loop for an M x M matrix: [newLabels] holds M node
    indices. *)
Definition well_shaped (M : nat) (st : matrix * list nat) : Prop :=
  square M st.1 /\ length st.2 = M /\ Forall (fun x => x < M) st.2.

(** [newLabels[newLabels[i]] == newLabels[i]] *)
Definition idempotent (M : nat) (newLabels : list nat) : Prop :=
  forall i, i < M -> newLabels !!! (newLabels !!! i) = newLabels !!! i.

(** A node with a positive entry in its row or in its column: only such
    nodes can be picked by a pass of the greedy cut. *)
Definition live (M : nat) (simMat : matrix) (a : nat) : Prop :=
  Exists (fun b => (0 < mget simMat a b \/ 0 < mget simMat b a)%Z) (seq 0 M).

Definition live_count (M : nat) (simMat : matrix) : nat :=
  length (filter (live M simMat) (seq 0 M)).

(** Every diagonal entry is 0. *)
Definition zero_diagonal (M : nat) (simMat : matrix) : Prop :=
  forall a, a < M -> mget simMat a a = 0%Z.

(** What the node graph satisfies before the cut starts. *)
Definition graph_inv (M : nat) (simMat : matrix) : Prop :=
  square M simMat /\ symmetric M simMat /\ zero_diagonal M simMat.

(** [indices[i,1:(k+1)]]: the neighbours that [complete_matrix] uses for
    node [i]. *)
Definition neighbours (indices : list (list nat)) (k i : nat) : list nat :=
  take k (drop 1 (indices !!! i)).

(** In the pass of [complete_matrix] for node [i], node [j] receives a
    synthetic edge. *)
Definition fills (indices : list (list nat)) (old : matrix) (k i j : nat)
  : Prop :=
  j ∈ neighbours indices k i /\ mget old i j = 0%Z.

(** The matrix of [complete_matrix] after the passes for nodes
    [0 .. i-1]. *)
Definition completed_upto (M : nat) (indices : list (list nat))
    (old : matrix) (k i : nat) (new : matrix) : Prop :=
  square M new /\
  forall a b, a < M -> b < M ->
    mget new a b
    = if decide (mget old a b = 0%Z /\
                 ((a < i /\ b ∈ neighbours indices k a) \/
                  (b < i /\ a ∈ neighbours indices k b)))
      then 1%Z else mget old a b.

(** What the similarity matrix satisfies while the greedy cut runs: the
    diagonal entry of a node is 0, or -1 once the node has been invalidated. *)
Definition cut_graph_inv (M : nat) (simMat : matrix) : Prop :=
  square M simMat /\ symmetric M simMat /\
  forall a, a < M -> mget simMat a a = 0%Z \/ mget simMat a a = (-1)%Z.

(** A store with five constrained samples, the nearest-neighbour answer for
    five nodes and the net constraint values between them, used as a
    concrete instance below. *)
Definition five_node_store : ConstrainedClustering :=
  Store [] [(0, 2); (3, 4); (5, 0); (2, 0); (4, 3); (0, 5)] [0; 2; 3; 4; 5].

Definition five_node_indices : list (list nat) :=
  [[0; 1; 2]; [1; 0; 2]; [2; 3; 1]; [3; 2; 4]; [4; 3; 2]].

Definition five_node_graph : matrix :=
  [[0; -1; 0; 0; -1]; [-1; 0; 0; 0; 0]; [0; 0; 0; -1; 0];
   [0; 0; -1; 0; 0]; [-1; 0; 0; 0; 0]]%Z.

(** Some CL constraint has both samples in [group]. *)
Definition CL_within (self : ConstrainedClustering) (group : list nat)
  : Prop :=
  exists a b, a ∈ group /\ b ∈ group /\ (a, b) ∈ CL self.

(** The cluster indices used as children by the merges, in order. *)
Definition children_flat (children_ : list (nat * nat)) : list nat :=
  mjoin ((fun ch => [ch.1; ch.2]) <$> children_).

(** A dendrogram merges every cluster at most once. *)
Definition tree_like (children_ : list (nat * nat)) : Prop :=
  NoDup (children_flat children_).

(** The clusters not yet merged into a parent ([used] lists the merged
    ones) partition the samples [0 .. N-1]. *)
Definition forest (N : nat) (used : list nat) (clusMem : list (list nat))
  : Prop :=
  (forall v, v ∈ used -> v < length clusMem) /\
  (forall v g a, clusMem !! v = Some g -> a ∈ g -> a < N) /\
  (forall v w g h a, v ∉ used -> w ∉ used ->
     clusMem !! v = Some g -> clusMem !! w = Some h ->
     a ∈ g -> a ∈ h -> v = w) /\
  (forall a, a < N ->
     exists v g, (v ∉ used) /\ clusMem !! v = Some g /\ a ∈ g).

(** Labels stay inside the unmerged cluster of their sample, and two samples
    with one label are never linked by a CL constraint. *)
Definition labelled (self : ConstrainedClustering) (N : nat)
    (used : list nat) (clusMem : list (list nat)) (bigLabelSet : list nat)
  : Prop :=
  length bigLabelSet = N /\
  (forall v g a, v ∉ used -> clusMem !! v = Some g -> a ∈ g ->
     bigLabelSet !!! a ∈ g) /\
  (forall a b, a < N -> b < N -> a <> b ->
     bigLabelSet !!! a = bigLabelSet !!! b -> (a, b) ∉ CL self).

(** A run on four samples, used as a concrete instance below: one CL and
    two ML constraints, and the dendrogram that merges 0 with 1, 2 with 3
    and then the two pairs. *)
Definition four_sample_table : list crow :=
  [CRow 0 2 0; CRow 0 3 1; CRow 1 2 1].

Definition four_sample_store : ConstrainedClustering :=
  Store [(0, 3); (1, 2); (3, 0); (2, 1)] [(0, 2); (2, 0)] [0; 1; 2; 3].

Definition four_sample_children : list (nat * nat) :=
  [(0, 1); (2, 3); (4, 5)].

(** The count the docstring of [number_of_constraints] and the specification
    describe: the constraints of value [consVal] of the table with one sample
    in [group1] and the other in [group2]. *)
Definition constraints_between (constraintMat : list crow)
    (group1 group2 : list nat) (consVal : nat) : nat :=
  length (filter (fun r => ckind r = consVal /\
                           ((cfst r ∈ group1 /\ csnd r ∈ group2) \/
                            (cfst r ∈ group2 /\ csnd r ∈ group1)))
                 constraintMat).

(** The samples the docstring of [constrainedSamps] and the specification
    describe: the distinct indices of the first two columns of the table. *)
Definition samples_in_constraints (constraintMat : list crow) : list nat :=
  np_unique (mjoin ((fun r => [cfst r; csnd r]) <$> constraintMat)).

(** Sample [b] is the second sample of a pair of [block] whose first sample
    is in [group1]. *)
Definition linked (block : list (nat * nat)) (group1 : list nat) (b : nat)
  : Prop :=
  Exists (fun p => p.1 ∈ group1 /\ p.2 = b) block.

(** The pairs of the constraints of value [consVal] of a table, in both
    orders. *)
Definition pair_in_table (constraintMat : list crow) (consVal a b : nat)
  : Prop :=
  CRow a b consVal ∈ constraintMat \/ CRow b a consVal ∈ constraintMat.

(** Row [i] of the nearest-neighbour answer exists and the [k] neighbours it
    names are nodes. *)
Definition neighbours_in_range (M : nat) (indices : list (list nat))
    (k i : nat) : Prop :=
  exists row, indices !! i = Some row /\
              Forall (fun j => j < M) (take k (drop 1 row)).

(** Merge [i] of the dendrogram exists and its two children are clusters
    that exist when it is reached: the N samples and the clusters of the
    merges before it. *)
Definition merge_in_range (N : nat) (children_ : list (nat * nat))
    (i : nat) : Prop :=
  exists ch, children_ !! i = Some ch /\ ch.1 < N + i /\ ch.2 < N + i.

(** What [agglomerate_constrained_samples] needs to run to its end. *)
Definition agglomeration_in_range (self : ConstrainedClustering) (N : nat)
    (children_ : list (nat * nat)) : Prop :=
  (forall i, i < N - 1 -> merge_in_range N children_ i) /\
  Forall (fun s => s < N) (constrainedSamps self).

(** The clusters built so far are non-empty sets of samples, [i] merges have
    been added to the [N] singletons, and there is a label for every
    sample. *)
Definition agglomerate_shape (N i : nat) (st : list (list nat) * list nat)
  : Prop :=
  length st.1 = N + i /\
  Forall (fun g => g <> [] /\ Forall (fun a => a < N) g) st.1 /\
  length st.2 = N.






(** 1 when the two samples of the pair have the same true label, else 0. *)
Definition same_label (labels : list nat) (q : nat * nat) : nat :=
  if bool_decide (labels !!! q.1 = labels !!! q.2) then 1 else 0.

(** * Properties *)

(** ** Facts about the NumPy primitives *)

Section numpy_facts.
Context {A : Type}.
Implicit Types (x : list A) (mask : list bool) (v : A).

Lemma rbind_Ok_inv {B C} (m : result B) (k : B -> result C) c :
  rbind m k = Ok c -> exists b, m = Ok b /\ k b = Ok c.
Proof. destruct m; simpl; intros; try discriminate; eauto. Qed.

Lemma np_get_Ok x i v : np_get x i = Ok v <-> x !! i = Some v.
Proof. unfold np_get. destruct (x !! i); split; intros; simplify_eq; done. Qed.

Lemma np_get_lt `{!Inhabited A} x i : i < length x -> np_get x i = Ok (x !!! i).
Proof.
  intros Hi. apply np_get_Ok. by apply list_lookup_lookup_total_lt.
Qed.

Lemma elem_of_np_mask x mask v :
  v ∈ np_mask x mask <->
  exists i, x !! i = Some v /\ mask !! i = Some true.
Proof.
  revert mask. induction x as [|a x IH]; intros [|b mask]; simpl.
  - rewrite elem_of_nil. split; [done|]. intros (i & Hi & _). by destruct i.
  - rewrite elem_of_nil. split; [done|]. intros (i & Hi & _). by destruct i.
  - rewrite elem_of_nil. split; [done|]. intros (i & _ & Hi). by destruct i.
  - destruct b.
    + rewrite elem_of_cons, IH. split.
      * intros [->|(i & ? & ?)]; [by exists 0|by exists (S i)].
      * intros ([|i] & ? & ?); simplify_eq/=; eauto.
    + rewrite IH. split.
      * intros (i & ? & ?). by exists (S i).
      * intros ([|i] & ? & ?); simplify_eq/=; eauto.
Qed.

Lemma length_np_mask_put x mask v :
  length mask = length x -> length (np_mask_put x mask v) = length x.
Proof. intros. unfold np_mask_put. by rewrite length_zip_with_l_eq. Qed.

Lemma lookup_np_mask_put x mask v (i : nat) (xi : A) (b : bool) :
  x !! i = Some xi -> mask !! i = Some b ->
  np_mask_put x mask v !! i = Some (if b then v else xi).
Proof.
  intros Hx Hm. unfold np_mask_put. rewrite lookup_zip_with, Hx, Hm. done.
Qed.
End numpy_facts.

(** [np.unique] *)
Lemma np_unique_perm a : np_unique a ≡ₚ remove_dups a.
Proof. apply merge_sort_Permutation. Qed.

Lemma elem_of_np_unique a x : x ∈ np_unique a <-> x ∈ a.
Proof. by rewrite np_unique_perm, elem_of_remove_dups. Qed.

Lemma NoDup_np_unique a : NoDup (np_unique a).
Proof. rewrite np_unique_perm. apply NoDup_remove_dups. Qed.

Lemma np_unique_sorted a : StronglySorted Nat.le (np_unique a).
Proof. apply (StronglySorted_merge_sort Nat.le). Qed.

Lemma StronglySorted_lookup {B} (R : relation B) (l : list B) i j x y :
  StronglySorted R l -> l !! i = Some x -> l !! j = Some y -> i < j -> R x y.
Proof.
  intros Hs. revert i j. induction Hs as [|a l Hs IH Hall]; intros i j Hi Hj Hij.
  - by rewrite lookup_nil in Hi.
  - destruct j as [|j]; [lia|]. destruct i as [|i]; simplify_eq/=.
    + rewrite Forall_forall in Hall. apply Hall. by eapply list_elem_of_lookup_2.
    + eapply IH; eauto. lia.
Qed.

Lemma np_unique_increasing a i j x y :
  np_unique a !! i = Some x -> np_unique a !! j = Some y -> i < j -> x < y.
Proof.
  intros Hi Hj Hij.
  assert (x <= y).
  { eapply (StronglySorted_lookup Nat.le (np_unique a)); eauto using np_unique_sorted. }
  assert (x <> y).
  { intros ->. pose proof (NoDup_lookup _ _ _ _ (NoDup_np_unique a) Hi Hj). lia. }
  lia.
Qed.

Lemma lookup_mark_fold a b : forall (m : list nat) (i x mi : nat),
  a !! i = Some x -> m !! i = Some mi ->
  foldl (fun m element => mark_equal a element m) m b !! i
  = Some (if bool_decide (x ∈ b) then 1 else mi).
Proof.
  induction b as [|e b IH]; intros m i x mi Ha Hm.
  - rewrite bool_decide_eq_false_2 by apply not_elem_of_nil. done.
  - change (foldl ?f m (e :: b)) with (foldl f (f m e) b).
    erewrite IH; [|done|].
    2:{ unfold mark_equal. eapply lookup_np_mask_put; [done|].
        rewrite list_lookup_fmap, Ha. done. }
    rewrite (bool_decide_ext (x ∈ e :: b) (x = e \/ x ∈ b)) by apply elem_of_cons.
    destruct (decide (x = e)) as [He|He], (decide (x ∈ b)) as [Hb|Hb].
    all: rewrite ?(bool_decide_eq_true_2 _ He), ?(bool_decide_eq_false_2 _ He).
    all: rewrite ?(bool_decide_eq_true_2 _ Hb), ?(bool_decide_eq_false_2 _ Hb).
    all: try (rewrite bool_decide_eq_true_2 by tauto; reflexivity).
    rewrite bool_decide_eq_false_2 by tauto. reflexivity.
Qed.

Lemma length_mark_fold a b : forall (m : list nat),
  length m = length a ->
  length (foldl (fun m element => mark_equal a element m) m b) = length a.
Proof.
  induction b as [|e b IH]; intros m Hm; simpl; [done|].
  apply IH. unfold mark_equal. rewrite length_np_mask_put; [done|].
  by rewrite length_fmap.
Qed.

Lemma length_ismember a b : length (ismember a b) = length a.
Proof.
  unfold ismember. rewrite length_fmap, length_mark_fold; [done|].
  by rewrite length_replicate.
Qed.

Lemma lookup_ismember a b (i x : nat) :
  a !! i = Some x -> ismember a b !! i = Some (bool_decide (x ∈ b)).
Proof.
  intros Ha. unfold ismember. rewrite list_lookup_fmap.
  erewrite lookup_mark_fold; [|done|].
  2:{ apply lookup_replicate_2. by eapply lookup_lt_Some. }
  destruct (bool_decide (x ∈ b)); reflexivity.
Qed.

(** [translate_to_counting_numbers] *)

Lemma indicator_sum_cons x y u s :
  indicator_sum x (y :: u) s
  = (if bool_decide (x = y) then 1 else 0) * s + indicator_sum x u (S s).
Proof. reflexivity. Qed.

Lemma indicator_sum_absent (x : nat) u : forall s,
  x ∉ u -> indicator_sum x u s = 0.
Proof.
  induction u as [|y u IH]; intros s Hx; [done|].
  rewrite not_elem_of_cons in Hx. destruct Hx as [Hxy Hx].
  rewrite indicator_sum_cons, bool_decide_eq_false_2 by done.
  rewrite IH by done. lia.
Qed.

Lemma indicator_sum_position (x : nat) u : forall s k,
  NoDup u -> u !! k = Some x -> indicator_sum x u s = s + k.
Proof.
  induction u as [|y u IH]; intros s k Hnd Hk; [by rewrite lookup_nil in Hk|].
  apply NoDup_cons in Hnd as [Hy Hnd]. rewrite indicator_sum_cons.
  destruct k as [|k]; simplify_eq/=.
  - rewrite bool_decide_eq_true_2 by done.
    rewrite indicator_sum_absent by done. lia.
  - rewrite bool_decide_eq_false_2.
    2:{ intros ->. apply Hy. by eapply list_elem_of_lookup_2. }
    rewrite (IH (S s) k) by done. lia.
Qed.

Lemma length_translate a :
  length (translate_to_counting_numbers a) = length a.
Proof. unfold translate_to_counting_numbers. by rewrite !length_fmap. Qed.

Lemma lookup_translate a (i x k : nat) :
  a !! i = Some x -> np_unique a !! k = Some x ->
  translate_to_counting_numbers a !! i = Some k.
Proof.
  intros Ha Hk. unfold translate_to_counting_numbers.
  rewrite !list_lookup_fmap, Ha.
  change (Some (indicator_sum x (np_unique a) 0) = Some k).
  rewrite (indicator_sum_position x _ 0 k); eauto using NoDup_np_unique.
Qed.

Lemma lookup_translate_ex a (i x : nat) :
  a !! i = Some x ->
  exists k, translate_to_counting_numbers a !! i = Some k
            /\ np_unique a !! k = Some x.
Proof.
  intros Ha.
  assert (x ∈ np_unique a) as Hin.
  { apply elem_of_np_unique. by eapply list_elem_of_lookup_2. }
  apply list_elem_of_lookup_1 in Hin as [k Hk].
  exists k. split; [by eapply lookup_translate|done].
Qed.

(** ** The constraint store *)

Lemma no_timeout_bind {A B} (m : result A) (k : A -> result B) :
  m <> Timeout -> (forall a, k a <> Timeout) -> rbind m k <> Timeout.
Proof. destruct m; simpl; auto. Qed.

Lemma for_each_no_timeout {A St} (xs : list A) (body : St -> A -> result St) :
  (forall st x, body st x <> Timeout) ->
  forall st, for_each xs body st <> Timeout.
Proof.
  intros Hb. induction xs as [|x xs IH]; intros st; simpl; [done|].
  apply no_timeout_bind; auto.
Qed.

Lemma np_get_no_timeout {A} (x : list A) i : np_get x i <> Timeout.
Proof. unfold np_get. by destruct (x !! i). Qed.

Lemma np_put_no_timeout {A} (x : list A) idx v : np_put x idx v <> Timeout.
Proof. unfold np_put. by case_decide. Qed.

Lemma np_take_no_timeout {A} (x : list A) idx : np_take x idx <> Timeout.
Proof.
  induction idx as [|i idx IH]; simpl; [done|].
  apply no_timeout_bind; [apply np_get_no_timeout|]. intros v.
  apply no_timeout_bind; [done|]. done.
Qed.

Lemma other_sample_in_pair_no_timeout self group consVal :
  other_sample_in_pair self group consVal <> Timeout.
Proof. unfold other_sample_in_pair. by case_decide. Qed.

Lemma is_CL_violated_no_timeout self group :
  is_CL_violated self group <> Timeout.
Proof.
  unfold is_CL_violated.
  apply no_timeout_bind; [apply other_sample_in_pair_no_timeout|done].
Qed.

Lemma agglomerate_loop_no_timeout self N children_ :
  agglomerate_loop self N children_ <> Timeout.
Proof.
  unfold agglomerate_loop. apply for_each_no_timeout. intros st i.
  apply no_timeout_bind.
  - unfold linkage_to_merges_next.
    repeat (apply no_timeout_bind; [apply np_get_no_timeout|intros ?]). done.
  - intros nx. apply no_timeout_bind; [|done].
    unfold agglomerate_merge.
    apply no_timeout_bind; [apply is_CL_violated_no_timeout|]. intros [|]; [done|].
    repeat (apply no_timeout_bind; [apply np_get_no_timeout|intros ?]).
    apply np_put_no_timeout.
Qed.

(** C4 (the code at the failing input). For the table with the single
    constraint (5, 7, ML), [__init__] stores [1; 5; 7] in [constrainedSamps]:
    the value 1 of the kind column is taken for a sample index, because the
    whole table is flattened. The samples that appear in the first two
    columns are [5; 7]. *)
Theorem constrainedSamps_takes_in_kind_column :
  exists self,
    ConstrainedClustering_init [CRow 5 7 1] = Ok self /\
    constrainedSamps self = [1; 5; 7] /\
    samples_in_constraints [CRow 5 7 1] = [5; 7] /\
    constrainedSamps self <> samples_in_constraints [CRow 5 7 1].
Proof.
  eexists. split; [reflexivity|]. split; [reflexivity|].
  split; [reflexivity|]. vm_compute. discriminate.
Qed.

(** C9 (counterexample). On an empty constraint table [__init__] returns a
    store (with no ML, no CL and no constrained sample); it does not raise
    EmptyConstraintSetError. *)
Lemma empty_table_is_accepted :
  ConstrainedClustering_init [] = Ok (Store [] [] []) /\
  ConstrainedClustering_init []
    <> Raise (Exn "EmptyConstraintSetError"%string).
Proof. split; [reflexivity|discriminate]. Qed.

(** C9 (as amended). With an empty constraint table the construction
    succeeds, and it is [fit_constrained] that fails, returning no labels: it
    always raises, and when the walk over the dendrogram goes through it
    raises ValueError (the 0 x 0 similarity matrix has no maximum). *)
Theorem empty_table_fails_only_in_fit n_clusters N children_ indices :
  ConstrainedClustering_init [] = Ok (Store [] [] []) /\
  (exists e, fit_constrained (Store [] [] []) n_clusters N children_ indices
             = Raise e) /\
  (forall st, agglomerate_loop (Store [] [] []) N children_ = Ok st ->
     fit_constrained (Store [] [] []) n_clusters N children_ indices
     = Raise ValueError).
Proof.
  split; [reflexivity|].
  assert (forall st, agglomerate_loop (Store [] [] []) N children_ = Ok st ->
     fit_constrained (Store [] [] []) n_clusters N children_ indices
     = Raise ValueError) as Hok.
  { intros st Hst. unfold fit_constrained, agglomerate_constrained_samples.
    rewrite Hst. reflexivity. }
  split; [|done].
  destruct (agglomerate_loop (Store [] [] []) N children_) as [st|e|] eqn:Hst.
  - exists ValueError. by eapply Hok.
  - exists e. unfold fit_constrained, agglomerate_constrained_samples.
    rewrite Hst. reflexivity.
  - by apply agglomerate_loop_no_timeout in Hst.
Qed.

(** An instance: the four-sample dendrogram with an empty table. *)
Lemma empty_table_fails_only_in_fit_witness :
  ConstrainedClustering_init [] = Ok (Store [] [] []) /\
  (exists e, fit_constrained (Store [] [] []) (Some 3) 4
               [(0, 1); (2, 3); (4, 5)] [] = Raise e) /\
  (forall st,
     agglomerate_loop (Store [] [] []) 4 [(0, 1); (2, 3); (4, 5)] = Ok st ->
     fit_constrained (Store [] [] []) (Some 3) 4 [(0, 1); (2, 3); (4, 5)] []
     = Raise ValueError).
Proof.
  apply (empty_table_fails_only_in_fit (Some 3) 4 [(0, 1); (2, 3); (4, 5)] []).
Defined.

(** C3 (the code at the failing input). With the ML constraints (0, 3) and
    (1, 3), two constraints link the groups [0; 1] and [3], but
    [number_of_constraints] returns 1 for ([0; 1], [3]) and 2 for
    ([3], [0; 1]): it counts the members of [group2] linked to [group1], not
    the constraints, and is not symmetric. *)
Theorem number_of_constraints_counts_members :
  exists self,
    ConstrainedClustering_init [CRow 0 3 1; CRow 1 3 1] = Ok self /\
    constraints_between [CRow 0 3 1; CRow 1 3 1] [0; 1] [3] 1 = 2 /\
    constraints_between [CRow 0 3 1; CRow 1 3 1] [3] [0; 1] 1 = 2 /\
    number_of_constraints self [0; 1] [3] 1 = Ok 1 /\
    number_of_constraints self [3] [0; 1] 1 = Ok 2.
Proof. eexists. repeat split; vm_compute; reflexivity. Qed.

(** C6 (counterexample). Three samples whose labels after the dendrogram
    walk are [2; 1; 2]: the renumbering gives [1; 0; 1] (rank of the old
    label), where the order of first appearance would give [0; 1; 0]. *)
Lemma renumbering_is_not_by_first_appearance :
  exists self clusMem,
    ConstrainedClustering_init [CRow 0 1 0; CRow 0 2 1] = Ok self /\
    agglomerate_loop self 3 [(0, 2); (3, 1)] = Ok (clusMem, [2; 1; 2]) /\
    np_take [2; 1; 2] (constrainedSamps self) = Ok [2; 1; 2] /\
    agglomerate_constrained_samples self 3 [(0, 2); (3, 1)] = Ok [1; 0; 1] /\
    number_by_first_appearance [2; 1; 2] = [0; 1; 0] /\
    agglomerate_constrained_samples self 3 [(0, 2); (3, 1)]
      <> Ok (number_by_first_appearance [2; 1; 2]).
Proof.
  eexists. eexists. split; [reflexivity|]. split; [reflexivity|].
  split; [reflexivity|]. split; [reflexivity|]. split; [reflexivity|].
  vm_compute. discriminate.
Qed.

(** ** Renumbering after agglomeration *)

(** C6 (as amended). After all the merges of the dendrogram, the labels
    restricted to the constrained samples are renumbered onto [0, M), M the
    number of distinct labels: every number below M is used, and the new
    number of an old label is its rank among the distinct old labels in
    increasing order, so the renumbering keeps the order of the labels. *)
Theorem agglomerate_renumbers_by_rank self N children_ st newLabels :
  agglomerate_loop self N children_ = Ok st ->
  np_take st.2 (constrainedSamps self) = Ok newLabels ->
  exists labelSet,
    agglomerate_constrained_samples self N children_ = Ok labelSet /\
    length labelSet = length newLabels /\
    (forall i old, newLabels !! i = Some old ->
       exists k, labelSet !! i = Some k /\
                 k < length (np_unique newLabels) /\
                 np_unique newLabels !! k = Some old) /\
    (forall k, k < length (np_unique newLabels) -> k ∈ labelSet) /\
    (forall i j old_i old_j k_i k_j,
       newLabels !! i = Some old_i -> newLabels !! j = Some old_j ->
       labelSet !! i = Some k_i -> labelSet !! j = Some k_j ->
       (old_i < old_j <-> k_i < k_j)).
Proof.
  intros Hloop Htake.
  exists (translate_to_counting_numbers newLabels).
  split.
  { unfold agglomerate_constrained_samples. rewrite Hloop. simpl.
    rewrite Htake. reflexivity. }
  split; [apply length_translate|].
  assert (forall i old, newLabels !! i = Some old ->
     exists k, translate_to_counting_numbers newLabels !! i = Some k /\
               k < length (np_unique newLabels) /\
               np_unique newLabels !! k = Some old) as Hrank.
  { intros i old Hi. destruct (lookup_translate_ex _ _ _ Hi) as (k & Hk & Hu).
    exists k. split; [done|]. split; [by eapply lookup_lt_Some|done]. }
  split; [exact Hrank|]. split.
  - intros k Hk.
    destruct (lookup_lt_is_Some_2 _ _ Hk) as [x Hx].
    assert (x ∈ newLabels) as Hin.
    { apply elem_of_np_unique. by eapply list_elem_of_lookup_2. }
    apply list_elem_of_lookup_1 in Hin as [i Hi].
    apply (list_elem_of_lookup_2 _ i). by eapply lookup_translate.
  - intros i j oi oj ki kj Hi Hj Hki Hkj.
    destruct (Hrank _ _ Hi) as (ki' & Hki' & _ & Hui).
    destruct (Hrank _ _ Hj) as (kj' & Hkj' & _ & Huj).
    simplify_eq.
    destruct (lt_eq_lt_dec ki kj) as [[Hlt|Heq]|Hgt].
    + pose proof (np_unique_increasing _ _ _ _ _ Hui Huj Hlt). lia.
    + subst. simplify_eq. lia.
    + pose proof (np_unique_increasing _ _ _ _ _ Huj Hui Hgt). lia.
Qed.

(** An instance: the three samples whose labels after the walk are [2; 1; 2]. *)
Lemma agglomerate_renumbers_by_rank_witness :
  exists labelSet,
    agglomerate_constrained_samples
      (Store [(0, 2); (2, 0)] [(0, 1); (1, 0)] [0; 1; 2]) 3 [(0, 2); (3, 1)]
    = Ok labelSet /\
    length labelSet = 3 /\
    (forall i old, [2; 1; 2] !! i = Some old ->
       exists k, labelSet !! i = Some k /\
                 k < length (np_unique [2; 1; 2]) /\
                 np_unique [2; 1; 2] !! k = Some old) /\
    (forall k, k < length (np_unique [2; 1; 2]) -> k ∈ labelSet) /\
    (forall i j old_i old_j k_i k_j,
       [2; 1; 2] !! i = Some old_i -> [2; 1; 2] !! j = Some old_j ->
       labelSet !! i = Some k_i -> labelSet !! j = Some k_j ->
       (old_i < old_j <-> k_i < k_j)).
Proof.
  apply (agglomerate_renumbers_by_rank
           (Store [(0, 2); (2, 0)] [(0, 1); (1, 0)] [0; 1; 2]) 3
           [(0, 2); (3, 1)] ([[0]; [1]; [2]; [0; 2]; [0; 2; 1]], [2; 1; 2])
           [2; 1; 2]); reflexivity.
Defined.

(** ** The similarity matrix as an array *)

Section matrix_facts.
Implicit Types (sim : matrix) (row col : list Z) (v : Z).

Lemma square_length M sim : square M sim -> length sim = M.
Proof. by intros [? _]. Qed.

Lemma square_row M sim a : square M sim -> a < M -> length (sim !!! a) = M.
Proof.
  intros [Hl Hr] Ha. apply (Forall_lookup_total_1 _ sim a Hr). lia.
Qed.

Lemma square_intro M sim :
  length sim = M -> (forall a, a < M -> length (sim !!! a) = M) -> square M sim.
Proof.
  intros Hl Hr. split; [done|]. apply Forall_lookup_2. intros a row Ha.
  pose proof (lookup_lt_Some _ _ _ Ha).
  apply list_lookup_total_correct in Ha as <-. apply Hr. lia.
Qed.

Lemma square_replicate M v : square M (replicate M (replicate M v)).
Proof.
  split; [by rewrite length_replicate|].
  apply Forall_replicate. by rewrite length_replicate.
Qed.

Lemma mget_replicate M v a b :
  a < M -> b < M -> mget (replicate M (replicate M v)) a b = v.
Proof.
  intros. unfold mget. by rewrite !lookup_total_replicate_2.
Qed.

(** [simMat[r,:] = row] *)
Lemma square_set_row M sim r row :
  square M sim -> length row = M -> square M (set_row sim r row).
Proof.
  intros [Hl Hr] Hrow. split.
  - unfold set_row. by rewrite length_insert.
  - by apply Forall_insert.
Qed.

Lemma row_set_row M sim r row a :
  square M sim -> r < M ->
  set_row sim r row !!! a = if decide (a = r) then row else sim !!! a.
Proof.
  intros [Hl _] Hr. unfold set_row. rewrite list_lookup_total_insert.
  destruct (decide (a = r)) as [->|Hne].
  - by rewrite decide_True by (split; [done|lia]).
  - by rewrite decide_False by (intros [? _]; congruence).
Qed.

Lemma mget_set_row M sim r row a b :
  square M sim -> r < M ->
  mget (set_row sim r row) a b
  = if decide (a = r) then row !!! b else mget sim a b.
Proof.
  intros HS Hr. unfold mget. rewrite (row_set_row M) by done.
  by case_decide.
Qed.

(** [simMat[:,c] = col] *)
Lemma square_set_col M sim c col :
  square M sim -> length col = M -> square M (set_col sim c col).
Proof.
  intros [Hl Hr] Hc. split.
  - unfold set_col. rewrite length_zip_with_l_eq; lia.
  - unfold set_col. apply Forall_lookup_2. intros a row Ha.
    apply lookup_zip_with_Some in Ha as (row0 & v & -> & Hrow0 & _).
    rewrite length_insert. apply (Forall_lookup_1 _ _ _ _ Hr Hrow0).
Qed.

Lemma mget_set_col M sim c col a b :
  square M sim -> length col = M -> a < M -> c < M ->
  mget (set_col sim c col) a b
  = if decide (b = c) then col !!! a else mget sim a b.
Proof.
  intros HS Hcol Ha Hc. unfold mget, set_col.
  pose proof (lookup_total_zip_with (fun row v => <[c:=v]> row) sim col a)
    as Hz.
  pose proof (square_length _ _ HS).
  rewrite Hz by lia.
  rewrite list_lookup_total_insert, (square_row M) by done.
  destruct (decide (b = c)) as [->|Hne].
  - by rewrite decide_True by (split; [done|lia]).
  - by rewrite decide_False by (intros [? _]; congruence).
Qed.

(** [simMat[r,c] = v] *)
Lemma square_mset M sim r c v : square M sim -> square M (mset sim r c v).
Proof.
  intros HS. destruct (decide (r < M)) as [Hr|Hr].
  - apply (square_set_row M); [done|].
    rewrite length_insert. by apply square_row.
  - unfold mset. rewrite list_insert_ge; [done|].
    rewrite (square_length M) by done. lia.
Qed.

Lemma mget_mset M sim r c v a b :
  square M sim -> r < M -> c < M ->
  mget (mset sim r c v) a b
  = if decide (a = r /\ b = c) then v else mget sim a b.
Proof.
  intros HS Hr Hc. unfold mset.
  change (<[r:=?x]> sim) with (set_row sim r x).
  rewrite (mget_set_row M) by done.
  destruct (decide (a = r)) as [->|Hne].
  - rewrite list_lookup_total_insert, (square_row M) by done.
    unfold mget. destruct (decide (b = c)) as [->|Hne].
    + by rewrite !decide_True by (split; [done|lia]).
    + by rewrite !decide_False by (intros [? ?]; congruence).
  - rewrite decide_False by tauto. done.
Qed.
End matrix_facts.

(** ** One merge of the greedy cut *)

Local Open Scope Z_scope.

Section merge_update_facts.
Context (M : nat) (sim : matrix) (r c : nat).
Hypothesis Hsq : square M sim.
Hypothesis Hr : (r < M)%nat.
Hypothesis Hc : (c < M)%nat.

Let row_c := zip_with Z.add (sim !!! c) (sim !!! r).
Let sim1 := set_row sim c row_c.
Let sim2 := set_col sim1 c (sim1 !!! c).
Let sim3 := set_row sim2 r (replicate M (-1)).
Let sim4 := set_col sim3 r (replicate M (-1)).

Lemma merge_update_unfold : merge_update sim r c = mset sim4 c c 0.
Proof.
  unfold merge_update. rewrite (square_length M sim) by done. reflexivity.
Qed.

Lemma length_row_c : length row_c = M.
Proof.
  unfold row_c. rewrite length_zip_with_l_eq; rewrite !(square_row M); done.
Qed.

Lemma lookup_row_c b : (b < M)%nat -> row_c !!! b = mget sim c b + mget sim r b.
Proof.
  intros Hb. unfold row_c, mget.
  pose proof (lookup_total_zip_with Z.add (sim !!! c) (sim !!! r) b) as Hz.
  rewrite Hz; [done| |]; rewrite (square_row M); done.
Qed.

Lemma square_sim1 : square M sim1.
Proof. apply square_set_row; [done|apply length_row_c]. Qed.

Lemma row_c_sim1 : sim1 !!! c = row_c.
Proof. unfold sim1. rewrite (row_set_row M) by done. by rewrite decide_True. Qed.

Lemma square_sim2 : square M sim2.
Proof.
  apply square_set_col; [apply square_sim1|].
  rewrite row_c_sim1. apply length_row_c.
Qed.

Lemma square_sim3 : square M sim3.
Proof. apply square_set_row; [apply square_sim2|apply length_replicate]. Qed.

Lemma square_sim4 : square M sim4.
Proof. apply square_set_col; [apply square_sim3|apply length_replicate]. Qed.

Lemma square_merge_update : square M (merge_update sim r c).
Proof. rewrite merge_update_unfold. apply square_mset, square_sim4. Qed.

(** What the five assignments leave at position [(a, b)]: the later
    assignment wins. *)
Lemma mget_merge_update a b :
  (a < M)%nat -> (b < M)%nat ->
  mget (merge_update sim r c) a b =
    if decide (a = c /\ b = c) then 0
    else if decide (b = r) then -1
    else if decide (a = r) then -1
    else if decide (b = c) then mget sim c a + mget sim r a
    else if decide (a = c) then mget sim c b + mget sim r b
    else mget sim a b.
Proof.
  intros Ha Hb. rewrite merge_update_unfold.
  rewrite (mget_mset M) by (done || apply square_sim4).
  destruct (decide (a = c /\ b = c)) as [|_]; [done|].
  unfold sim4.
  rewrite (mget_set_col M)
    by (done || apply square_sim3 || apply length_replicate).
  destruct (decide (b = r)) as [|_].
  { by rewrite lookup_total_replicate_2. }
  unfold sim3. rewrite (mget_set_row M) by (done || apply square_sim2).
  destruct (decide (a = r)) as [|_].
  { by rewrite lookup_total_replicate_2. }
  unfold sim2.
  rewrite (mget_set_col M)
    by (done || apply square_sim1 || (rewrite row_c_sim1; apply length_row_c)).
  destruct (decide (b = c)) as [|_].
  { rewrite row_c_sim1. by apply lookup_row_c. }
  unfold sim1. rewrite (mget_set_row M) by done.
  destruct (decide (a = c)) as [|_]; [|done].
  by apply lookup_row_c.
Qed.
End merge_update_facts.

(** [np.argmax] *)

Lemma argmax_from_spec flat : forall best_i best i,
  (argmax_from best_i best i flat = best_i /\ Forall (fun x => x <= best) flat)
  \/ (exists j v, argmax_from best_i best i flat = (i + j)%nat
                  /\ flat !! j = Some v /\ best < v
                  /\ Forall (fun x => x <= v) flat).
Proof.
  induction flat as [|x flat IH]; intros best_i best i; simpl.
  - left. split; [done|constructor].
  - destruct (decide (best < x)) as [Hlt|Hge].
    + right. destruct (IH i x (S i)) as [[-> Hall]|(j & v & -> & Hj & Hv & Hall)].
      * exists 0%nat, x. split; [lia|]. split; [done|]. split; [done|].
        constructor; [lia|done].
      * exists (S j), v. split; [lia|]. split; [done|]. split; [lia|].
        constructor; [lia|done].
    + destruct (IH best_i best (S i))
        as [[-> Hall]|(j & v & -> & Hj & Hv & Hall)].
      * left. split; [done|]. constructor; [lia|done].
      * right. exists (S j), v. split; [lia|]. split; [done|].
        split; [done|]. constructor; [lia|done].
Qed.

Lemma np_argmax_Ok sim k :
  np_argmax sim = Ok k ->
  exists v, mjoin sim !! k = Some v /\ Forall (fun x => x <= v) (mjoin sim).
Proof.
  unfold np_argmax. destruct (mjoin sim) as [|x flat]; [done|].
  intros [= <-].
  destruct (argmax_from_spec flat 0%nat x 1%nat)
    as [[-> Hall]|(j & v & -> & Hj & Hv & Hall)].
  - exists x. split; [done|]. constructor; [lia|done].
  - exists v. split; [done|]. constructor; [lia|done].
Qed.

Lemma np_argmax_empty : np_argmax [] = Raise ValueError.
Proof. reflexivity. Qed.

Lemma np_argmax_square M sim :
  square M sim -> (0 < M)%nat -> exists k, np_argmax sim = Ok k.
Proof.
  intros [Hl Hrows] HM. unfold np_argmax.
  destruct (mjoin sim) as [|x flat] eqn:Hj; [|eauto].
  exfalso. apply (f_equal length) in Hj. rewrite length_join in Hj.
  rewrite (sum_list_fmap_same M) in Hj by done. simpl in Hj. nia.
Qed.

(** The flat position [k] of an M x M array is row [k / M], column
    [k mod M]. *)
Lemma lookup_join_square M sim k v :
  square M sim -> mjoin sim !! k = Some v ->
  (k / M < M)%nat /\ (k `mod` M < M)%nat /\ mget sim (k / M) (k `mod` M) = v.
Proof.
  intros [Hl Hrows] Hk.
  apply (join_lookup_Some_same_length M) in Hk as (j & l & i & Hj & Hi & ->);
    [|done].
  pose proof (lookup_lt_Some _ _ _ Hj) as Hjlt.
  pose proof (lookup_lt_Some _ _ _ Hi) as Hilt.
  rewrite (Forall_lookup_1 _ _ _ _ Hrows Hj) in Hilt.
  assert ((j * M + i) / M = j)%nat as ->.
  { rewrite Nat.div_add_l by lia. rewrite Nat.div_small by done. lia. }
  assert ((j * M + i) `mod` M = i)%nat as ->.
  { rewrite Nat.add_comm, Nat.Div0.mod_add. by apply Nat.mod_small. }
  split; [lia|]. split; [done|]. unfold mget.
  rewrite (list_lookup_total_correct _ _ _ Hj).
  by rewrite (list_lookup_total_correct _ _ _ Hi).
Qed.

Lemma elem_of_join_square M sim a b :
  square M sim -> (a < M)%nat -> (b < M)%nat -> mget sim a b ∈ mjoin sim.
Proof.
  intros Hsq Ha Hb. apply list_elem_of_join. exists (sim !!! a). split.
  - unfold mget. apply list_elem_of_lookup_total_2.
    by rewrite (square_row M).
  - apply list_elem_of_lookup_total_2. by rewrite (square_length M).
Qed.

(** The position chosen by a pass of the greedy cut. *)
Lemma argmax_position M sim :
  square M sim -> (0 < M)%nat ->
  exists maxInd r c,
    np_argmax sim = Ok maxInd /\ np_unravel_index maxInd sim = (r, c) /\
    (r < M)%nat /\ (c < M)%nat /\
    forall a b, (a < M)%nat -> (b < M)%nat -> mget sim a b <= mget sim r c.
Proof.
  intros Hsq HM. destruct (np_argmax_square M sim Hsq HM) as [k Hk].
  destruct (np_argmax_Ok _ _ Hk) as (v & Hv & Hall).
  destruct (lookup_join_square M sim k v Hsq Hv) as (Hr & Hc & Hget).
  exists k, (k / M)%nat, (k `mod` M)%nat. split; [done|]. split.
  { unfold np_unravel_index. by rewrite (square_row M). }
  split; [done|]. split; [done|]. intros a b Ha Hb. rewrite Hget.
  rewrite Forall_forall in Hall. apply Hall. by apply (elem_of_join_square M).
Qed.

Local Close Scope Z_scope.

(** ** Relabelling nodes *)

(** *** Relabelling *)

Lemma relabel_fmap newLabels r c :
  relabel newLabels r c
  = (fun l => if decide (l = newLabels !!! c) then newLabels !!! r else l)
      <$> newLabels.
Proof.
  unfold relabel, np_mask_put. rewrite zip_with_fmap_r, zip_with_diag.
  apply list_fmap_ext. intros _ l _. cbv beta.
  destruct (decide (l = newLabels !!! c)) as [H|H].
  - by rewrite bool_decide_eq_true_2.
  - by rewrite bool_decide_eq_false_2.
Qed.

Lemma length_relabel newLabels r c :
  length (relabel newLabels r c) = length newLabels.
Proof. by rewrite relabel_fmap, length_fmap. Qed.

Lemma lookup_total_fmap_nat (f : nat -> nat) (l : list nat) i :
  i < length l -> (f <$> l) !!! i = f (l !!! i).
Proof. apply list_lookup_total_fmap. Qed.

Lemma lookup_relabel M newLabels r c i :
  length newLabels = M -> i < M ->
  relabel newLabels r c !!! i
  = if decide (newLabels !!! i = newLabels !!! c) then newLabels !!! r
    else newLabels !!! i.
Proof.
  intros Hl Hi. rewrite relabel_fmap.
  rewrite lookup_total_fmap_nat by lia. done.
Qed.

Lemma lookup_total_bounded M (newLabels : list nat) i :
  length newLabels = M -> Forall (fun x => x < M) newLabels -> i < M ->
  newLabels !!! i < M.
Proof.
  intros Hl Hb Hi. apply (Forall_lookup_total_1 _ _ _ Hb). lia.
Qed.

Lemma relabel_bounded M newLabels r c :
  length newLabels = M -> Forall (fun x => x < M) newLabels -> r < M ->
  Forall (fun x => x < M) (relabel newLabels r c).
Proof.
  intros Hl Hb Hr. rewrite relabel_fmap, Forall_fmap.
  eapply Forall_impl; [exact Hb|]. intros x Hx. simpl.
  destruct (decide _); [|done]. by apply lookup_total_bounded.
Qed.

Lemma relabel_idempotent M newLabels r c :
  length newLabels = M -> Forall (fun x => x < M) newLabels ->
  r < M -> c < M ->
  idempotent M newLabels -> idempotent M (relabel newLabels r c).
Proof.
  intros Hl Hb Hr Hc Hid i Hi.
  assert (newLabels !!! r < M) by by apply lookup_total_bounded.
  assert (newLabels !!! i < M) by by apply lookup_total_bounded.
  rewrite (lookup_relabel M newLabels r c i) by done.
  destruct (decide (newLabels !!! i = newLabels !!! c)) as [Heq|Hne].
  - rewrite (lookup_relabel M newLabels r c (newLabels !!! r)) by done.
    rewrite (Hid r) by done.
    by destruct (decide (newLabels !!! r = newLabels !!! c)).
  - rewrite (lookup_relabel M newLabels r c (newLabels !!! i)) by done.
    rewrite (Hid i) by done. by rewrite decide_False.
Qed.

(** [np.unique(...).size] never grows under a relabelling, and shrinks when
    the relabelling changes the array. *)
Lemma length_np_unique_le a : length (np_unique a) <= length a.
Proof.
  rewrite np_unique_perm. apply submseteq_length, NoDup_submseteq.
  - apply NoDup_remove_dups.
  - intros x. by rewrite elem_of_remove_dups.
Qed.

Lemma length_np_unique_incl a b :
  (forall x, x ∈ a -> x ∈ b) -> length (np_unique a) <= length (np_unique b).
Proof.
  intros Hincl. apply submseteq_length, NoDup_submseteq.
  - apply NoDup_np_unique.
  - intros x. rewrite !elem_of_np_unique. apply Hincl.
Qed.

Lemma length_np_unique_fmap (f : nat -> nat) a :
  length (np_unique (f <$> a)) <= length (np_unique a).
Proof.
  rewrite <- (length_fmap f (np_unique a)).
  apply submseteq_length, NoDup_submseteq; [apply NoDup_np_unique|].
  intros y. rewrite elem_of_np_unique.
  intros (x & -> & Hx)%list_elem_of_fmap.
  apply list_elem_of_fmap_2. by apply elem_of_np_unique.
Qed.

Lemma relabel_groups_le newLabels r c :
  length (np_unique (relabel newLabels r c)) <= length (np_unique newLabels).
Proof. rewrite relabel_fmap. apply length_np_unique_fmap. Qed.

Lemma relabel_groups_lt M newLabels r c :
  length newLabels = M -> r < M -> c < M ->
  relabel newLabels r c <> newLabels ->
  length (np_unique (relabel newLabels r c)) < length (np_unique newLabels).
Proof.
  intros Hl Hr Hc Hchg.
  assert (newLabels !!! r <> newLabels !!! c) as Hne.
  { intros Heq. apply Hchg. rewrite relabel_fmap.
    transitivity (id <$> newLabels); [|apply list_fmap_id].
    apply list_fmap_ext. intros _ l _. cbv beta.
    destruct (decide (l = newLabels !!! c)); [|done]. unfold id. congruence. }
  assert (newLabels !!! c ∈ newLabels) as Hcin.
  { apply list_elem_of_lookup_total_2. lia. }
  assert (newLabels !!! r ∈ newLabels) as Hrin.
  { apply list_elem_of_lookup_total_2. lia. }
  eapply Nat.le_lt_trans;
    [|apply (length_filter_lt (fun x => x <> newLabels !!! c)
               (np_unique newLabels) (newLabels !!! c))].
  - apply submseteq_length, NoDup_submseteq; [apply NoDup_np_unique|].
    intros y. rewrite elem_of_np_unique, relabel_fmap.
    intros (x & -> & Hx)%list_elem_of_fmap.
    apply list_elem_of_filter. rewrite elem_of_np_unique.
    destruct (decide _); done.
  - by apply elem_of_np_unique.
  - intros Hn. by apply Hn.
Qed.

Lemma relabel_seq M r c :
  r < M -> c < M -> relabel (seq 0 M) r c = <[c := r]> (seq 0 M).
Proof.
  intros Hr Hc. apply list_eq_same_length with M.
  - by rewrite length_insert, length_seq.
  - by rewrite length_relabel, length_seq.
  - intros i x y Hi Hx Hy.
    apply list_lookup_total_correct in Hx, Hy. subst.
    rewrite (lookup_relabel M) by (done || apply length_seq).
    rewrite list_lookup_total_insert, length_seq.
    rewrite !lookup_total_seq_lt by done. simpl.
    destruct (decide (i = c)) as [->|Hne].
    + by rewrite decide_True by (split; [done|lia]).
    + by rewrite decide_False by (intros [? _]; congruence).
Qed.

(** ** The loop of the greedy cut *)

(** *** One pass of the loop *)

Lemma graph_cut_merge_cases M sim newLabels :
  square M sim -> 0 < M ->
  exists maxInd r c,
    np_argmax sim = Ok maxInd /\ np_unravel_index maxInd sim = (r, c) /\
    r < M /\ c < M /\
    (forall a b, a < M -> b < M -> (mget sim a b <= mget sim r c)%Z) /\
    graph_cut_merge (sim, newLabels)
    = Ok (if decide (0 < mget sim r c)%Z
          then Some (merge_update sim r c, relabel newLabels r c)
          else None).
Proof.
  intros Hsq HM.
  destruct (argmax_position M sim Hsq HM)
    as (maxInd & r & c & Harg & Hrc & Hr & Hc & Hmax).
  exists maxInd, r, c. repeat (split; [done|]).
  unfold graph_cut_merge. cbn [fst snd]. rewrite Harg. cbn [rbind].
  rewrite Hrc. cbn [fst snd]. by destruct (decide _).
Qed.

Lemma graph_cut_merge_relabels st st' :
  graph_cut_merge st = Ok (Some st') ->
  exists r c, st'.2 = relabel st.2 r c /\ st'.1 = merge_update st.1 r c.
Proof.
  unfold graph_cut_merge. destruct (np_argmax st.1) as [maxInd| |]; [|done..].
  simpl. destruct (decide _); [|done]. intros [= <-]. eauto.
Qed.

Lemma graph_cut_merge_shape M st st' :
  well_shaped M st -> graph_cut_merge st = Ok (Some st') -> well_shaped M st'.
Proof.
  destruct st as [sim newLabels]. intros (Hsq & Hl & Hb) Hm. simpl in *.
  destruct (decide (0 < M)) as [HM|HM].
  - destruct (graph_cut_merge_cases M sim newLabels Hsq HM)
      as (maxInd & r & c & _ & _ & Hr & Hc & _ & Heq).
    rewrite Heq in Hm. destruct (decide _); [|done]. simplify_eq.
    split; [by apply square_merge_update|]. simpl.
    split; [by rewrite length_relabel|by apply relabel_bounded].
  - assert (sim = []) as ->.
    { destruct Hsq as [Hlen _]. destruct sim; [done|]. simpl in Hlen. lia. }
    done.
Qed.

Lemma graph_cut_merge_groups st st' :
  graph_cut_merge st = Ok (Some st') ->
  length (np_unique st'.2) <= length (np_unique st.2).
Proof.
  intros (r & c & -> & _)%graph_cut_merge_relabels. apply relabel_groups_le.
Qed.

(** *** Invariants of the loop *)

Lemma graph_cut_loop_invariant (P : matrix * list nat -> Prop) n_clusters :
  (forall st st', P st -> graph_cut_merge st = Ok (Some st') -> P st') ->
  forall fuel st st',
    P st -> graph_cut_loop fuel n_clusters st = Ok st' -> P st'.
Proof.
  intros Hstep. induction fuel as [|fuel IH]; intros st st' HP; [done|].
  simpl. unfold graph_cut_body.
  destruct (graph_cut_merge st) as [[st1|]| |] eqn:Hm; simpl; try done.
  - destruct (n_clusters_reached _ _); simpl.
    + intros [= <-]. eauto.
    + apply IH. eauto.
  - by intros [= <-].
Qed.

Lemma graph_cut_history_invariant (P : matrix * list nat -> Prop) n_clusters :
  (forall st st', P st -> graph_cut_merge st = Ok (Some st') -> P st') ->
  forall fuel st, P st -> Forall P (graph_cut_history fuel n_clusters st).
Proof.
  intros Hstep. induction fuel as [|fuel IH]; intros st HP; [constructor|].
  simpl. destruct (graph_cut_merge st) as [[st1|]| |] eqn:Hm;
    try constructor; eauto.
  destruct (n_clusters_reached _ _); [constructor|]. eauto.
Qed.

(** *** Termination *)

Lemma live_intro M sim a b :
  b < M -> (0 < mget sim a b \/ 0 < mget sim b a)%Z -> live M sim a.
Proof.
  intros Hb H. apply Exists_exists. exists b. split; [|done].
  apply elem_of_seq. lia.
Qed.

Lemma not_live_le M sim a b :
  ~ live M sim a -> b < M -> (mget sim a b <= 0 /\ mget sim b a <= 0)%Z.
Proof.
  intros Hn Hb.
  destruct (decide (0 < mget sim a b)%Z) as [H1|H1].
  { exfalso. apply Hn. eapply live_intro; eauto. }
  destruct (decide (0 < mget sim b a)%Z) as [H2|H2].
  { exfalso. apply Hn. eapply live_intro; eauto. }
  lia.
Qed.

Lemma not_live_intro M sim a :
  (forall b, b < M -> (mget sim a b <= 0 /\ mget sim b a <= 0)%Z) ->
  ~ live M sim a.
Proof.
  intros H (b & Hb%elem_of_seq & Hpos)%Exists_exists.
  destruct (H b) as [? ?]; lia.
Qed.

Section retire.
Context (M : nat) (sim : matrix) (r c : nat).
Hypothesis Hsq : square M sim.
Hypothesis Hr : r < M.
Hypothesis Hc : c < M.
Hypothesis Hpos : (0 < mget sim r c)%Z.

Lemma merged_row_live : live M sim r.
Proof. eapply live_intro; eauto. Qed.

Lemma merged_column_live : live M sim c.
Proof. eapply (live_intro M sim c r); eauto. Qed.

Lemma merged_row_retired : ~ live M (merge_update sim r c) r.
Proof.
  apply not_live_intro. intros b Hb.
  rewrite !(mget_merge_update M) by done.
  repeat (destruct (decide _)); try lia; naive_solver.
Qed.

Lemma retired_stays_retired a :
  a < M -> ~ live M sim a -> ~ live M (merge_update sim r c) a.
Proof.
  intros Ha Hn. apply not_live_intro. intros b Hb.
  assert (a <> r) by (intros ->; apply Hn, merged_row_live).
  assert (a <> c) by (intros ->; apply Hn, merged_column_live).
  destruct (not_live_le M sim a b Hn Hb).
  destruct (not_live_le M sim a c Hn Hc).
  destruct (not_live_le M sim a r Hn Hr).
  rewrite !(mget_merge_update M) by done.
  repeat (destruct (decide _)); try lia; naive_solver.
Qed.
End retire.

Lemma length_filter_mono {A} (P Q : A -> Prop)
    `{!forall x, Decision (P x)} `{!forall x, Decision (Q x)} (l : list A) :
  (forall y, y ∈ l -> P y -> Q y) ->
  length (filter P l) <= length (filter Q l).
Proof.
  induction l as [|y l IH]; intros Hi; [done|].
  assert (length (filter P l) <= length (filter Q l)) as Hle.
  { apply IH. intros z Hz. apply Hi. by right. }
  destruct (decide (P y)) as [HP|HP].
  - rewrite (filter_cons_True P) by done.
    rewrite (filter_cons_True Q) by (apply Hi; [left|done]). simpl. lia.
  - rewrite (filter_cons_False P) by done.
    destruct (decide (Q y)).
    + rewrite (filter_cons_True Q) by done. simpl. lia.
    + by rewrite (filter_cons_False Q) by done.
Qed.

Lemma length_filter_strict {A} (P Q : A -> Prop)
    `{!forall x, Decision (P x)} `{!forall x, Decision (Q x)} (l : list A) x :
  (forall y, y ∈ l -> P y -> Q y) -> x ∈ l -> Q x -> ~ P x ->
  length (filter P l) < length (filter Q l).
Proof.
  induction l as [|y l IH]; intros Hi Hx HQ HP; [by apply elem_of_nil in Hx|].
  assert (forall z, z ∈ l -> P z -> Q z) as Hi'.
  { intros z Hz. apply Hi. by right. }
  apply elem_of_cons in Hx as [->|Hx].
  - rewrite (filter_cons_False P), (filter_cons_True Q) by done. simpl.
    pose proof (length_filter_mono P Q l Hi'). lia.
  - specialize (IH Hi' Hx HQ HP).
    destruct (decide (P y)) as [HPy|HPy].
    + rewrite (filter_cons_True P) by done.
      rewrite (filter_cons_True Q) by (apply Hi; [left|done]). simpl. lia.
    + rewrite (filter_cons_False P) by done.
      destruct (decide (Q y)).
      * rewrite (filter_cons_True Q) by done. simpl. lia.
      * by rewrite (filter_cons_False Q) by done.
Qed.

Lemma merge_update_live_count M sim r c :
  square M sim -> r < M -> c < M -> (0 < mget sim r c)%Z ->
  live_count M (merge_update sim r c) < live_count M sim.
Proof.
  intros Hsq Hr Hc Hpos. unfold live_count.
  apply (length_filter_strict _ _ _ r).
  - intros a Ha%elem_of_seq Hlive.
    destruct (decide (live M sim a)) as [|Hn]; [done|].
    exfalso.
    apply (retired_stays_retired M sim r c Hsq Hr Hc Hpos a); [lia|done|done].
  - apply elem_of_seq. lia.
  - by apply (merged_row_live M sim r c).
  - by apply merged_row_retired.
Qed.

Lemma live_count_le M sim : live_count M sim <= M.
Proof.
  unfold live_count. etrans; [apply length_filter|]. by rewrite length_seq.
Qed.

Lemma graph_cut_loop_fuel M n_clusters : forall fuel st,
  well_shaped M st -> 0 < M -> live_count M st.1 < fuel ->
  exists st', graph_cut_loop fuel n_clusters st = Ok st'.
Proof.
  induction fuel as [|fuel IH]; intros [sim newLabels] Hws HM Hfuel; [lia|].
  pose proof Hws as (Hsq & Hl & Hb). simpl in *.
  destruct (graph_cut_merge_cases M sim newLabels Hsq HM)
    as (maxInd & r & c & _ & _ & Hr & Hc & _ & Heq).
  unfold graph_cut_body. rewrite Heq. destruct (decide _) as [Hpos|Hnpos]; simpl.
  - destruct (n_clusters_reached _ _); [eauto|].
    apply IH; [|done|].
    + eapply graph_cut_merge_shape; [exact Hws|exact Heq].
    + simpl. pose proof (merge_update_live_count M sim r c Hsq Hr Hc Hpos). lia.
  - eauto.
Qed.

Lemma graph_cut_loop_more_fuel n_clusters : forall fuel fuel' st st',
  graph_cut_loop fuel n_clusters st = Ok st' -> fuel <= fuel' ->
  graph_cut_loop fuel' n_clusters st = Ok st'.
Proof.
  induction fuel as [|fuel IH]; intros fuel' st st' Hrun Hle; [done|].
  destruct fuel' as [|fuel']; [lia|]. simpl in *.
  destruct (graph_cut_body n_clusters st) as [[st1|st1]| |]; simpl in *;
    try done.
  apply IH; [done|lia].
Qed.

(** *** Counting the merges *)

Lemma np_unique_nonempty a : a <> [] -> 0 < length (np_unique a).
Proof.
  destruct a as [|x a]; [done|]. intros _.
  assert (x ∈ np_unique (x :: a)) as Hin by (apply elem_of_np_unique; left).
  destruct (np_unique (x :: a)); [by apply elem_of_nil in Hin|simpl; lia].
Qed.

Lemma graph_cut_history_S fuel n_clusters st :
  graph_cut_history (S fuel) n_clusters st
  = match graph_cut_merge st with
    | Ok (Some st') =>
        st' :: (if n_clusters_reached n_clusters st'.2 then []
                else graph_cut_history fuel n_clusters st')
    | _ => []
    end.
Proof. reflexivity. Qed.

Lemma label_changes_bound M n_clusters : forall fuel st,
  well_shaped M st -> 0 < M ->
  label_changes st.2 (snd <$> graph_cut_history fuel n_clusters st) + 1
  <= length (np_unique st.2).
Proof.
  assert (forall st, well_shaped M st -> 0 < M ->
            0 + 1 <= length (np_unique st.2)) as Hbase.
  { intros st (_ & Hl & _) HM. apply np_unique_nonempty.
    intros Hnil. rewrite Hnil in Hl. simpl in Hl. lia. }
  induction fuel as [|fuel IH]; intros st Hws HM; [by apply Hbase|].
  rewrite graph_cut_history_S.
  destruct (graph_cut_merge st) as [[st1|]| |] eqn:Hm;
    [|by apply Hbase..].
  pose proof (graph_cut_merge_shape M st st1 Hws Hm) as Hws1.
  rewrite fmap_cons. cbn [label_changes].
  assert (label_changes st1.2
            (snd <$> (if n_clusters_reached n_clusters st1.2 then []
                      else graph_cut_history fuel n_clusters st1)) + 1
          <= length (np_unique st1.2)) as Hrest.
  { destruct (n_clusters_reached _ _); [by apply Hbase|by apply IH]. }
  destruct (decide (st1.2 = st.2)) as [Heq|Hne].
  - rewrite <- Heq. lia.
  - destruct st as [sim newLabels]. pose proof Hws as (Hsq & Hl & _).
    cbn [fst snd] in *.
    destruct (graph_cut_merge_cases M sim newLabels Hsq HM)
      as (maxInd & r & c & _ & _ & Hr & Hc & _ & Heq).
    rewrite Heq in Hm. destruct (decide _); [|done]. simplify_eq.
    cbn [fst snd] in *.
    pose proof (relabel_groups_lt _ newLabels r c eq_refl Hr Hc Hne). lia.
Qed.

(** ** Termination and the returned relabelling *)

Lemma well_shaped_initial M sim : square M sim -> well_shaped M (sim, seq 0 M).
Proof.
  intros Hsq. split; [done|]. split; [apply length_seq|].
  apply Forall_seq. intros; lia.
Qed.

Lemma graph_cut_loop_empty fuel n_clusters newLabels :
  graph_cut_loop (S fuel) n_clusters ([], newLabels) = Raise ValueError.
Proof. reflexivity. Qed.

Lemma square_0 sim : square 0 sim -> sim = [].
Proof. intros [Hl _]. by destruct sim. Qed.

(** C7. On an M x M matrix the loop of [graph_cut_approx] terminates: the
    result is the same for every iteration budget above M and is never a
    timeout (labels when M > 0, the ValueError of [np.argmax] when M = 0); no
    pass increases the number of distinct values of [newLabels]; and at most
    M - 1 passes change [newLabels]. *)
Theorem graph_cut_terminates M n_clusters sim :
  square M sim ->
  (exists out,
     out <> Timeout /\ graph_cut_approx n_clusters sim = out /\
     forall fuel, M < fuel ->
       (st <~ graph_cut_loop fuel n_clusters (sim, seq 0 M) ;; Ok st.2) = out) /\
  (0 < M -> exists newLabels, graph_cut_approx n_clusters sim = Ok newLabels) /\
  (forall st st', graph_cut_merge st = Ok (Some st') ->
     length (np_unique st'.2) <= length (np_unique st.2)) /\
  (forall fuel,
     label_changes (seq 0 M)
       (snd <$> graph_cut_history fuel n_clusters (sim, seq 0 M)) <= M - 1).
Proof.
  intros Hsq. pose proof (well_shaped_initial M sim Hsq) as Hws.
  assert (length sim = M) as Hlen by apply Hsq.
  destruct (decide (0 < M)) as [HM|HM].
  - destruct (graph_cut_loop_fuel M n_clusters (S M) (sim, seq 0 M) Hws HM)
      as [st' Hrun].
    { pose proof (live_count_le M sim). simpl. lia. }
    assert (graph_cut_approx n_clusters sim = Ok st'.2) as Happrox.
    { unfold graph_cut_approx. rewrite Hlen, Hrun. reflexivity. }
    split; [|split; [|split]].
    + exists (Ok st'.2). split; [done|]. split; [done|].
      intros fuel Hfuel.
      rewrite (graph_cut_loop_more_fuel n_clusters (S M) fuel _ st' Hrun)
        by lia.
      reflexivity.
    + intros _. eauto.
    + apply graph_cut_merge_groups.
    + intros fuel.
      pose proof (label_changes_bound M n_clusters fuel _ Hws HM) as Hb.
      pose proof (length_np_unique_le (seq 0 M)) as Hle.
      rewrite length_seq in Hle. simpl in Hb. lia.
  - assert (M = 0) as -> by lia. apply square_0 in Hsq as ->.
    split; [|split; [|split]].
    + exists (Raise ValueError). split; [done|]. split; [reflexivity|].
      intros [|fuel] Hfuel; [lia|]. reflexivity.
    + lia.
    + apply graph_cut_merge_groups.
    + intros [|fuel]; simpl; lia.
Qed.

(** An instance: three nodes, two merges. *)
Lemma graph_cut_terminates_witness :
  (exists out,
     out <> Timeout /\
     graph_cut_approx (Some 1) [[0; 2; 0]; [2; 0; 1]; [0; 1; 0]]%Z = out /\
     forall fuel, 3 < fuel ->
       (st <~ graph_cut_loop fuel (Some 1)
                ([[0; 2; 0]; [2; 0; 1]; [0; 1; 0]]%Z, seq 0 3) ;;
        Ok st.2) = out) /\
  (0 < 3 -> exists newLabels,
     graph_cut_approx (Some 1) [[0; 2; 0]; [2; 0; 1]; [0; 1; 0]]%Z
     = Ok newLabels) /\
  (forall st st', graph_cut_merge st = Ok (Some st') ->
     length (np_unique st'.2) <= length (np_unique st.2)) /\
  (forall fuel,
     label_changes (seq 0 3)
       (snd <$> graph_cut_history fuel (Some 1)
                  ([[0; 2; 0]; [2; 0; 1]; [0; 1; 0]]%Z, seq 0 3)) <= 3 - 1).
Proof.
  apply (graph_cut_terminates 3 (Some 1)
           [[0; 2; 0]; [2; 0; 1]; [0; 1; 0]]%Z).
  split; [reflexivity|]. repeat constructor.
Defined.

(** *** The relabelling returned by the cut *)

Lemma graph_cut_loop_idempotent M n_clusters fuel st st' :
  well_shaped M st -> idempotent M st.2 ->
  graph_cut_loop fuel n_clusters st = Ok st' ->
  well_shaped M st' /\ idempotent M st'.2.
Proof.
  intros Hws Hid.
  apply (graph_cut_loop_invariant
           (fun st => well_shaped M st /\ idempotent M st.2)); [|done].
  clear. intros [sim newLabels] st' [Hws Hid] Hm.
  split; [by eapply graph_cut_merge_shape|].
  destruct Hws as (Hsq & Hl & Hb). cbn [fst snd] in *.
  destruct (decide (0 < M)) as [HM|HM].
  - destruct (graph_cut_merge_cases M sim newLabels Hsq HM)
      as (maxInd & r & c & _ & _ & Hr & Hc & _ & Heq).
    rewrite Heq in Hm. destruct (decide _); [|done]. simplify_eq.
    cbn [snd].
    exact (relabel_idempotent _ newLabels r c eq_refl Hb Hr Hc Hid).
  - intros i Hi. lia.
Qed.

Lemma idempotent_seq M : idempotent M (seq 0 M).
Proof.
  intros i Hi. rewrite (lookup_total_seq_lt 0 M i) by done.
  cbn [Nat.add]. by rewrite lookup_total_seq_lt.
Qed.

Lemma mask_put_fmap (labelSet : list nat) lab v :
  np_mask_put labelSet ((fun l => bool_decide (l = lab)) <$> labelSet) v
  = (fun l => if decide (l = lab) then v else l) <$> labelSet.
Proof.
  unfold np_mask_put. rewrite zip_with_fmap_r, zip_with_diag.
  apply list_fmap_ext. intros _ l _. cbv beta.
  destruct (decide (l = lab)) as [H|H].
  - by rewrite bool_decide_eq_true_2.
  - by rewrite bool_decide_eq_false_2.
Qed.

(** The in-place remapping of [translate_labels], label by label: the
    entries that held a label of [seen] already hold its image. *)
Lemma translate_labels_loop M newLabels orig :
  length newLabels = M -> idempotent M newLabels ->
  Forall (fun l => l < M) orig ->
  forall labs seen,
    Forall (fun l => l < M) labs ->
    for_each labs
      (fun labelSet lab =>
         v <~ np_get newLabels lab ;;
         Ok (np_mask_put labelSet
               ((fun l => bool_decide (l = lab)) <$> labelSet) v))
      ((fun l => if decide (l ∈ seen) then newLabels !!! l else l) <$> orig)
    = Ok ((fun l => if decide (l ∈ seen ++ labs) then newLabels !!! l else l)
            <$> orig).
Proof.
  intros Hl Hid Horig. induction labs as [|lab labs IH]; intros seen Hlabs.
  - simpl. by rewrite app_nil_r.
  - apply Forall_cons in Hlabs as [Hlab Hlabs]. cbn [for_each].
    rewrite np_get_lt by lia. cbn [rbind]. rewrite mask_put_fmap.
    rewrite <- list_fmap_compose.
    replace (seen ++ lab :: labs) with ((seen ++ [lab]) ++ labs)
      by (by rewrite <- app_assoc).
    rewrite <- (IH (seen ++ [lab]) Hlabs). f_equal.
    apply list_fmap_ext. intros k l Hk. cbv beta. unfold compose.
    assert (l < M) as Hlt by apply (Forall_lookup_1 _ _ _ _ Horig Hk).
    destruct (decide (l ∈ seen)) as [Hin|Hnin].
    + rewrite (decide_True (P := l ∈ seen ++ [lab]))
        by (apply elem_of_app; by left).
      destruct (decide (newLabels !!! l = lab)) as [<-|]; [|done].
      by apply Hid.
    + destruct (decide (l = lab)) as [->|Hne].
      * by rewrite decide_True by (apply elem_of_app; right; left).
      * rewrite decide_False; [done|].
        rewrite elem_of_app, list_elem_of_singleton. tauto.
Qed.

Lemma translate_labels_idempotent M labelSet newLabels :
  length newLabels = M -> idempotent M newLabels ->
  Forall (fun l => l < M) labelSet ->
  translate_labels labelSet newLabels
  = Ok ((fun l => newLabels !!! l) <$> labelSet).
Proof.
  intros Hl Hid Hb. unfold translate_labels.
  assert (Forall (fun l => l < M) (np_unique labelSet)) as Hu.
  { apply Forall_forall. intros l Hin.
    apply (proj1 (elem_of_np_unique _ _)) in Hin.
    by apply (proj1 (Forall_forall _ _) Hb). }
  pose proof (translate_labels_loop M newLabels labelSet Hl Hid Hb
                (np_unique labelSet) [] Hu) as Hloop.
  assert ((fun l => if decide (l ∈ []) then newLabels !!! l else l)
            <$> labelSet = labelSet) as Hstart.
  { transitivity (id <$> labelSet); [|apply list_fmap_id].
    apply list_fmap_ext. intros _ l _. cbv beta.
    by rewrite decide_False by apply not_elem_of_nil. }
  rewrite Hstart in Hloop. rewrite Hloop.
  f_equal. apply list_fmap_ext. intros k l Hk. cbv beta.
  rewrite decide_True; [done|]. rewrite app_nil_l.
  apply elem_of_np_unique. by eapply list_elem_of_lookup_2.
Qed.

(** C10. The array returned by [graph_cut_approx] on an M x M matrix has
    length M and is idempotent as a map on node indices, and the in-place
    label-by-label remapping of [translate_labels] then gives every entry the
    image of its original label. *)
Theorem graph_cut_relabeling_idempotent M n_clusters sim newLabels :
  square M sim ->
  graph_cut_approx n_clusters sim = Ok newLabels ->
  length newLabels = M /\
  (forall i, i < M ->
     newLabels !!! i < M /\ newLabels !!! (newLabels !!! i) = newLabels !!! i) /\
  (forall labelSet,
     Forall (fun l => l < M) labelSet ->
     translate_labels labelSet newLabels
     = Ok ((fun l => newLabels !!! l) <$> labelSet)).
Proof.
  intros Hsq Hcut. unfold graph_cut_approx in Hcut.
  rewrite (square_length M) in Hcut by done.
  apply rbind_Ok_inv in Hcut as (st & Hrun & [= <-]).
  destruct (graph_cut_loop_idempotent M n_clusters _ _ st
              (well_shaped_initial M sim Hsq) (idempotent_seq M) Hrun)
    as [(Hsq' & Hl & Hb) Hid].
  split; [done|]. split.
  - intros i Hi. split; [by apply lookup_total_bounded|by apply Hid].
  - intros labelSet Hlab. by apply (translate_labels_idempotent M).
Qed.

(** An instance: three nodes merged into one. *)
Lemma graph_cut_relabeling_idempotent_witness :
  length [0; 0; 0] = 3 /\
  (forall i, i < 3 ->
     [0; 0; 0] !!! i < 3 /\ [0; 0; 0] !!! ([0; 0; 0] !!! i) = [0; 0; 0] !!! i) /\
  (forall labelSet,
     Forall (fun l => l < 3) labelSet ->
     translate_labels labelSet [0; 0; 0]
     = Ok ((fun l => [0; 0; 0] !!! l) <$> labelSet)).
Proof.
  apply (graph_cut_relabeling_idempotent 3 None
           [[0; 2; 0]; [2; 0; 1]; [0; 1; 0]]%Z [0; 0; 0]).
  - split; [reflexivity|]. repeat constructor.
  - reflexivity.
Defined.

(** ** A target count above the number of nodes *)

(** C2 (counterexample). Two nodes with a positive net value and a target
    of three clusters: the cut still merges once, and returns [0; 0] instead
    of the identity [0; 1]. *)
Lemma cut_merges_before_checking_n_clusters :
  square 2 [[0; 1]; [1; 0]]%Z /\ 2 < 3 /\
  graph_cut_approx (Some 3) [[0; 1]; [1; 0]]%Z = Ok [0; 0] /\
  graph_cut_approx (Some 3) [[0; 1]; [1; 0]]%Z <> Ok (seq 0 2) /\
  length (graph_cut_history 3 (Some 3) ([[0; 1]; [1; 0]]%Z, seq 0 2)) = 1.
Proof.
  split; [split; [reflexivity|repeat constructor]|].
  split; [lia|]. split; [reflexivity|]. split; [|reflexivity].
  vm_compute. discriminate.
Qed.

Lemma n_clusters_reached_large K newLabels :
  length newLabels <= K -> n_clusters_reached (Some K) newLabels = true.
Proof.
  intros Hle. unfold n_clusters_reached. apply bool_decide_eq_true_2.
  pose proof (length_np_unique_le newLabels). lia.
Qed.

(** C2 (as amended). With a target count K above the number M of nodes,
    the cut performs no merge and returns the identity exactly when the
    matrix has no positive entry; when the largest entry, at (r, c), is
    positive, it performs exactly one merge before the target is looked at,
    and returns the identity with node c relabelled r. *)
Theorem cut_above_node_count M K sim :
  square M sim -> 0 < M -> M < K ->
  exists maxInd r c,
    np_argmax sim = Ok maxInd /\ np_unravel_index maxInd sim = (r, c) /\
    r < M /\ c < M /\
    (forall a b, a < M -> b < M -> (mget sim a b <= mget sim r c)%Z) /\
    ((mget sim r c <= 0)%Z ->
       graph_cut_approx (Some K) sim = Ok (seq 0 M) /\
       forall fuel, graph_cut_history fuel (Some K) (sim, seq 0 M) = []) /\
    ((0 < mget sim r c)%Z ->
       graph_cut_approx (Some K) sim = Ok (<[c := r]> (seq 0 M)) /\
       forall fuel, 0 < fuel ->
         graph_cut_history fuel (Some K) (sim, seq 0 M)
         = [(merge_update sim r c, <[c := r]> (seq 0 M))]).
Proof.
  intros Hsq HM HK.
  destruct (graph_cut_merge_cases M sim (seq 0 M) Hsq HM)
    as (maxInd & r & c & Harg & Hrc & Hr & Hc & Hmax & Heq).
  exists maxInd, r, c. repeat (split; [done|]).
  assert (length sim = M) as Hlen by apply Hsq.
  split.
  - intros Hle. rewrite decide_False in Heq by lia. split.
    + unfold graph_cut_approx. rewrite Hlen. cbn [graph_cut_loop].
      unfold graph_cut_body. rewrite Heq. reflexivity.
    + intros [|fuel]; [done|]. rewrite graph_cut_history_S, Heq. done.
  - intros Hpos. rewrite decide_True in Heq by done.
    assert (n_clusters_reached (Some K) (relabel (seq 0 M) r c) = true)
      as Hstop.
    { apply n_clusters_reached_large. rewrite length_relabel, length_seq. lia. }
    split.
    + unfold graph_cut_approx. rewrite Hlen. cbn [graph_cut_loop].
      unfold graph_cut_body. rewrite Heq. cbn [rbind snd]. rewrite Hstop.
      cbn [rbind snd]. by rewrite relabel_seq.
    + intros [|fuel] Hfuel; [lia|].
      rewrite graph_cut_history_S, Heq. cbn [snd]. rewrite Hstop.
      by rewrite relabel_seq.
Qed.

(** An instance: two nodes and a target of three. *)
Lemma cut_above_node_count_witness :
  exists maxInd r c,
    np_argmax [[0; 1]; [1; 0]]%Z = Ok maxInd /\
    np_unravel_index maxInd [[0; 1]; [1; 0]]%Z = (r, c) /\
    r < 2 /\ c < 2 /\
    (forall a b, a < 2 -> b < 2 ->
       (mget [[0; 1]; [1; 0]] a b <= mget [[0; 1]; [1; 0]] r c)%Z) /\
    ((mget [[0; 1]; [1; 0]] r c <= 0)%Z ->
       graph_cut_approx (Some 3) [[0; 1]; [1; 0]]%Z = Ok (seq 0 2) /\
       forall fuel,
         graph_cut_history fuel (Some 3) ([[0; 1]; [1; 0]]%Z, seq 0 2) = []) /\
    ((0 < mget [[0; 1]; [1; 0]] r c)%Z ->
       graph_cut_approx (Some 3) [[0; 1]; [1; 0]]%Z
       = Ok (<[c := r]> (seq 0 2)) /\
       forall fuel, 0 < fuel ->
         graph_cut_history fuel (Some 3) ([[0; 1]; [1; 0]]%Z, seq 0 2)
         = [(merge_update [[0; 1]; [1; 0]]%Z r c, <[c := r]> (seq 0 2))]).
Proof.
  apply (cut_above_node_count 2 3 [[0; 1]; [1; 0]]%Z).
  - split; [reflexivity|repeat constructor].
  - lia.
  - lia.
Defined.

(** ** Building the node graph *)

(** *** Loops *)

Lemma for_each_invariant {A St} (P : St -> Prop) (xs : list A)
    (body : St -> A -> result St) :
  (forall st x st', x ∈ xs -> P st -> body st x = Ok st' -> P st') ->
  forall st st', P st -> for_each xs body st = Ok st' -> P st'.
Proof.
  induction xs as [|x xs IH]; intros Hbody st st' HP Hrun; simpl in Hrun.
  - by simplify_eq.
  - apply rbind_Ok_inv in Hrun as (st1 & Hx & Hrun).
    eapply (IH (fun st x st' Hin => Hbody st x st' (list_elem_of_further _ _ _ Hin)));
      [|exact Hrun].
    eapply Hbody; [left|exact HP|exact Hx].
Qed.


(** *** The net constraint values *)



Lemma graph_inv_zeros M : graph_inv M (replicate M (replicate M 0%Z)).
Proof.
  split; [apply square_replicate|]. split.
  - intros a b Ha Hb. by rewrite !mget_replicate.
  - intros a Ha. by rewrite mget_replicate.
Qed.

Lemma graph_inv_set_pair M simMat i ii val :
  i < M -> ii < M -> i <> ii -> graph_inv M simMat ->
  graph_inv M (mset (mset simMat i ii val) ii i val).
Proof.
  intros Hi Hii Hne (Hsq & Hsym & Hdiag).
  assert (square M (mset simMat i ii val)) as Hsq1 by by apply square_mset.
  split; [by apply square_mset|]. split.
  - intros a b Ha Hb. rewrite !(mget_mset M) by done.
    repeat (destruct (decide _)); try done; try lia; try naive_solver.
  - intros a Ha. rewrite !(mget_mset M) by done.
    repeat (destruct (decide _)); try lia; auto.
Qed.

Lemma net_constraints_inv self labelSet simMat :
  net_constraints self labelSet = Ok simMat ->
  graph_inv (length (np_unique labelSet)) simMat.
Proof.
  unfold net_constraints. set (M := length (np_unique labelSet)).
  apply (for_each_invariant (graph_inv M)); [|apply graph_inv_zeros].
  intros sim i sim' Hi%elem_of_seq Hinv Hbody.
  apply rbind_Ok_inv in Hbody as (group1 & _ & Hbody).
  destruct (decide (i < M - 1)); [|by simplify_eq].
  revert Hbody. apply (for_each_invariant (graph_inv M)); [|done].
  clear sim sim' Hinv. intros sim ii sim' Hii%elem_of_seq Hinv Hbody.
  apply rbind_Ok_inv in Hbody as (group2 & _ & Hbody).
  apply rbind_Ok_inv in Hbody as (Ncl & _ & Hbody).
  apply rbind_Ok_inv in Hbody as (Nml & _ & Hbody).
  simplify_eq. apply graph_inv_set_pair; [lia..|done].
Qed.


(** ** Completing the node graph *)

Lemma for_each_seq_invariant {St} (P : nat -> St -> Prop)
    (body : St -> nat -> result St) : forall n s st st',
  (forall i st st', s <= i < s + n -> P i st -> body st i = Ok st' ->
     P (S i) st') ->
  P s st -> for_each (seq s n) body st = Ok st' -> P (s + n) st'.
Proof.
  induction n as [|n IH]; intros s st st' Hbody HP Hrun; simpl in Hrun.
  - simplify_eq. by rewrite Nat.add_0_r.
  - apply rbind_Ok_inv in Hrun as (st1 & Hs & Hrun).
    replace (s + S n) with (S s + n) by lia.
    apply (IH (S s) st1 st'); [|by apply (Hbody s st st1); [lia|..]|done].
    intros i st2 st3 Hi. apply Hbody. lia.
Qed.

Section complete_matrix_facts.
Local Open Scope Z_scope.
Context (M : nat) (indices : list (list nat)) (old : matrix) (k : nat).
Hypothesis Hold : square M old.
Hypothesis Hsym : symmetric M old.

Lemma np_put_Ok {A} (x : list A) idx v y :
  np_put x idx v = Ok y ->
  Forall (fun i => (i < length x)%nat) idx /\
  y = foldl (fun acc i => <[i := v]> acc) x idx.
Proof. unfold np_put. case_decide; [|done]. by intros [= <-]. Qed.

Lemma length_put_fold {A} (v : A) idx : forall x,
  length (foldl (fun acc i => <[i := v]> acc) x idx) = length x.
Proof.
  induction idx as [|i idx IH]; intros x; [done|].
  cbn [foldl]. by rewrite IH, length_insert.
Qed.

Lemma lookup_put_fold idx : forall (x : list bool) (j : nat),
  (j < length x)%nat ->
  foldl (fun acc i => <[i := true]> acc) x idx !!! j
  = if decide (j ∈ idx) then true else x !!! j.
Proof.
  induction idx as [|i idx IH]; intros x j Hj.
  - by rewrite decide_False by apply not_elem_of_nil.
  - cbn [foldl]. rewrite IH by by rewrite length_insert.
    destruct (decide (j ∈ idx)) as [Hin|Hnin].
    + by rewrite decide_True by by right.
    + rewrite list_lookup_total_insert.
      destruct (decide (i = j)) as [->|Hne].
      * rewrite decide_True by done. by rewrite decide_True by left.
      * rewrite decide_False by (intros [? _]; done).
        rewrite decide_False; [done|].
        rewrite elem_of_cons. intros [?|?]; congruence.
Qed.

Lemma complete_matrix_pass new i new' :
  square M new -> (i < M)%nat ->
  (indices_i <~ np_get indices i ;;
   neighInd <~ np_put (replicate M false) (take k (drop 1 indices_i)) true ;;
   simMat_i <~ np_get old i ;;
   let neighInd :=
     zip_with andb neighInd
              ((fun v => bool_decide (v = 0)) <$> simMat_i) in
   let newSimMat :=
     set_row new i (np_mask_put (new !!! i) neighInd 1) in
   let newSimMat :=
     zip_with (fun row (b : bool) => if b then <[i := 1]> row else row)
              newSimMat neighInd in
   Ok newSimMat) = Ok new' ->
  square M new' /\
  forall a b, (a < M)%nat -> (b < M)%nat ->
    mget new' a b
    = if decide ((b = i /\ fills indices old k i a) \/
                 (a = i /\ fills indices old k i b)) then 1
      else mget new a b.
Proof.
  intros Hnew Hi Hrun.
  apply rbind_Ok_inv in Hrun as (indices_i & Hrow%np_get_Ok & Hrun).
  apply rbind_Ok_inv in Hrun as (neigh0 & [Hin ->]%np_put_Ok & Hrun).
  apply rbind_Ok_inv in Hrun as (old_i & Hold_i%np_get_Ok & Hrun).
  cbv zeta in Hrun. injection Hrun as <-.
  apply list_lookup_total_correct in Hrow, Hold_i.
  set (nbrs := take k (drop 1 indices_i)) in *.
  set (neigh0 := foldl (fun acc i => <[i := true]> acc)
                       (replicate M false) nbrs).
  set (neighInd := zip_with andb neigh0
                     ((fun v => bool_decide (v = 0)) <$> old_i)).
  assert (length old_i = M) as Hlen_old_i.
  { rewrite <- Hold_i. by apply square_row. }
  assert (length neigh0 = M) as Hlen0.
  { unfold neigh0. by rewrite length_put_fold, length_replicate. }
  assert (length neighInd = M) as Hlen.
  { unfold neighInd. rewrite length_zip_with_l_eq; [done|].
    by rewrite length_fmap, Hlen0, Hlen_old_i. }
  assert (forall j, (j < M)%nat ->
            neighInd !!! j = bool_decide (fills indices old k i j)) as Hmask.
  { intros j Hj. unfold neighInd.
    pose proof (lookup_total_zip_with andb neigh0
                  ((fun v => bool_decide (v = 0)) <$> old_i) j) as Hz.
    rewrite Hz by (rewrite ?length_fmap; lia).
    unfold neigh0. rewrite lookup_put_fold by (rewrite length_replicate; lia).
    rewrite lookup_total_replicate_2 by done.
    pose proof (list_lookup_total_fmap (fun v => bool_decide (v = 0))
                  old_i j) as Hf.
    rewrite Hf by lia.
    rewrite (bool_decide_ext (fills indices old k i j)
               (j ∈ nbrs /\ old_i !!! j = 0)).
    2:{ unfold fills, neighbours, mget. rewrite Hrow, Hold_i. done. }
    destruct (decide (j ∈ nbrs)) as [Hj1|Hj1];
      destruct (decide (old_i !!! j = 0)) as [Hj2|Hj2].
    - rewrite (bool_decide_eq_true_2 (j ∈ nbrs /\ old_i !!! j = 0)) by done.
      by rewrite bool_decide_eq_true_2 by done.
    - rewrite (bool_decide_eq_false_2 (j ∈ nbrs /\ old_i !!! j = 0)) by tauto.
      by rewrite bool_decide_eq_false_2 by done.
    - by rewrite (bool_decide_eq_false_2 (j ∈ nbrs /\ old_i !!! j = 0))
        by tauto.
    - by rewrite (bool_decide_eq_false_2 (j ∈ nbrs /\ old_i !!! j = 0))
        by tauto. }
  set (row_i := np_mask_put (new !!! i) neighInd 1).
  assert (length row_i = M) as Hlen_row.
  { unfold row_i. rewrite length_np_mask_put; rewrite (square_row M); done. }
  assert (square M (set_row new i row_i)) as Hsq1
    by by apply square_set_row.
  assert (forall a, (a < M)%nat ->
            (zip_with (fun row (b : bool) => if b then <[i := 1]> row else row)
                      (set_row new i row_i) neighInd) !!! a
            = if (neighInd !!! a : bool)
              then <[i := 1]> (set_row new i row_i !!! a)
              else set_row new i row_i !!! a) as Hrows.
  { intros a Ha.
    pose proof (lookup_total_zip_with
                  (fun row (b : bool) => if b then <[i := 1]> row else row)
                  (set_row new i row_i) neighInd a) as Hz.
    rewrite Hz; [done| |lia]. rewrite (square_length M); done. }
  split.
  - apply square_intro.
    + rewrite length_zip_with_l_eq; rewrite (square_length M _ Hsq1); done.
    + intros a Ha. rewrite Hrows by done.
      destruct (neighInd !!! a); rewrite ?length_insert;
        by apply square_row.
  - intros a b Ha Hb. unfold mget at 1. rewrite Hrows by done.
    assert (mget (set_row new i row_i) a b
            = if decide (a = i /\ fills indices old k i b) then 1 else mget new a b)
      as Hrowval.
    { rewrite (mget_set_row M) by done.
      destruct (decide (a = i)) as [->|Hne].
      - unfold row_i, np_mask_put.
        pose proof (lookup_total_zip_with
                      (fun xi (b : bool) => if b then 1 else xi)
                      (new !!! i) neighInd b) as Hz.
        rewrite Hz by (rewrite ?(square_row M); done || lia).
        rewrite Hmask by done.
        destruct (decide (fills indices old k i b)) as [Hf|Hf].
        + rewrite bool_decide_eq_true_2 by done.
          by rewrite decide_True by done.
        + rewrite bool_decide_eq_false_2 by done.
          by rewrite decide_False by tauto.
      - by rewrite decide_False by tauto. }
    rewrite Hmask by done.
    destruct (decide (fills indices old k i a)) as [Hfa|Hfa].
    + rewrite bool_decide_eq_true_2 by done.
      rewrite list_lookup_total_insert, (square_row M) by done.
      destruct (decide (b = i)) as [->|Hne].
      * rewrite decide_True by (split; [done|lia]).
        by rewrite decide_True by (left; done).
      * rewrite decide_False by (intros [? _]; congruence).
        fold (mget (set_row new i row_i) a b). rewrite Hrowval.
        destruct (decide (a = i /\ fills indices old k i b)) as [H|H].
        -- by rewrite decide_True by (by right).
        -- rewrite decide_False; [done|]. tauto.
    + rewrite bool_decide_eq_false_2 by done.
      fold (mget (set_row new i row_i) a b). rewrite Hrowval.
      destruct (decide (a = i /\ fills indices old k i b)) as [H|H].
      * by rewrite decide_True by (by right).
      * rewrite decide_False; [done|]. tauto.
Qed.

Lemma completed_step a b i :
  (a < M)%nat -> (b < M)%nat -> (i < M)%nat ->
  ((b = i /\ fills indices old k i a) \/ (a = i /\ fills indices old k i b))
  \/ (mget old a b = 0 /\
      (((a < i)%nat /\ b ∈ neighbours indices k a) \/
       ((b < i)%nat /\ a ∈ neighbours indices k b)))
  <-> (mget old a b = 0 /\
       (((a < S i)%nat /\ b ∈ neighbours indices k a) \/
        ((b < S i)%nat /\ a ∈ neighbours indices k b))).
Proof.
  intros Ha Hb Hi. unfold fills. split.
  - intros [[[-> [Hn Hz]]|[-> [Hn Hz]]]|[Hz [[Hlt Hn]|[Hlt Hn]]]].
    + split; [by rewrite <- (Hsym i a)|]. right. split; [lia|done].
    + split; [done|]. left. split; [lia|done].
    + split; [done|]. left. split; [lia|done].
    + split; [done|]. right. split; [lia|done].
  - intros [Hz [[Hlt Hn]|[Hlt Hn]]].
    + destruct (decide (a = i)) as [->|Hne].
      * left. right. done.
      * right. split; [done|]. left. split; [lia|done].
    + destruct (decide (b = i)) as [->|Hne].
      * left. left. split; [done|]. split; [done|]. by rewrite (Hsym i a).
      * right. split; [done|]. right. split; [lia|done].
Qed.

Lemma complete_matrix_spec new :
  complete_matrix indices old k = Ok new ->
  square M new /\
  forall a b, (a < M)%nat -> (b < M)%nat ->
    mget new a b
    = if decide (mget old a b = 0 /\
                 (b ∈ neighbours indices k a \/ a ∈ neighbours indices k b))
      then 1 else mget old a b.
Proof.
  unfold complete_matrix. destruct (decide (1 <= k)%nat); [|done].
  rewrite (square_length M) by done. intros Hrun.
  assert (completed_upto M indices old k (0 + M) new) as [Hsq Hval].
  { revert Hrun. apply (for_each_seq_invariant (completed_upto M indices old k)).
    - intros i st st' Hi [Hst Hstval] Hbody.
      destruct (complete_matrix_pass st i st' Hst ltac:(lia) Hbody)
        as [Hst' Hval'].
      split; [done|]. intros a b Ha Hb. rewrite Hval', Hstval by done.
      pose proof (completed_step a b i Ha Hb ltac:(lia)) as Hiff.
      repeat (destruct (decide _)); try done; exfalso; tauto.
    - split; [done|]. intros a b Ha Hb.
      rewrite decide_False; [done|]. lia. }
  split; [done|]. intros a b Ha Hb. rewrite Hval by done.
  assert (forall c, (c < M)%nat -> (c < 0 + M)%nat) as Hlt by (intros; lia).
  repeat (destruct (decide _)); try done; exfalso;
    pose proof (Hlt a Ha); pose proof (Hlt b Hb); tauto.
Qed.
End complete_matrix_facts.

(** ** When the node graph is completed *)

Lemma node_graph_unfold self indices labelSet simMat :
  net_constraints self labelSet = Ok simMat ->
  node_graph self indices labelSet
  = if decide (4 < length (np_unique labelSet))
    then complete_matrix indices simMat 2 else Ok simMat.
Proof.
  intros Hnet. unfold node_graph. rewrite Hnet. cbn [rbind].
  destruct (net_constraints_inv _ _ _ Hnet) as ([-> _] & _).
  reflexivity.
Qed.

(** C5 (counterexample). Five nodes (5 <= 2k+2 = 6): the matrix handed to
    the cut is the completed one, with the zero entry (0, 2) set to 1. *)
Lemma completion_applies_to_five_nodes :
  exists self simMat completed,
    ConstrainedClustering_init [CRow 0 2 0; CRow 3 4 0; CRow 5 0 0] = Ok self /\
    agglomerate_constrained_samples self 6
      [(0, 2); (3, 4); (6, 7); (8, 5); (9, 1)] = Ok [0; 1; 2; 3; 4] /\
    net_constraints self [0; 1; 2; 3; 4] = Ok simMat /\
    length simMat = 5 /\ 5 <= 2 * 2 + 2 /\
    node_graph self five_node_indices [0; 1; 2; 3; 4] = Ok completed /\
    mget simMat 0 2 = 0%Z /\ mget completed 0 2 = 1%Z /\
    completed <> simMat.
Proof.
  exists five_node_store, five_node_graph,
    [[0; -1; 1; 0; -1]; [-1; 0; 1; 0; 0]; [1; 1; 0; -1; 1];
     [0; 0; -1; 0; 1]; [-1; 0; 1; 1; 0]]%Z.
  split; [vm_compute; reflexivity|]. split; [vm_compute; reflexivity|].
  split; [vm_compute; reflexivity|]. split; [reflexivity|]. split; [lia|].
  split; [vm_compute; reflexivity|]. split; [reflexivity|].
  split; [reflexivity|]. discriminate.
Qed.

(** C5 (as amended). Graph completion is applied to the node similarity
    matrix if and only if the number of nodes M exceeds 2k = 4; for M <= 4 the
    matrix reaches the cut unchanged. When applied to the (symmetric) matrix
    of net constraint values, an entry becomes 1 exactly where it was 0 and
    one of the two nodes is among the k neighbours of the other; nonzero
    entries are not overwritten. *)
Theorem completion_guard_and_fill self indices labelSet simMat :
  net_constraints self labelSet = Ok simMat ->
  (length (np_unique labelSet) <= 4 ->
     node_graph self indices labelSet = Ok simMat) /\
  (4 < length (np_unique labelSet) ->
     node_graph self indices labelSet = complete_matrix indices simMat 2 /\
     forall completed,
       complete_matrix indices simMat 2 = Ok completed ->
       forall a b,
         a < length (np_unique labelSet) -> b < length (np_unique labelSet) ->
         mget completed a b
         = (if decide (mget simMat a b = 0%Z /\
                       (b ∈ neighbours indices 2 a \/
                        a ∈ neighbours indices 2 b))
            then 1%Z else mget simMat a b) /\
         (mget simMat a b <> 0%Z -> mget completed a b = mget simMat a b)).
Proof.
  intros Hnet. pose proof (node_graph_unfold self indices _ _ Hnet) as Hng.
  destruct (net_constraints_inv _ _ _ Hnet) as (Hsq & Hsym & _).
  split.
  - intros HM. rewrite Hng. by rewrite decide_False by lia.
  - intros HM. split; [rewrite Hng; by rewrite decide_True by lia|].
    intros completed Hc a b Ha Hb.
    destruct (complete_matrix_spec _ indices simMat 2 Hsq Hsym completed Hc)
      as [_ Hval].
    rewrite Hval by done. split; [done|].
    intros Hnz. rewrite decide_False; [done|]. tauto.
Qed.


(** An instance: the five-node graph. *)
Lemma completion_guard_and_fill_witness :
  (length (np_unique [0; 1; 2; 3; 4]) <= 4 ->
     node_graph five_node_store five_node_indices [0; 1; 2; 3; 4]
     = Ok five_node_graph) /\
  (4 < length (np_unique [0; 1; 2; 3; 4]) ->
     node_graph five_node_store five_node_indices [0; 1; 2; 3; 4]
     = complete_matrix five_node_indices five_node_graph 2 /\
     forall completed,
       complete_matrix five_node_indices five_node_graph 2 = Ok completed ->
       forall a b,
         a < length (np_unique [0; 1; 2; 3; 4]) ->
         b < length (np_unique [0; 1; 2; 3; 4]) ->
         mget completed a b
         = (if decide (mget five_node_graph a b = 0%Z /\
                       (b ∈ neighbours five_node_indices 2 a \/
                        a ∈ neighbours five_node_indices 2 b))
            then 1%Z else mget five_node_graph a b) /\
         (mget five_node_graph a b <> 0%Z ->
          mget completed a b = mget five_node_graph a b)).
Proof.
  apply (completion_guard_and_fill five_node_store five_node_indices
           [0; 1; 2; 3; 4] five_node_graph).
  vm_compute. reflexivity.
Defined.

(** ** Symmetry and the diagonal *)

Local Open Scope Z_scope.

Lemma merge_update_symmetric M sim r c :
  square M sim -> (r < M)%nat -> (c < M)%nat ->
  symmetric M sim -> symmetric M (merge_update sim r c).
Proof.
  intros Hsq Hr Hc Hsym a b Ha Hb.
  rewrite !(mget_merge_update M) by done.
  pose proof (Hsym a b Ha Hb).
  repeat (destruct (decide _)); try done; try lia; exfalso; tauto.
Qed.

Lemma merge_update_diagonal M sim r c :
  square M sim -> (r < M)%nat -> (c < M)%nat -> r <> c ->
  forall a, (a < M)%nat ->
    mget (merge_update sim r c) a a
    = if decide (a = r) then -1 else if decide (a = c) then 0
      else mget sim a a.
Proof.
  intros Hsq Hr Hc Hne a Ha. rewrite (mget_merge_update M) by done.
  repeat (destruct (decide _)); try done; try lia; exfalso; tauto.
Qed.

Lemma graph_inv_cut_graph_inv M sim : graph_inv M sim -> cut_graph_inv M sim.
Proof.
  intros (Hsq & Hsym & Hdiag). split; [done|]. split; [done|].
  intros a Ha. left. by apply Hdiag.
Qed.

Lemma graph_cut_merge_symmetric M st st' :
  square M st.1 /\ symmetric M st.1 ->
  graph_cut_merge st = Ok (Some st') ->
  square M st'.1 /\ symmetric M st'.1.
Proof.
  destruct st as [sim newLabels]. cbn [fst]. intros [Hsq Hsym] Hm.
  destruct (decide (0 < M)%nat) as [HM|HM].
  - destruct (graph_cut_merge_cases M sim newLabels Hsq HM)
      as (maxInd & r & c & _ & _ & Hr & Hc & _ & Heq).
    rewrite Heq in Hm. destruct (decide _); [|done]. simplify_eq. cbn [fst].
    split; [by apply square_merge_update|by apply merge_update_symmetric].
  - assert (M = 0%nat) as -> by lia. apply square_0 in Hsq as ->. done.
Qed.

Lemma graph_cut_merge_cut_graph_inv M st st' :
  cut_graph_inv M st.1 ->
  graph_cut_merge st = Ok (Some st') ->
  cut_graph_inv M st'.1 /\ exists r, (r < M)%nat /\ mget st'.1 r r = -1.
Proof.
  destruct st as [sim newLabels]. cbn [fst]. intros (Hsq & Hsym & Hdiag) Hm.
  destruct (decide (0 < M)%nat) as [HM|HM].
  - destruct (graph_cut_merge_cases M sim newLabels Hsq HM)
      as (maxInd & r & c & _ & _ & Hr & Hc & _ & Heq).
    rewrite Heq in Hm. destruct (decide _) as [Hpos|]; [|done].
    simplify_eq. cbn [fst].
    assert (r <> c) as Hne.
    { intros ->. destruct (Hdiag c Hc); lia. }
    split.
    + split; [by apply square_merge_update|].
      split; [by apply merge_update_symmetric|].
      intros a Ha. rewrite (merge_update_diagonal M) by done.
      repeat (destruct (decide _)); auto.
    + exists r. split; [done|]. rewrite (merge_update_diagonal M) by done.
      by rewrite decide_True.
  - assert (M = 0%nat) as -> by lia. apply square_0 in Hsq as ->. done.
Qed.

Lemma complete_matrix_symmetric M indices old k new :
  square M old -> symmetric M old ->
  complete_matrix indices old k = Ok new ->
  square M new /\ symmetric M new /\
  (zero_diagonal M old ->
   (forall a, (a < M)%nat -> a ∉ neighbours indices k a) ->
   zero_diagonal M new).
Proof.
  intros Hsq Hsym Hrun.
  destruct (complete_matrix_spec M indices old k Hsq Hsym new Hrun)
    as [Hsq' Hval].
  split; [done|]. split.
  - intros a b Ha Hb. rewrite !Hval by done. rewrite (Hsym a b) by done.
    repeat (destruct (decide _)); try done; exfalso; tauto.
  - intros Hdiag Hself a Ha. rewrite Hval by done.
    rewrite decide_False; [by apply Hdiag|].
    intros [_ [Hin|Hin]]; by apply (Hself a Ha).
Qed.

Local Close Scope Z_scope.

(** C8 (counterexample). The two-node graph of the four-sample run: after
    the merge the invalidated node 0 has diagonal entry -1. *)
Lemma merged_node_gets_diagonal_minus_one :
  net_constraints (Store [(0, 3); (1, 2); (3, 0); (2, 1)] [(0, 2); (2, 0)]
                         [0; 1; 2; 3]) [0; 0; 1; 1]
  = Ok [[0; 1]; [1; 0]]%Z /\
  graph_cut_merge ([[0; 1]; [1; 0]]%Z, [0; 1])
  = Ok (Some ([[-1; -1]; [-1; 0]]%Z, [0; 0])) /\
  mget [[-1; -1]; [-1; 0]]%Z 0 0 = (-1)%Z /\
  ~ zero_diagonal 2 [[-1; -1]; [-1; 0]]%Z.
Proof.
  split; [vm_compute; reflexivity|]. split; [vm_compute; reflexivity|].
  split; [reflexivity|]. intros H. specialize (H 0 ltac:(lia)). done.
Qed.

(** C8 (as amended). The similarity matrix is symmetric at every point of a
    run: after the node graph is built, after graph completion and after
    every merge of the greedy cut. Its diagonal is 0 after the graph is built
    and, when no node is listed among its own neighbours, after completion;
    after a merge the diagonal entry of the invalidated node is -1, so during
    the cut every diagonal entry is 0 or -1. *)
Theorem similarity_symmetric_throughout self n_clusters indices labelSet
    simMat :
  net_constraints self labelSet = Ok simMat ->
  graph_inv (length (np_unique labelSet)) simMat /\
  (forall completed,
     node_graph self indices labelSet = Ok completed ->
     square (length (np_unique labelSet)) completed /\
     symmetric (length (np_unique labelSet)) completed /\
     (forall fuel,
        Forall (fun st => square (length (np_unique labelSet)) st.1 /\
                          symmetric (length (np_unique labelSet)) st.1)
               (graph_cut_history fuel n_clusters
                  (completed, seq 0 (length (np_unique labelSet))))) /\
     ((4 < length (np_unique labelSet) ->
       forall a, a < length (np_unique labelSet) ->
                 a ∉ neighbours indices 2 a) ->
      zero_diagonal (length (np_unique labelSet)) completed /\
      forall fuel,
        Forall (fun st => cut_graph_inv (length (np_unique labelSet)) st.1)
               (graph_cut_history fuel n_clusters
                  (completed, seq 0 (length (np_unique labelSet)))))) /\
  (forall st st',
     cut_graph_inv (length (np_unique labelSet)) st.1 ->
     graph_cut_merge st = Ok (Some st') ->
     cut_graph_inv (length (np_unique labelSet)) st'.1 /\
     exists r, r < length (np_unique labelSet) /\ mget st'.1 r r = (-1)%Z).
Proof.
  intros Hnet. set (M := length (np_unique labelSet)).
  pose proof (net_constraints_inv _ _ _ Hnet) as Hinv. fold M in Hinv.
  split; [done|]. split; [|apply graph_cut_merge_cut_graph_inv].
  intros completed Hng.
  rewrite (node_graph_unfold self indices labelSet simMat Hnet) in Hng.
  fold M in Hng. destruct Hinv as (Hsq & Hsym & Hdiag).
  assert (square M completed /\ symmetric M completed /\
          ((4 < M -> forall a, a < M -> a ∉ neighbours indices 2 a) ->
           zero_diagonal M completed)) as (Hsq' & Hsym' & Hdiag').
  { destruct (decide (4 < M)) as [HM|HM].
    - destruct (complete_matrix_symmetric M indices simMat 2 completed
                  Hsq Hsym Hng) as (? & ? & Hd).
      split; [done|]. split; [done|]. intros Hself. apply Hd; auto.
    - simplify_eq. done. }
  split; [done|]. split; [done|]. split.
  - intros fuel.
    apply (graph_cut_history_invariant
             (fun st => square M st.1 /\ symmetric M st.1)); [|done].
    intros st st'. apply graph_cut_merge_symmetric.
  - intros Hself. split; [by apply Hdiag'|]. intros fuel.
    apply (graph_cut_history_invariant (fun st => cut_graph_inv M st.1)).
    + intros st st' Hst Hm.
      by destruct (graph_cut_merge_cut_graph_inv M st st' Hst Hm).
    + apply graph_inv_cut_graph_inv. split; [done|]. split; [done|].
      by apply Hdiag'.
Qed.

(** An instance: the five-node graph. *)
Lemma similarity_symmetric_throughout_witness :
  graph_inv (length (np_unique [0; 1; 2; 3; 4])) five_node_graph /\
  (forall completed,
     node_graph five_node_store five_node_indices [0; 1; 2; 3; 4]
     = Ok completed ->
     square (length (np_unique [0; 1; 2; 3; 4])) completed /\
     symmetric (length (np_unique [0; 1; 2; 3; 4])) completed /\
     (forall fuel,
        Forall (fun st => square (length (np_unique [0; 1; 2; 3; 4])) st.1 /\
                          symmetric (length (np_unique [0; 1; 2; 3; 4])) st.1)
               (graph_cut_history fuel (Some 2)
                  (completed, seq 0 (length (np_unique [0; 1; 2; 3; 4]))))) /\
     ((4 < length (np_unique [0; 1; 2; 3; 4]) ->
       forall a, a < length (np_unique [0; 1; 2; 3; 4]) ->
                 a ∉ neighbours five_node_indices 2 a) ->
      zero_diagonal (length (np_unique [0; 1; 2; 3; 4])) completed /\
      forall fuel,
        Forall (fun st =>
                  cut_graph_inv (length (np_unique [0; 1; 2; 3; 4])) st.1)
               (graph_cut_history fuel (Some 2)
                  (completed, seq 0 (length (np_unique [0; 1; 2; 3; 4])))))) /\
  (forall st st',
     cut_graph_inv (length (np_unique [0; 1; 2; 3; 4])) st.1 ->
     graph_cut_merge st = Ok (Some st') ->
     cut_graph_inv (length (np_unique [0; 1; 2; 3; 4])) st'.1 /\
     exists r, r < length (np_unique [0; 1; 2; 3; 4]) /\
               mget st'.1 r r = (-1)%Z).
Proof.
  apply (similarity_symmetric_throughout five_node_store (Some 2)
           five_node_indices [0; 1; 2; 3; 4] five_node_graph).
  vm_compute. reflexivity.
Defined.

(** ** Constraints inside a group *)

Lemma np_any_true (b : list bool) : np_any b = true <-> true ∈ b.
Proof.
  unfold np_any. induction b as [|x b IH]; simpl.
  - split; [done|]. by intros ?%elem_of_nil.
  - rewrite elem_of_cons, orb_true_iff, IH. unfold id.
    split; intros [?|?]; auto.
Qed.

Lemma elem_of_ismember_true a b :
  true ∈ ismember a b <-> exists x, x ∈ a /\ x ∈ b.
Proof.
  split.
  - intros [i Hi]%list_elem_of_lookup_1.
    assert (i < length a) as Hlt.
    { rewrite <- (length_ismember a b). by eapply lookup_lt_Some. }
    destruct (lookup_lt_is_Some_2 _ _ Hlt) as [x Hx].
    rewrite (lookup_ismember a b i x Hx) in Hi. injection Hi as Hi.
    apply bool_decide_eq_true_1 in Hi.
    exists x. split; [by eapply list_elem_of_lookup_2|done].
  - intros (x & [i Hi]%list_elem_of_lookup_1 & Hb).
    apply (list_elem_of_lookup_2 _ i).
    rewrite (lookup_ismember a b i x Hi). by rewrite bool_decide_eq_true_2.
Qed.

Lemma elem_of_other_samples (block : list (nat * nat)) group y :
  y ∈ np_mask (block.*2) (ismember (block.*1) group)
  <-> exists x, x ∈ group /\ (x, y) ∈ block.
Proof.
  rewrite elem_of_np_mask. split.
  - intros (i & Hy & Hm).
    rewrite list_lookup_fmap in Hy.
    destruct (block !! i) as [[x y']|] eqn:Hb; [|done].
    simpl in Hy. injection Hy as ->.
    rewrite (lookup_ismember (block.*1) group i x) in Hm
      by (by rewrite list_lookup_fmap, Hb).
    injection Hm as Hm. apply bool_decide_eq_true_1 in Hm.
    exists x. split; [done|]. by eapply list_elem_of_lookup_2.
  - intros (x & Hx & [i Hi]%list_elem_of_lookup_1).
    exists i. split; [by rewrite list_lookup_fmap, Hi|].
    rewrite (lookup_ismember (block.*1) group i x)
      by (by rewrite list_lookup_fmap, Hi).
    by rewrite bool_decide_eq_true_2.
Qed.

Lemma is_CL_violated_spec self group :
  exists v, is_CL_violated self group = Ok v /\
            (v = true <-> CL_within self group).
Proof.
  unfold is_CL_violated, other_sample_in_pair.
  rewrite decide_True by (by left). rewrite decide_True by done.
  cbn [rbind]. eexists. split; [reflexivity|].
  rewrite np_any_true, elem_of_ismember_true. unfold CL_within. split.
  - intros (b & Hb & (a & Ha & Hab)%elem_of_other_samples). eauto.
  - intros (a & b & Ha & Hb & Hab). exists b. split; [done|].
    apply elem_of_other_samples. eauto.
Qed.

(** [x[idx] = v] *)
Lemma np_put_lookup {A} `{!Inhabited A} (x : list A) idx v y :
  np_put x idx v = Ok y ->
  length y = length x /\
  forall j, j < length x ->
    y !!! j = if decide (j ∈ idx) then v else x !!! j.
Proof.
  intros [_ ->]%np_put_Ok. split; [apply length_put_fold|].
  clear. revert x. induction idx as [|i idx IH]; intros x j Hj.
  - by rewrite decide_False by apply not_elem_of_nil.
  - cbn [foldl]. rewrite IH by by rewrite length_insert.
    destruct (decide (j ∈ idx)) as [Hin|Hnin].
    + by rewrite decide_True by by right.
    + rewrite list_lookup_total_insert.
      destruct (decide (i = j)) as [->|Hne].
      * rewrite decide_True by done. by rewrite decide_True by left.
      * rewrite decide_False by (intros [? _]; done).
        rewrite decide_False; [done|].
        rewrite elem_of_cons. intros [?|?]; congruence.
Qed.

(** [x[idx]] *)
Lemma np_take_lookup {A} `{!Inhabited A} (x : list A) idx : forall vs,
  np_take x idx = Ok vs ->
  length vs = length idx /\
  forall p i, idx !! p = Some i ->
    i < length x /\ vs !! p = Some (x !!! i).
Proof.
  induction idx as [|i idx IH]; intros vs Hrun; simpl in Hrun.
  - simplify_eq. split; [done|]. intros p i Hp. by rewrite lookup_nil in Hp.
  - apply rbind_Ok_inv in Hrun as (v & Hv%np_get_Ok & Hrun).
    apply rbind_Ok_inv in Hrun as (vs' & Hvs & [= <-]).
    destruct (IH vs' Hvs) as [Hlen Hlook].
    split; [simpl; by rewrite Hlen|].
    intros [|p] j Hp; simpl in Hp.
    + simplify_eq. split; [by eapply lookup_lt_Some|].
      simpl. by rewrite (list_lookup_total_correct _ _ _ Hv).
    + by apply Hlook.
Qed.

(** The store built from a constraint table. *)
Lemma constraints_by_value_elem constraintMat consVal (a b : nat) :
  (a, b) ∈ constraints_by_value constraintMat consVal
  <-> CRow a b consVal ∈ constraintMat.
Proof.
  unfold constraints_by_value. cbv zeta. rewrite elem_of_np_mask. split.
  - intros (i & Hi & Hk).
    rewrite list_lookup_fmap in Hi. rewrite list_lookup_fmap in Hk.
    destruct (constraintMat !! i) as [[x y kind]|] eqn:Hrow; [|done].
    cbn in Hi, Hk. injection Hi as -> ->. injection Hk as Hk.
    apply bool_decide_eq_true_1 in Hk. subst.
    by eapply list_elem_of_lookup_2.
  - intros [i Hi]%list_elem_of_lookup_1. exists i.
    rewrite !list_lookup_fmap, Hi. simpl.
    by rewrite bool_decide_eq_true_2.
Qed.

Lemma init_CL_pair constraintMat self a b :
  ConstrainedClustering_init constraintMat = Ok self ->
  CRow a b 0 ∈ constraintMat ->
  (a, b) ∈ CL self /\ a ∈ constrainedSamps self /\ b ∈ constrainedSamps self.
Proof.
  unfold ConstrainedClustering_init. intros [= <-] Hrow. cbn [CL constrainedSamps].
  split.
  { apply elem_of_app. left. by apply constraints_by_value_elem. }
  assert (forall x, x = a \/ x = b ->
            x ∈ np_unique (flatten_table constraintMat)) as Hin.
  { intros x Hx. apply elem_of_np_unique. unfold flatten_table.
    apply list_elem_of_join. exists [a; b; 0]. split.
    - destruct Hx as [->| ->]; [left|right; left].
    - apply (list_elem_of_fmap_2' _ _ (CRow a b 0)); [done|reflexivity]. }
  split; apply Hin; auto.
Qed.

(** ** Agglomeration: one merge of the dendrogram *)

Section agglomeration.
Context (self : ConstrainedClustering) (N : nat).
Context (used : list nat) (clusMem : list (list nat)).
Context (x y : nat) (g1 g2 : list nat).
Hypothesis Hforest : forest N used clusMem.
Hypothesis Hx : x ∉ used.
Hypothesis Hy : y ∉ used.
Hypothesis Hxy : x <> y.
Hypothesis Hg1 : clusMem !! x = Some g1.
Hypothesis Hg2 : clusMem !! y = Some g2.

Lemma not_used_after v :
  v ∉ (used ++ [x; y]) <-> (v ∉ used) /\ v <> x /\ v <> y.
Proof.
  rewrite not_elem_of_app, !not_elem_of_cons. split; [tauto|].
  intros (? & ? & ?). repeat split; try done. apply not_elem_of_nil.
Qed.

Lemma new_root_unused : length clusMem ∉ used.
Proof.
  destruct Hforest as (Hused & _). intros Hin. apply Hused in Hin. lia.
Qed.

Lemma children_in_range : x < length clusMem /\ y < length clusMem.
Proof. split; by eapply lookup_lt_Some. Qed.

Lemma forest_step : forest N (used ++ [x; y]) (clusMem ++ [g1 ++ g2]).
Proof.
  pose proof Hforest as (Hused & Hrange & Hdisj & Hcover).
  pose proof children_in_range as [Hxlt Hylt].
  split; [|split; [|split]].
  - intros v. rewrite length_app. simpl.
    rewrite elem_of_app, !elem_of_cons, elem_of_nil.
    intros [Hv|[->|[->|[]]]]; [pose proof (Hused v Hv)|..]; lia.
  - intros v g a [[_ Hv]|[-> <-]]%lookup_snoc_Some Ha; [by eapply Hrange|].
    apply elem_of_app in Ha as [Ha|Ha];
      [by eapply (Hrange x)|by eapply (Hrange y)].
  - intros v w g h a (Hv & Hvx & Hvy)%not_used_after
      (Hw & Hwx & Hwy)%not_used_after
      [[_ Hlv]|[-> <-]]%lookup_snoc_Some [[_ Hlw]|[-> <-]]%lookup_snoc_Some
      Hag Hah.
    + by eapply Hdisj.
    + exfalso. apply elem_of_app in Hah as [Hah|Hah].
      * apply Hvx. by eapply (Hdisj v x g g1 a).
      * apply Hvy. by eapply (Hdisj v y g g2 a).
    + exfalso. apply elem_of_app in Hag as [Hag|Hag].
      * apply Hwx. by eapply (Hdisj w x h g1 a).
      * apply Hwy. by eapply (Hdisj w y h g2 a).
    + done.
  - intros a Ha. destruct (Hcover a Ha) as (v & g & Hv & Hlv & Hag).
    destruct (decide (v = x)) as [->|Hvx];
      [|destruct (decide (v = y)) as [->|Hvy]].
    + exists (length clusMem), (g1 ++ g2). simplify_eq. split.
      { apply not_used_after. split; [apply new_root_unused|lia]. }
      split; [apply lookup_snoc_Some; by right|].
      apply elem_of_app. by left.
    + exists (length clusMem), (g1 ++ g2). simplify_eq. split.
      { apply not_used_after. split; [apply new_root_unused|lia]. }
      split; [apply lookup_snoc_Some; by right|].
      apply elem_of_app. by right.
    + exists v, g. split; [by apply not_used_after|].
      split; [apply lookup_snoc_Some; left; split; [by eapply lookup_lt_Some|done]|done].
Qed.

(** The merge is refused: the labels stay as they are. *)
Lemma labelled_keep bigLabelSet :
  labelled self N used clusMem bigLabelSet ->
  labelled self N (used ++ [x; y]) (clusMem ++ [g1 ++ g2]) bigLabelSet.
Proof.
  intros (Hlen & Hin & Hcl). split; [done|]. split; [|done].
  intros v g a (Hv & Hvx & Hvy)%not_used_after
    [[_ Hlv]|[-> <-]]%lookup_snoc_Some Ha.
  - by eapply Hin.
  - apply elem_of_app. apply elem_of_app in Ha as [Ha|Ha].
    + left. by eapply (Hin x).
    + right. by eapply (Hin y).
Qed.

(** The merge is accepted: [bigLabelSet[group1] = bigLabelSet[group2[0]]]. *)
Lemma labelled_merge bigLabelSet bigLabelSet' first2 :
  labelled self N used clusMem bigLabelSet ->
  ~ CL_within self (g1 ++ g2) ->
  g2 !! 0 = Some first2 ->
  np_put bigLabelSet g1 (bigLabelSet !!! first2) = Ok bigLabelSet' ->
  labelled self N (used ++ [x; y]) (clusMem ++ [g1 ++ g2]) bigLabelSet'.
Proof.
  intros (Hlen & Hin & Hcl) Hfree Hfirst Hput.
  pose proof Hforest as (Hused & Hrange & Hdisj & Hcover).
  destruct (np_put_lookup _ _ _ _ Hput) as [Hlen' Hnew].
  rewrite Hlen in Hnew.
  assert (first2 ∈ g2) as Hf2 by by eapply list_elem_of_lookup_2.
  assert (bigLabelSet !!! first2 ∈ g2) as HL by by eapply (Hin y).
  assert (forall a, a < N -> a ∉ g1 ->
            bigLabelSet !!! a = bigLabelSet !!! first2 -> a ∈ g2) as Hback.
  { intros a Ha Hna Heq.
    destruct (Hcover a Ha) as (w & h & Hw & Hlw & Hah).
    assert (bigLabelSet !!! a ∈ h) as Hlab by by eapply (Hin w).
    rewrite Heq in Hlab.
    assert (w = y) as -> by by eapply (Hdisj w y h g2).
    by simplify_eq. }
  split; [lia|]. split.
  - intros v g a (Hv & Hvx & Hvy)%not_used_after
      [[_ Hlv]|[-> <-]]%lookup_snoc_Some Ha.
    + assert (a < N) as HaN by by eapply Hrange.
      rewrite Hnew by done. rewrite decide_False; [by eapply Hin|].
      intros Ha1. apply Hvx. by eapply (Hdisj v x g g1 a).
    + assert (a < N) as HaN.
      { apply elem_of_app in Ha as [Ha|Ha];
          [by eapply (Hrange x)|by eapply (Hrange y)]. }
      rewrite Hnew by done. apply elem_of_app.
      destruct (decide (a ∈ g1)) as [Ha1|Ha1]; [by right|].
      apply elem_of_app in Ha as [Ha|Ha]; [done|].
      right. by eapply (Hin y).
  - intros a b Ha Hb Hab. rewrite !Hnew by done.
    destruct (decide (a ∈ g1)) as [Ha1|Ha1];
      destruct (decide (b ∈ g1)) as [Hb1|Hb1]; intros Heq Hpair.
    + apply Hfree. exists a, b. rewrite !elem_of_app. auto.
    + apply Hfree. exists a, b. rewrite !elem_of_app.
      split; [by left|]. split; [|done]. right. by apply Hback.
    + apply Hfree. exists a, b. rewrite !elem_of_app.
      split; [|split; [by left|done]]. right. by apply Hback.
    + by apply (Hcl a b).
Qed.
End agglomeration.

(** ** Agglomeration: the whole dendrogram *)

Lemma children_flat_snoc children_ ch :
  children_flat (children_ ++ [ch]) = children_flat children_ ++ [ch.1; ch.2].
Proof.
  unfold children_flat. rewrite fmap_app, join_app. reflexivity.
Qed.

Lemma children_flat_take_S children_ i ch :
  children_ !! i = Some ch ->
  children_flat (take (S i) children_)
  = children_flat (take i children_) ++ [ch.1; ch.2].
Proof.
  intros Hi. rewrite (take_S_r _ _ _ Hi). apply children_flat_snoc.
Qed.

Lemma tree_like_take children_ i :
  tree_like children_ -> NoDup (children_flat (take i children_)).
Proof.
  unfold tree_like. rewrite <- (take_drop i children_) at 1.
  unfold children_flat. rewrite fmap_app, join_app.
  by intros (? & _)%NoDup_app.
Qed.

Lemma tree_like_children children_ i ch :
  tree_like children_ -> children_ !! i = Some ch ->
  (ch.1 ∉ children_flat (take i children_)) /\
  (ch.2 ∉ children_flat (take i children_)) /\ ch.1 <> ch.2.
Proof.
  intros Htree Hi. pose proof (tree_like_take children_ (S i) Htree) as Hnd.
  rewrite (children_flat_take_S _ _ _ Hi) in Hnd.
  apply NoDup_app in Hnd as (_ & Hdisj & Hpair).
  apply NoDup_cons in Hpair as [Hne _].
  split; [|split].
  - intros Hin. apply (Hdisj _ Hin). left.
  - intros Hin. apply (Hdisj _ Hin). right. left.
  - intros Heq. apply Hne. rewrite Heq. left.
Qed.

Lemma forest_initial N : forest N [] ((fun x => [x]) <$> seq 0 N).
Proof.
  assert (forall v g, ((fun x => [x]) <$> seq 0 N) !! v = Some g ->
            g = [v] /\ v < N) as Hlook.
  { intros v g Hv. rewrite list_lookup_fmap in Hv.
    destruct (seq 0 N !! v) as [w|] eqn:Hw; [|done].
    apply lookup_seq in Hw as [-> ?]. simpl in Hv. by simplify_eq. }
  split; [|split; [|split]].
  - by intros v ?%elem_of_nil.
  - intros v g a [-> ?]%Hlook ->%list_elem_of_singleton. done.
  - intros v w g h a _ _ [-> ?]%Hlook [-> ?]%Hlook
      ->%list_elem_of_singleton ->%list_elem_of_singleton. done.
  - intros a Ha. exists a, [a]. split; [apply not_elem_of_nil|].
    split; [|by apply list_elem_of_singleton].
    rewrite list_lookup_fmap, lookup_seq_lt by done. done.
Qed.

Lemma labelled_initial self N :
  labelled self N [] ((fun x => [x]) <$> seq 0 N) (seq 0 N).
Proof.
  split; [apply length_seq|]. split.
  - intros v g a _ Hv Ha. rewrite list_lookup_fmap in Hv.
    destruct (seq 0 N !! v) as [w|] eqn:Hw; [|done].
    apply lookup_seq in Hw as [-> ?]. simpl in Hv. simplify_eq.
    apply list_elem_of_singleton in Ha as ->.
    rewrite lookup_total_seq_lt by done. by apply list_elem_of_singleton.
  - intros a b Ha Hb Hne. rewrite !lookup_total_seq_lt by done. simpl. done.
Qed.

(** The state of the loop of [agglomerate_constrained_samples] after [i]
    merges. *)
Lemma agglomerate_pass self N children_ i st st' :
  tree_like children_ ->
  forest N (children_flat (take i children_)) st.1 /\
  labelled self N (children_flat (take i children_)) st.1 st.2 ->
  (nx <~ linkage_to_merges_next children_ st.1 i ;;
   bigLabelSet <~ agglomerate_merge self st.2 nx.2 ;;
   Ok (nx.1, bigLabelSet)) = Ok st' ->
  forest N (children_flat (take (S i) children_)) st'.1 /\
  labelled self N (children_flat (take (S i) children_)) st'.1 st'.2.
Proof.
  destruct st as [clusMem bigLabelSet]. cbn [fst snd].
  intros Htree [Hforest Hlab] Hrun.
  apply rbind_Ok_inv in Hrun as (nx & Hnext & Hrun).
  apply rbind_Ok_inv in Hrun as (bigLabelSet' & Hmerge & [= <-]).
  unfold linkage_to_merges_next in Hnext.
  apply rbind_Ok_inv in Hnext as (ch & Hch%np_get_Ok & Hnext).
  apply rbind_Ok_inv in Hnext as (m1 & Hm1%np_get_Ok & Hnext).
  apply rbind_Ok_inv in Hnext as (m2 & Hm2%np_get_Ok & [= <-]).
  cbn [fst snd] in *.
  destruct (tree_like_children _ _ _ Htree Hch) as (Hx & Hy & Hxy).
  rewrite (children_flat_take_S _ _ _ Hch).
  split; [by apply forest_step|].
  unfold agglomerate_merge in Hmerge. cbn [fst snd] in Hmerge.
  destruct (is_CL_violated_spec self (m1 ++ m2)) as (v & Hv & Hiff).
  rewrite Hv in Hmerge. cbn [rbind] in Hmerge. destruct v.
  - injection Hmerge as <-. by apply labelled_keep.
  - apply rbind_Ok_inv in Hmerge as (first2 & Hfirst%np_get_Ok & Hmerge).
    apply rbind_Ok_inv in Hmerge as (lab & Hlabel%np_get_Ok & Hput).
    apply list_lookup_total_correct in Hlabel as <-.
    eapply (labelled_merge self N _ clusMem (ch.1) (ch.2) m1 m2); eauto.
    intros Hw. apply Hiff in Hw. done.
Qed.

Lemma agglomerate_loop_inv self N children_ st :
  tree_like children_ ->
  agglomerate_loop self N children_ = Ok st ->
  length st.2 = N /\
  forall a b, a < N -> b < N -> a <> b ->
    st.2 !!! a = st.2 !!! b -> (a, b) ∉ CL self.
Proof.
  intros Htree Hrun. unfold agglomerate_loop in Hrun.
  assert (forest N (children_flat (take (0 + (N - 1)) children_)) st.1 /\
          labelled self N (children_flat (take (0 + (N - 1)) children_))
                   st.1 st.2) as [_ (Hlen & _ & Hcl)].
  { revert Hrun.
    apply (for_each_seq_invariant
             (fun i st =>
                forest N (children_flat (take i children_)) st.1 /\
                labelled self N (children_flat (take i children_)) st.1 st.2)).
    - intros i s s' _ Hinv Hbody. by eapply agglomerate_pass.
    - split; [apply forest_initial|apply labelled_initial]. }
  done.
Qed.

(** ** The final labels and the cannot-link constraints *)

Lemma translate_range a x :
  x ∈ translate_to_counting_numbers a <-> x < length (np_unique a).
Proof.
  split.
  - intros [i Hi]%list_elem_of_lookup_1.
    assert (i < length a) as Hlt.
    { rewrite <- (length_translate a). by eapply lookup_lt_Some. }
    destruct (lookup_lt_is_Some_2 _ _ Hlt) as [old Hold].
    destruct (lookup_translate_ex _ _ _ Hold) as (k & Hk & Hu).
    simplify_eq. by eapply lookup_lt_Some.
  - intros Hx. destruct (lookup_lt_is_Some_2 _ _ Hx) as [old Hold].
    assert (old ∈ a) as Hin.
    { apply elem_of_np_unique. by eapply list_elem_of_lookup_2. }
    apply list_elem_of_lookup_1 in Hin as [i Hi].
    apply (list_elem_of_lookup_2 _ i). by eapply lookup_translate.
Qed.

Lemma length_unique_translate a :
  length (np_unique (translate_to_counting_numbers a)) = length (np_unique a).
Proof.
  transitivity (length (seq 0 (length (np_unique a)))); [|apply length_seq].
  apply Permutation_length, NoDup_Permutation.
  - apply NoDup_np_unique.
  - apply NoDup_seq.
  - intros x. rewrite elem_of_np_unique, translate_range, elem_of_seq. lia.
Qed.

Lemma translate_injective a (p q : nat) x y k :
  a !! p = Some x -> a !! q = Some y ->
  translate_to_counting_numbers a !! p = Some k ->
  translate_to_counting_numbers a !! q = Some k -> x = y.
Proof.
  intros Hp Hq Hkp Hkq.
  destruct (lookup_translate_ex _ _ _ Hp) as (k1 & Hk1 & Hu1).
  destruct (lookup_translate_ex _ _ _ Hq) as (k2 & Hk2 & Hu2).
  by simplify_eq.
Qed.

(** The matrix handed to the cut is square. *)
Lemma node_graph_square self indices labelSet simMat :
  node_graph self indices labelSet = Ok simMat ->
  square (length (np_unique labelSet)) simMat.
Proof.
  intros Hng. pose proof Hng as Hng'. unfold node_graph in Hng'.
  apply rbind_Ok_inv in Hng' as (sim0 & Hnet & _).
  rewrite (node_graph_unfold _ _ _ _ Hnet) in Hng.
  destruct (net_constraints_inv _ _ _ Hnet) as (Hsq & Hsym & _).
  destruct (decide _); [|by simplify_eq].
  by destruct (complete_matrix_symmetric _ _ _ _ _ Hsq Hsym Hng).
Qed.

Lemma graph_cut_approx_idempotent M n_clusters sim newLabels :
  square M sim -> graph_cut_approx n_clusters sim = Ok newLabels ->
  length newLabels = M /\ idempotent M newLabels.
Proof.
  intros Hsq Hcut. unfold graph_cut_approx in Hcut.
  rewrite (square_length M) in Hcut by done.
  apply rbind_Ok_inv in Hcut as (st & Hrun & [= <-]).
  destruct (graph_cut_loop_idempotent M n_clusters _ _ st
              (well_shaped_initial M sim Hsq) (idempotent_seq M) Hrun)
    as [(_ & Hl & _) Hid].
  done.
Qed.

Lemma four_sample_tree_like : tree_like four_sample_children.
Proof.
  unfold tree_like. vm_compute.
  repeat constructor; rewrite ?elem_of_cons;
    intros H; repeat (destruct H as [H|H]; [discriminate|]);
    by apply elem_of_nil in H.
Qed.

(** C1 (counterexample). Four samples with the CL constraint (0, 2) and the
    ML constraints (0, 3) and (1, 2): agglomeration keeps {0, 1} and {2, 3}
    apart, their net value is 2 - 1 = 1 > 0, the cut merges the two nodes,
    and samples 0 and 2 end with the same final label. *)
Lemma cut_joins_a_cannot_link_pair :
  ConstrainedClustering_init four_sample_table = Ok four_sample_store /\
  CRow 0 2 0 ∈ four_sample_table /\
  constrainedSamps four_sample_store = [0; 1; 2; 3] /\
  tree_like four_sample_children /\
  agglomerate_constrained_samples four_sample_store 4 four_sample_children
  = Ok [0; 0; 1; 1] /\
  node_graph four_sample_store [] [0; 0; 1; 1] = Ok [[0; 1]; [1; 0]]%Z /\
  fit_constrained four_sample_store (Some 2) 4 four_sample_children []
  = Ok [0; 0; 0; 0] /\
  ([0; 0; 0; 0] : list nat) !! 0 = ([0; 0; 0; 0] : list nat) !! 2.
Proof.
  split; [vm_compute; reflexivity|]. split; [left|]. split; [reflexivity|].
  split; [apply four_sample_tree_like|].
  split; [vm_compute; reflexivity|]. split; [vm_compute; reflexivity|].
  split; [vm_compute; reflexivity|]. reflexivity.
Qed.

(** C1 (as amended). For every completed run on a dendrogram that merges
    each cluster at most once, the working labelSet produced by agglomeration
    gives different labels to the two samples of every CL pair (i, j) of the
    table with i <> j. The final labelSet is the image of the working one
    under the relabelling returned by the cut, so such a pair keeps different
    final labels exactly when the cut has not given their two nodes one
    label. *)
Theorem agglomeration_respects_CL constraintMat self n_clusters N children_
    indices final :
  ConstrainedClustering_init constraintMat = Ok self ->
  tree_like children_ ->
  fit_constrained self n_clusters N children_ indices = Ok final ->
  exists working newLabels,
    agglomerate_constrained_samples self N children_ = Ok working /\
    merge_nodes self n_clusters indices working = Ok newLabels /\
    length working = length (constrainedSamps self) /\
    final = (fun l => newLabels !!! l) <$> working /\
    forall i j, CRow i j 0 ∈ constraintMat -> i <> j ->
      exists p q,
        constrainedSamps self !! p = Some i /\
        constrainedSamps self !! q = Some j /\
        working !!! p <> working !!! q /\
        (final !!! p <> final !!! q <->
         newLabels !!! (working !!! p) <> newLabels !!! (working !!! q)).
Proof.
  intros Hinit Htree Hfit. unfold fit_constrained in Hfit.
  apply rbind_Ok_inv in Hfit as (working & Hagg & Hfit).
  apply rbind_Ok_inv in Hfit as (newLabels & Hmerge & Htrans).
  exists working, newLabels. split; [done|]. split; [done|].
  pose proof Hagg as Hagg'. unfold agglomerate_constrained_samples in Hagg'.
  apply rbind_Ok_inv in Hagg' as (st & Hloop & Hagg').
  apply rbind_Ok_inv in Hagg' as (restricted & Htake & [= <-]).
  destruct (np_take_lookup _ _ _ Htake) as [Hlen Hlook].
  destruct (agglomerate_loop_inv self N children_ st Htree Hloop)
    as [HlenN Hcl].
  set (working := translate_to_counting_numbers restricted) in *.
  assert (length working = length (constrainedSamps self)) as Hlenw.
  { unfold working. by rewrite length_translate. }
  split; [done|].
  pose proof Hmerge as Hmerge'. unfold merge_nodes in Hmerge'.
  apply rbind_Ok_inv in Hmerge' as (simMat & Hng & Hmerge').
  apply rbind_Ok_inv in Hmerge' as (_ & _ & Hcut).
  pose proof (node_graph_square _ _ _ _ Hng) as Hsq.
  destruct (graph_cut_approx_idempotent _ _ _ _ Hsq Hcut) as [Hlnew Hid].
  assert (Forall (fun l => l < length (np_unique working)) working) as Hbound.
  { apply Forall_forall. intros x Hx. unfold working at 1.
    rewrite length_unique_translate. by apply translate_range. }
  rewrite (translate_labels_idempotent _ _ _ Hlnew Hid Hbound) in Htrans.
  injection Htrans as <-. split; [done|].
  intros i j Hrow Hij.
  destruct (init_CL_pair _ _ _ _ Hinit Hrow) as (Hpair & Hi & Hj).
  apply list_elem_of_lookup_1 in Hi as [p Hp].
  apply list_elem_of_lookup_1 in Hj as [q Hq].
  exists p, q. split; [done|]. split; [done|].
  destruct (Hlook p i Hp) as [HiN Hrp]. destruct (Hlook q j Hq) as [HjN Hrq].
  assert (p < length working) as Hplt.
  { rewrite Hlenw. by eapply lookup_lt_Some. }
  assert (q < length working) as Hqlt.
  { rewrite Hlenw. by eapply lookup_lt_Some. }
  destruct (lookup_lt_is_Some_2 _ _ Hplt) as [kp Hkp].
  destruct (lookup_lt_is_Some_2 _ _ Hqlt) as [kq Hkq].
  rewrite (list_lookup_total_correct _ _ _ Hkp).
  rewrite (list_lookup_total_correct _ _ _ Hkq).
  split.
  - intros ->.
    pose proof (translate_injective _ _ _ _ _ _ Hrp Hrq Hkp Hkq) as Heq.
    apply (Hcl i j); [lia..|done|done|done].
  - pose proof (list_lookup_total_fmap (fun l => newLabels !!! l) working p
                  Hplt) as Hfp.
    pose proof (list_lookup_total_fmap (fun l => newLabels !!! l) working q
                  Hqlt) as Hfq.
    rewrite Hfp, Hfq.
    rewrite (list_lookup_total_correct _ _ _ Hkp).
    rewrite (list_lookup_total_correct _ _ _ Hkq). done.
Qed.

(** An instance: the four-sample run. *)
Lemma agglomeration_respects_CL_witness :
  exists working newLabels,
    agglomerate_constrained_samples four_sample_store 4 four_sample_children
    = Ok working /\
    merge_nodes four_sample_store (Some 2) [] working = Ok newLabels /\
    length working = length (constrainedSamps four_sample_store) /\
    [0; 0; 0; 0] = (fun l => newLabels !!! l) <$> working /\
    forall i j, CRow i j 0 ∈ four_sample_table -> i <> j ->
      exists p q,
        constrainedSamps four_sample_store !! p = Some i /\
        constrainedSamps four_sample_store !! q = Some j /\
        working !!! p <> working !!! q /\
        ([0; 0; 0; 0] !!! p <> [0; 0; 0; 0] !!! q <->
         newLabels !!! (working !!! p) <> newLabels !!! (working !!! q)).
Proof.
  apply (agglomeration_respects_CL four_sample_table four_sample_store
           (Some 2) 4 four_sample_children [] [0; 0; 0; 0]).
  - vm_compute. reflexivity.
  - apply (bool_decide_unpack _). vm_compute. exact I.
  - vm_compute. reflexivity.
Defined.

(** ** Membership, renumbering and the constraint store *)

(** *** [ismember] *)

Lemma ismember_fmap a b :
  ismember a b = (fun x => bool_decide (x ∈ b)) <$> a.
Proof.
  apply list_eq. intros i. rewrite list_lookup_fmap.
  destruct (a !! i) as [x|] eqn:Hx.
  - by apply lookup_ismember.
  - apply lookup_ge_None. rewrite length_ismember. by apply lookup_ge_None.
Qed.

(** X1. [ismember a b] has the length of [a]; its entry at position i is
    True exactly when a[i] occurs in [b]; [np.any] of it is True exactly when
    [a] and [b] share an element; and for an empty [b] every entry is
    False. *)
Theorem ismember_membership a b :
  length (ismember a b) = length a /\
  (forall i x, a !! i = Some x ->
     (ismember a b !! i = Some true <-> x ∈ b)) /\
  (np_any (ismember a b) = true <-> exists x, x ∈ a /\ x ∈ b) /\
  ismember a [] = replicate (length a) false.
Proof.
  split; [apply length_ismember|]. split; [|split].
  - intros i x Hx. rewrite (lookup_ismember a b i x Hx). split.
    + intros [= H]. by apply bool_decide_eq_true_1 in H.
    + intros H. by rewrite bool_decide_eq_true_2.
  - rewrite np_any_true. apply elem_of_ismember_true.
  - unfold ismember. cbn [foldl]. by rewrite fmap_replicate.
Qed.

(** *** [translate_to_counting_numbers] *)

Lemma Sorted_seq_le j n : Sorted Nat.le (seq j n).
Proof.
  revert j. induction n as [|n IH]; intros j; simpl; [constructor|].
  constructor; [apply IH|]. destruct n; simpl; constructor. lia.
Qed.

Lemma np_unique_translate a :
  np_unique (translate_to_counting_numbers a) = seq 0 (length (np_unique a)).
Proof.
  apply (Sorted_unique Nat.le).
  - apply (Sorted_merge_sort Nat.le).
  - apply Sorted_seq_le.
  - apply NoDup_Permutation; [apply NoDup_np_unique|apply NoDup_seq|].
    intros x. rewrite elem_of_np_unique, translate_range, elem_of_seq. lia.
Qed.

(** X2. [translate_to_counting_numbers] keeps the length, gives two
    positions the same number exactly when they held the same value, uses
    exactly the numbers 0 .. M-1 where M is the number of distinct values, and
    leaves its own output unchanged. *)
Theorem translate_to_counting_numbers_one_to_one a :
  length (translate_to_counting_numbers a) = length a /\
  (forall p q x y, a !! p = Some x -> a !! q = Some y ->
     (translate_to_counting_numbers a !! p
      = translate_to_counting_numbers a !! q <-> x = y)) /\
  (forall k, k ∈ translate_to_counting_numbers a
             <-> k < length (np_unique a)) /\
  translate_to_counting_numbers (translate_to_counting_numbers a)
  = translate_to_counting_numbers a.
Proof.
  split; [apply length_translate|]. split; [|split].
  - intros p q x y Hp Hq.
    destruct (lookup_translate_ex _ _ _ Hp) as (kp & Hkp & Hup).
    destruct (lookup_translate_ex _ _ _ Hq) as (kq & Hkq & Huq).
    rewrite Hkp, Hkq. split.
    + intros [= ->]. by simplify_eq.
    + intros ->.
      by rewrite (NoDup_lookup _ _ _ _ (NoDup_np_unique a) Hup Huq).
  - apply translate_range.
  - apply list_eq_same_length with (length a).
    + apply length_translate.
    + by rewrite !length_translate.
    + intros i k1 k2 Hi Hk1 Hk2.
      assert (k2 < length (np_unique a)) as Hlt.
      { apply translate_range. by eapply list_elem_of_lookup_2. }
      rewrite (lookup_translate _ i k2 k2 Hk2) in Hk1; [by simplify_eq|].
      rewrite np_unique_translate. by apply lookup_seq_lt.
Qed.

(** *** The constraint store *)

Lemma elem_of_reverse_columns block (a b : nat) :
  (a, b) ∈ reverse_columns block <-> (b, a) ∈ block.
Proof.
  unfold reverse_columns. rewrite list_elem_of_fmap. split.
  - intros ([x y] & [= -> ->] & Hin). done.
  - intros Hin. exists (b, a). done.
Qed.

Lemma elem_of_flatten_table constraintMat x :
  x ∈ flatten_table constraintMat
  <-> exists r, r ∈ constraintMat /\ (x = cfst r \/ x = csnd r \/ x = ckind r).
Proof.
  unfold flatten_table. rewrite list_elem_of_join. split.
  - intros (l & Hx & (r & -> & Hr)%list_elem_of_fmap). exists r.
    split; [done|]. rewrite !elem_of_cons, elem_of_nil in Hx. tauto.
  - intros (r & Hr & Hx). exists [cfst r; csnd r; ckind r]. split.
    + rewrite !elem_of_cons. tauto.
    + by apply (list_elem_of_fmap_2 (fun r => [cfst r; csnd r; ckind r])).
Qed.

Lemma length_constraints_by_value constraintMat v :
  length (constraints_by_value constraintMat v)
  = length (filter (fun r => ckind r = v) constraintMat).
Proof.
  unfold constraints_by_value. cbv zeta.
  induction constraintMat as [|r rows IH]; [done|].
  rewrite !fmap_cons. cbn [np_mask].
  destruct (decide (ckind r = v)) as [Hv|Hv].
  - rewrite bool_decide_eq_true_2 by done.
    rewrite filter_cons_True by done. cbn [length]. f_equal. apply IH.
  - rewrite bool_decide_eq_false_2 by done.
    by rewrite filter_cons_False by done.
Qed.

(** X3. [__init__] never fails. A pair (a, b) is in [self.ML] exactly when
    the table has the row (a, b, 1) or the row (b, a, 1), and in [self.CL]
    likewise for the value 0: both stores are symmetric, and each holds two
    pairs for every row of its value. *)
Theorem init_stores_both_orders constraintMat :
  exists self,
    ConstrainedClustering_init constraintMat = Ok self /\
    (forall a b, (a, b) ∈ ML self <-> pair_in_table constraintMat 1 a b) /\
    (forall a b, (a, b) ∈ CL self <-> pair_in_table constraintMat 0 a b) /\
    (forall a b, ((a, b) ∈ ML self <-> (b, a) ∈ ML self) /\
                 ((a, b) ∈ CL self <-> (b, a) ∈ CL self)) /\
    length (ML self)
    = 2 * length (filter (fun r => ckind r = 1) constraintMat) /\
    length (CL self)
    = 2 * length (filter (fun r => ckind r = 0) constraintMat).
Proof.
  eexists. split; [reflexivity|]. cbn [ML CL].
  assert (forall v a b,
            (a, b) ∈ constraints_by_value constraintMat v
                     ++ reverse_columns (constraints_by_value constraintMat v)
            <-> pair_in_table constraintMat v a b) as Hin.
  { intros v a b. unfold pair_in_table.
    by rewrite elem_of_app, elem_of_reverse_columns,
      !constraints_by_value_elem. }
  split; [apply Hin|]. split; [apply Hin|]. split.
  - intros a b. rewrite !Hin. unfold pair_in_table. tauto.
  - unfold reverse_columns. rewrite !length_app, !length_fmap,
      !length_constraints_by_value. lia.
Qed.

(** X4. [self.constrainedSamps] holds exactly the values that occur
    anywhere in the table, the third column included, in strictly increasing
    order. *)
Theorem constrainedSamps_sorted_values constraintMat :
  exists self,
    ConstrainedClustering_init constraintMat = Ok self /\
    (forall x, x ∈ constrainedSamps self
               <-> exists r, r ∈ constraintMat /\
                             (x = cfst r \/ x = csnd r \/ x = ckind r)) /\
    (forall i j x y, constrainedSamps self !! i = Some x ->
                     constrainedSamps self !! j = Some y ->
                     (i < j <-> x < y)).
Proof.
  eexists. split; [reflexivity|]. cbn [constrainedSamps]. split.
  - intros x. by rewrite elem_of_np_unique, elem_of_flatten_table.
  - intros i j x y Hi Hj.
    destruct (lt_eq_lt_dec i j) as [[Hlt|Heq]|Hgt].
    + pose proof (np_unique_increasing _ _ _ _ _ Hi Hj Hlt). lia.
    + subst. simplify_eq. lia.
    + pose proof (np_unique_increasing _ _ _ _ _ Hj Hi Hgt). lia.
Qed.

(** ** Violated and counted constraints *)

Lemma np_sum_bool_filter {A} (P : A -> Prop) `{!forall x, Decision (P x)}
    (l : list A) :
  np_sum_bool ((fun x => bool_decide (P x)) <$> l) = length (filter P l).
Proof.
  unfold np_sum_bool. induction l as [|x l IH]; [done|].
  rewrite !fmap_cons. destruct (decide (P x)) as [HP|HP].
  - rewrite bool_decide_eq_true_2 by done.
    rewrite filter_cons_True by done. cbn [length]. rewrite <- IH. done.
  - rewrite bool_decide_eq_false_2 by done.
    rewrite filter_cons_False by done. rewrite <- IH. done.
Qed.

Lemma linked_iff block group1 b :
  linked block group1 b <-> exists a, a ∈ group1 /\ (a, b) ∈ block.
Proof.
  unfold linked. rewrite Exists_exists. split.
  - intros ([a b'] & Hin & Ha & Hb). simpl in *. subst. eauto.
  - intros (a & Ha & Hin). exists (a, b). done.
Qed.

Lemma count_linked block group1 group2 :
  np_sum_bool (ismember group2
                 (np_mask (block.*2) (ismember (block.*1) group1)))
  = length (filter (linked block group1) group2).
Proof.
  rewrite ismember_fmap, np_sum_bool_filter.
  f_equal. apply list_filter_iff. intros b.
  by rewrite elem_of_other_samples, linked_iff.
Qed.

(** X5. [is_CL_violated] always returns, and returns True exactly when a
    stored CL pair has both samples in the group; every group that contains a
    violating group is violating, and the empty group is not. *)
Theorem is_CL_violated_pairs self group :
  exists v,
    is_CL_violated self group = Ok v /\
    (v = true <->
     exists a b, a ∈ group /\ b ∈ group /\ (a, b) ∈ CL self) /\
    (forall group', v = true -> group ⊆ group' ->
                    is_CL_violated self group' = Ok true) /\
    is_CL_violated self [] = Ok false.
Proof.
  destruct (is_CL_violated_spec self group) as (v & Hv & Hiff).
  exists v. split; [done|]. split; [done|]. split.
  - intros group' Htrue Hsub.
    destruct (is_CL_violated_spec self group') as (v' & Hv' & Hiff').
    rewrite Hv'. f_equal. apply Hiff'.
    apply Hiff in Htrue as (a & b & Ha & Hb & Hab).
    exists a, b. split; [by apply Hsub|]. split; [by apply Hsub|done].
  - destruct (is_CL_violated_spec self []) as (v' & Hv' & Hiff').
    rewrite Hv'. f_equal. destruct v'; [|done].
    destruct (proj1 Hiff' eq_refl) as (a & _ & Ha%elem_of_nil & _). done.
Qed.

(** X6. [number_of_constraints self group1 group2 consVal] is, for consVal
    0 (CL) and 1 (ML), the number of entries of [group2] that are the second
    sample of a stored pair whose first sample is in [group1]; it is at most
    the size of [group2]; every other consVal raises AssertionError. *)
Theorem number_of_constraints_counts_linked_members self group1 group2
    consVal :
  number_of_constraints self group1 group2 consVal
  = match consVal with
    | 0 => Ok (length (filter (linked (CL self) group1) group2))
    | 1 => Ok (length (filter (linked (ML self) group1) group2))
    | _ => Raise AssertionError
    end /\
  (forall n, number_of_constraints self group1 group2 consVal = Ok n ->
             n <= length group2) /\
  (forall b, linked (CL self) group1 b
             <-> exists a, a ∈ group1 /\ (a, b) ∈ CL self) /\
  (forall b, linked (ML self) group1 b
             <-> exists a, a ∈ group1 /\ (a, b) ∈ ML self).
Proof.
  assert (number_of_constraints self group1 group2 consVal
          = match consVal with
            | 0 => Ok (length (filter (linked (CL self) group1) group2))
            | 1 => Ok (length (filter (linked (ML self) group1) group2))
            | _ => Raise AssertionError
            end) as Heq.
  { unfold number_of_constraints, other_sample_in_pair.
    destruct consVal as [|[|n]].
    - rewrite decide_True by (by left). rewrite decide_True by done.
      cbn [rbind]. by rewrite count_linked.
    - rewrite decide_True by (by right). rewrite decide_False by done.
      cbn [rbind]. by rewrite count_linked.
    - rewrite decide_False by lia. done. }
  split; [done|]. split; [|split; intros b; apply linked_iff].
  intros n. rewrite Heq. destruct consVal as [|[|?]]; intros [= <-];
    apply length_filter.
Qed.

(** ** The greedy cut: where it stops *)

(** *** The greedy cut without a target, and with one *)

Lemma graph_cut_approx_total M n_clusters simMat :
  square M simMat -> 0 < M ->
  exists newLabels,
    graph_cut_approx n_clusters simMat = Ok newLabels /\
    length newLabels = M /\ Forall (fun l => l < M) newLabels.
Proof.
  intros Hsq HM. unfold graph_cut_approx.
  rewrite (square_length M) by done.
  pose proof (well_shaped_initial M simMat Hsq) as Hws.
  destruct (graph_cut_loop_fuel M n_clusters (S M) (simMat, seq 0 M) Hws HM)
    as [st Hrun].
  { pose proof (live_count_le M simMat). simpl. lia. }
  rewrite Hrun. cbn [rbind]. exists st.2. split; [done|].
  assert (well_shaped M st) as (_ & Hl & Hb); [|done].
  revert Hrun. apply (graph_cut_loop_invariant (well_shaped M)); [|done].
  intros s s'. apply graph_cut_merge_shape.
Qed.

Lemma graph_cut_loop_no_target M : forall fuel st st',
  well_shaped M st ->
  graph_cut_loop fuel None st = Ok st' ->
  forall a b, a < M -> b < M -> (mget st'.1 a b <= 0)%Z.
Proof.
  induction fuel as [|fuel IH]; intros [sim newLabels] st' Hws Hrun a b Ha Hb;
    [done|].
  pose proof Hws as (Hsq & _). cbn [fst] in Hsq.
  destruct (graph_cut_merge_cases M sim newLabels Hsq ltac:(lia))
    as (maxInd & r & c & _ & _ & Hr & Hc & Hmax & Heq).
  cbn [graph_cut_loop] in Hrun. unfold graph_cut_body in Hrun.
  destruct (decide (0 < mget sim r c)%Z) as [Hpos|Hnpos].
  - rewrite Heq in Hrun. cbn [rbind n_clusters_reached] in Hrun.
    eapply (IH _ st'); [|exact Hrun|done|done].
    by eapply graph_cut_merge_shape.
  - rewrite Heq in Hrun. cbn [rbind] in Hrun.
    injection Hrun as <-. cbn [fst]. specialize (Hmax a b Ha Hb). lia.
Qed.

(** X7. Without a target count ([n_clusters] is None) the greedy cut on an
    M x M matrix, M >= 1, returns, and it stops only when nothing is left to
    merge: in the matrix it stops with, no entry is positive. *)
Theorem cut_without_target_leaves_no_positive_entry M sim :
  square M sim -> 0 < M ->
  exists st',
    graph_cut_loop (S M) None (sim, seq 0 M) = Ok st' /\
    graph_cut_approx None sim = Ok st'.2 /\
    forall a b, a < M -> b < M -> (mget st'.1 a b <= 0)%Z.
Proof.
  intros Hsq HM.
  pose proof (well_shaped_initial M sim Hsq) as Hws.
  destruct (graph_cut_loop_fuel M None (S M) (sim, seq 0 M) Hws HM)
    as [st' Hrun].
  { pose proof (live_count_le M sim). simpl. lia. }
  exists st'. split; [done|]. split.
  - unfold graph_cut_approx. rewrite (square_length M) by done.
    by rewrite Hrun.
  - by apply (graph_cut_loop_no_target M (S M) (sim, seq 0 M) st' Hws Hrun).
Qed.

Lemma cut_without_target_leaves_no_positive_entry_witness :
  exists st',
    graph_cut_loop (S 3) None ([[0; 2; 0]; [2; 0; 1]; [0; 1; 0]]%Z, seq 0 3)
    = Ok st' /\
    graph_cut_approx None [[0; 2; 0]; [2; 0; 1]; [0; 1; 0]]%Z = Ok st'.2 /\
    forall a b, a < 3 -> b < 3 -> (mget st'.1 a b <= 0)%Z.
Proof.
  apply (cut_without_target_leaves_no_positive_entry 3
           [[0; 2; 0]; [2; 0; 1]; [0; 1; 0]]%Z).
  - split; [reflexivity|]. repeat constructor.
  - lia.
Defined.

Lemma relabel_groups_ge newLabels r c :
  length (np_unique newLabels)
  <= S (length (np_unique (relabel newLabels r c))).
Proof.
  change (S (length ?l)) with (length (newLabels !!! c :: l)).
  apply submseteq_length, NoDup_submseteq; [apply NoDup_np_unique|].
  intros x Hx. apply (proj1 (elem_of_np_unique _ _)) in Hx.
  apply elem_of_cons.
  destruct (decide (x = newLabels !!! c)) as [Heq|Hne]; [by left|right].
  apply elem_of_np_unique. rewrite relabel_fmap.
  apply list_elem_of_fmap. exists x. split; [|done].
  by rewrite decide_False.
Qed.

Lemma length_np_unique_NoDup a : NoDup a -> length (np_unique a) = length a.
Proof.
  intros Hnd. apply Permutation_length, NoDup_Permutation;
    [apply NoDup_np_unique|done|]. intros x. apply elem_of_np_unique.
Qed.

Lemma graph_cut_loop_target K : forall fuel st st',
  K < length (np_unique st.2) ->
  graph_cut_loop fuel (Some K) st = Ok st' ->
  K <= length (np_unique st'.2) <= length (np_unique st.2).
Proof.
  induction fuel as [|fuel IH]; intros st st' HK Hrun; [done|].
  cbn [graph_cut_loop] in Hrun. unfold graph_cut_body in Hrun.
  destruct (graph_cut_merge st) as [[st1|]| |] eqn:Hm;
    cbn [rbind] in Hrun; try done.
  - destruct (graph_cut_merge_relabels _ _ Hm) as (r & c & Hnl & _).
    pose proof (relabel_groups_ge st.2 r c) as Hge.
    pose proof (relabel_groups_le st.2 r c) as Hle.
    rewrite <- Hnl in Hge, Hle.
    unfold n_clusters_reached in Hrun.
    destruct (decide (length (np_unique st1.2) <= K)) as [Hstop|Hgo].
    + rewrite bool_decide_eq_true_2 in Hrun by done.
      injection Hrun as <-. lia.
    + rewrite bool_decide_eq_false_2 in Hrun by done.
      destruct (IH st1 st' ltac:(lia) Hrun). lia.
  - injection Hrun as <-. lia.
Qed.

(** X8. With a target count K below the number M of nodes, the greedy cut
    returns M labels that take at least K and at most M distinct values: the
    cut never merges below the target. *)
Theorem cut_stops_at_target M K sim :
  square M sim -> K < M ->
  exists newLabels,
    graph_cut_approx (Some K) sim = Ok newLabels /\
    length newLabels = M /\
    K <= length (np_unique newLabels) <= M.
Proof.
  intros Hsq HK.
  destruct (graph_cut_approx_total M (Some K) sim Hsq ltac:(lia))
    as (newLabels & Hcut & Hlen & _).
  exists newLabels. split; [done|]. split; [done|].
  unfold graph_cut_approx in Hcut. rewrite (square_length M) in Hcut by done.
  apply rbind_Ok_inv in Hcut as (st & Hrun & [= <-]).
  assert (length (np_unique (seq 0 M)) = M) as Hinit.
  { rewrite length_np_unique_NoDup by apply NoDup_seq. apply length_seq. }
  pose proof (graph_cut_loop_target K (S M) (sim, seq 0 M) st) as Hb.
  cbn [snd] in Hb. rewrite Hinit in Hb. by apply Hb.
Qed.

Lemma cut_stops_at_target_witness :
  exists newLabels,
    graph_cut_approx (Some 2) [[0; 2; 0]; [2; 0; 1]; [0; 1; 0]]%Z
    = Ok newLabels /\
    length newLabels = 3 /\
    2 <= length (np_unique newLabels) <= 3.
Proof.
  apply (cut_stops_at_target 3 2 [[0; 2; 0]; [2; 0; 1]; [0; 1; 0]]%Z).
  - split; [reflexivity|]. repeat constructor.
  - lia.
Defined.

(** X9. On a symmetric M x M matrix with zero diagonal, M >= 1, and
    whatever the target count, the greedy cut returns the identity labelling
    0 .. M-1 exactly when no entry of the matrix is positive. *)
Theorem cut_returns_identity_iff_nothing_positive M n_clusters sim :
  graph_inv M sim -> 0 < M ->
  graph_cut_approx n_clusters sim = Ok (seq 0 M)
  <-> forall a b, a < M -> b < M -> (mget sim a b <= 0)%Z.
Proof.
  intros (Hsq & Hsym & Hdiag) HM.
  destruct (graph_cut_merge_cases M sim (seq 0 M) Hsq HM)
    as (maxInd & r & c & _ & _ & Hr & Hc & Hmax & Heq).
  assert (length sim = M) as Hlen by apply Hsq.
  split.
  - intros Hcut a b Ha Hb.
    destruct (decide (0 < mget sim r c)%Z) as [Hpos|Hnpos];
      [|specialize (Hmax a b Ha Hb); lia].
    exfalso.
    assert (r <> c) as Hrc.
    { intros ->. rewrite Hdiag in Hpos by done. lia. }
    assert (length (np_unique (relabel (seq 0 M) r c)) < M) as Hlt.
    { pose proof (length_np_unique_NoDup (seq 0 M) (NoDup_seq 0 M)) as Hu.
      rewrite length_seq in Hu.
      enough (length (np_unique (relabel (seq 0 M) r c))
              < length (np_unique (seq 0 M))) by lia.
      apply (relabel_groups_lt M); [apply length_seq|done|done|].
      rewrite relabel_seq by done. intros Heq'.
      apply (f_equal (fun l => l !!! c)) in Heq'.
      rewrite list_lookup_total_insert_eq in Heq' by (rewrite length_seq; lia).
      rewrite lookup_total_seq_lt in Heq' by done. simpl in Heq'. done. }
    unfold graph_cut_approx in Hcut. rewrite Hlen in Hcut.
    apply rbind_Ok_inv in Hcut as (st & Hrun & [= Hst]).
    cbn [graph_cut_loop] in Hrun. unfold graph_cut_body in Hrun.
    rewrite Heq in Hrun. cbn [rbind snd] in Hrun.
    assert (length (np_unique st.2) < M) as Hfin.
    { destruct (n_clusters_reached _ _).
      - injection Hrun as <-. done.
      - revert Hrun.
        apply (graph_cut_loop_invariant
                 (fun st => length (np_unique st.2) < M)); [|done].
        intros s s' Hs Hm. pose proof (graph_cut_merge_groups _ _ Hm). lia. }
    rewrite Hst in Hfin.
    rewrite length_np_unique_NoDup, length_seq in Hfin by apply NoDup_seq.
    lia.
  - intros Hneg. specialize (Hneg r c Hr Hc).
    destruct (decide (0 < mget sim r c)%Z) as [Hpos|_]; [lia|].
    unfold graph_cut_approx. rewrite Hlen. cbn [graph_cut_loop].
    unfold graph_cut_body. rewrite Heq. reflexivity.
Qed.

Lemma cut_returns_identity_iff_nothing_positive_witness :
  graph_cut_approx (Some 2) [[0; -1]; [-1; 0]]%Z = Ok (seq 0 2)
  <-> forall a b, a < 2 -> b < 2 -> (mget [[0; -1]; [-1; 0]]%Z a b <= 0)%Z.
Proof.
  apply (cut_returns_identity_iff_nothing_positive 2 (Some 2)
           [[0; -1]; [-1; 0]]%Z).
  - split; [split; [reflexivity|repeat constructor]|]. split.
    + intros [|[|a]] [|[|b]] Ha Hb; (reflexivity || lia).
    + intros [|[|a]] Ha; (reflexivity || lia).
  - lia.
Defined.

(** ** Loops that fail in one way, and the final remapping *)

(** *** Loops that can only fail in one way *)

Lemma for_each_seq_outcome {St} (P : nat -> St -> Prop) (good : nat -> Prop)
    (e : exn) (body : St -> nat -> result St) : forall n s st,
  (forall i st, s <= i < s + n -> P i st ->
     (good i /\ exists st', body st i = Ok st' /\ P (S i) st') \/
     (~ good i /\ body st i = Raise e)) ->
  P s st ->
  ((forall i, s <= i < s + n -> good i) /\
   exists st', for_each (seq s n) body st = Ok st' /\ P (s + n) st') \/
  (~ (forall i, s <= i < s + n -> good i) /\
   for_each (seq s n) body st = Raise e).
Proof.
  induction n as [|n IH]; intros s st Hbody HP.
  - left. split; [intros; lia|]. exists st. split; [done|].
    by rewrite Nat.add_0_r.
  - cbn [seq for_each].
    destruct (Hbody s st ltac:(lia) HP) as [(Hg & st1 & -> & HP1)|[Hb ->]].
    + cbn [rbind].
      destruct (IH (S s) st1) as [(Hall & st' & Hrun & HP')|[Hnall Hrun]];
        [intros i st2 Hi; apply Hbody; lia|done|..].
      * left. split.
        { intros i Hi. destruct (decide (i = s)) as [->|]; [done|].
          apply Hall. lia. }
        exists st'. split; [done|].
        by replace (s + S n) with (S s + n) by lia.
      * right. split; [|done]. intros Hall. apply Hnall.
        intros i Hi. apply Hall. lia.
    + right. split; [|done]. intros Hall. apply Hb, Hall. lia.
Qed.

Lemma for_each_prefix {A St} (P : list A -> St -> Prop)
    (body : St -> A -> result St) (xs : list A) :
  (forall pre x post st, xs = pre ++ x :: post -> P pre st ->
     exists st', body st x = Ok st' /\ P (pre ++ [x]) st') ->
  forall st, P [] st -> exists st', for_each xs body st = Ok st' /\ P xs st'.
Proof.
  intros Hbody.
  enough (forall rest pre st, xs = pre ++ rest -> P pre st ->
            exists st', for_each rest body st = Ok st' /\ P xs st') as Hgen.
  { intros st HP. by apply (Hgen xs [] st). }
  induction rest as [|x rest IH]; intros pre st Hxs HP.
  - exists st. split; [done|]. by rewrite Hxs, app_nil_r.
  - destruct (Hbody pre x rest st Hxs HP) as (st1 & Hx & HP1).
    cbn [for_each]. rewrite Hx. cbn [rbind].
    apply (IH (pre ++ [x])); [|done]. by rewrite <- app_assoc.
Qed.

Lemma for_each_first_failure {A St} (good : A -> Prop) (e : exn)
    (body : St -> A -> result St) : forall xs st,
  (forall st x, good x -> body st x <> Timeout /\
                          forall e', body st x <> Raise e') ->
  (forall st x, ~ good x -> body st x = Raise e) ->
  (forall x, Decision (good x)) ->
  ~ Forall good xs -> for_each xs body st = Raise e.
Proof.
  intros xs st Hgood Hbad Hdec. revert st.
  induction xs as [|x xs IH]; intros st Hn; [by destruct Hn|].
  cbn [for_each]. destruct (decide (good x)) as [Hx|Hx].
  - destruct (Hgood st x Hx) as [Ht Hr].
    destruct (body st x) as [st1|e'|]; [|by destruct (Hr e')|done].
    cbn [rbind]. apply IH. intros Hall. apply Hn. by constructor.
  - by rewrite (Hbad st x Hx).
Qed.

(** *** translate_labels *)

Section translate_labels_facts.
Context (newLabels orig : list nat).

Let body := fun (labelSet : list nat) (lab : nat) =>
  v <~ np_get newLabels lab ;;
  Ok (np_mask_put labelSet ((fun l => bool_decide (l = lab)) <$> labelSet) v).

(** After the passes for the labels [seen]: every entry is an entry of
    [newLabels], or still the label it started with, which is not in [seen];
    and when no image of a label is a later label, the entries that held a
    label of [seen] hold its image. *)
Let state_after (seen : list nat) (labelSet : list nat) : Prop :=
  length labelSet = length orig /\
  (forall i l, orig !! i = Some l ->
     exists x, labelSet !! i = Some x /\
               (x ∈ newLabels \/ (x = l /\ l ∉ seen))) /\
  ((forall l, l ∈ orig -> newLabels !!! l <= l \/ newLabels !!! l ∉ orig) ->
   labelSet
   = (fun l => if decide (l ∈ seen) then newLabels !!! l else l) <$> orig).

Lemma translate_labels_pass pre lab post labelSet :
  np_unique orig = pre ++ lab :: post ->
  lab < length newLabels ->
  state_after pre labelSet ->
  exists labelSet', body labelSet lab = Ok labelSet' /\
                    state_after (pre ++ [lab]) labelSet'.
Proof.
  intros Hu Hlab (Hlen & Hentry & Hplain). unfold body.
  destruct (lookup_lt_is_Some_2 _ _ Hlab) as [v Hv].
  rewrite (proj2 (np_get_Ok _ _ _) Hv). cbn [rbind].
  eexists. split; [reflexivity|].
  assert (v ∈ newLabels) as Hvin by by eapply list_elem_of_lookup_2.
  assert (lab ∈ orig) as Hlabin.
  { apply elem_of_np_unique. rewrite Hu. apply elem_of_app. right. left. }
  assert (forall s, s ∈ pre -> s < lab) as Hbefore.
  { intros s [i Hi]%list_elem_of_lookup_1.
    apply (np_unique_increasing orig i (length pre) s lab).
    - rewrite Hu. by apply lookup_app_l_Some.
    - rewrite Hu. by rewrite list_lookup_middle.
    - by eapply lookup_lt_Some. }
  rewrite mask_put_fmap. split; [by rewrite length_fmap|]. split.
  - intros i l Hi. destruct (Hentry i l Hi) as (x & Hx & Hcase).
    rewrite list_lookup_fmap, Hx. cbn [fmap option_fmap option_map].
    eexists. split; [reflexivity|].
    destruct (decide (x = lab)) as [->|Hne]; [by left|].
    destruct Hcase as [Hin|[-> Hns]]; [by left|right].
    split; [done|]. rewrite not_elem_of_app. split; [done|].
    by intros ->%list_elem_of_singleton.
  - intros Hcond. rewrite (Hplain Hcond), <- list_fmap_compose.
    apply list_fmap_ext. intros _ l Hl%list_elem_of_lookup_2. cbn [compose].
    destruct (decide (l ∈ pre)) as [Hs|Hs].
    + rewrite (decide_True (P := l ∈ pre ++ [lab]))
        by (apply elem_of_app; by left).
      rewrite decide_False; [done|]. intros Heq.
      pose proof (Hbefore l Hs).
      destruct (Hcond l Hl) as [Hle|Hnin]; [lia|].
      apply Hnin. by rewrite Heq.
    + destruct (decide (l = lab)) as [->|Hne].
      * rewrite (decide_True (P := lab ∈ pre ++ [lab]))
          by (apply elem_of_app; right; left).
        by rewrite (list_lookup_total_correct _ _ _ Hv).
      * rewrite decide_False; [done|].
        rewrite elem_of_app. intros [?|?%list_elem_of_singleton]; done.
Qed.

Lemma translate_labels_runs :
  Forall (fun l => l < length newLabels) orig ->
  exists out, translate_labels orig newLabels = Ok out /\
              state_after (np_unique orig) out.
Proof.
  intros Hrange. unfold translate_labels.
  apply (for_each_prefix state_after).
  - intros pre lab post labelSet Hu Hst.
    apply (translate_labels_pass pre lab post); [done| |done].
    apply (proj1 (Forall_forall _ _) Hrange), elem_of_np_unique.
    rewrite Hu. apply elem_of_app. right. left.
  - split; [done|]. split.
    + intros i l Hi. exists l. split; [done|]. right.
      split; [done|apply not_elem_of_nil].
    + intros _. symmetry. transitivity (id <$> orig); [|apply list_fmap_id].
      apply list_fmap_ext. intros _ l _.
      by rewrite decide_False by apply not_elem_of_nil.
Qed.

Lemma translate_labels_fails :
  ~ Forall (fun l => l < length newLabels) orig ->
  translate_labels orig newLabels = Raise IndexError.
Proof.
  intros Hn. unfold translate_labels.
  apply (for_each_first_failure (fun l => l < length newLabels)).
  - intros st x Hx. destruct (lookup_lt_is_Some_2 _ _ Hx) as [v Hv].
    rewrite (proj2 (np_get_Ok _ _ _) Hv). done.
  - intros st x Hx. unfold np_get.
    rewrite lookup_ge_None_2 by lia. done.
  - intros x. apply _.
  - intros Hall. apply Hn, Forall_forall. intros l Hl.
    apply (proj1 (Forall_forall _ _) Hall). by apply elem_of_np_unique.
Qed.
End translate_labels_facts.

(** X10. [translate_labels] raises IndexError exactly when some label of
    [labelSet] is not an index of [newLabels]. Otherwise it returns an array of
    the same length whose entries are all entries of [newLabels], and the
    result is the plain lookup newLabels[labelSet[i]] whenever every label l
    has newLabels[l] <= l or newLabels[l] not among the labels (an entry whose
    new value is a larger label would be remapped again by the pass for that
    label). *)
Theorem translate_labels_outcome labelSet newLabels :
  (Forall (fun l => l < length newLabels) labelSet ->
   exists out,
     translate_labels labelSet newLabels = Ok out /\
     length out = length labelSet /\
     (forall x, x ∈ out -> x ∈ newLabels) /\
     ((forall l, l ∈ labelSet ->
         newLabels !!! l <= l \/ newLabels !!! l ∉ labelSet) ->
      out = (fun l => newLabels !!! l) <$> labelSet)) /\
  (~ Forall (fun l => l < length newLabels) labelSet ->
   translate_labels labelSet newLabels = Raise IndexError).
Proof.
  split; [|apply translate_labels_fails].
  intros Hrange.
  destruct (translate_labels_runs newLabels labelSet Hrange)
    as (out & Hrun & Hlen & Hentry & Hplain).
  exists out. split; [done|]. split; [done|]. split.
  - intros x [i Hi]%list_elem_of_lookup_1.
    assert (i < length labelSet) as Hlt.
    { rewrite <- Hlen. by eapply lookup_lt_Some. }
    destruct (lookup_lt_is_Some_2 _ _ Hlt) as [l Hl].
    destruct (Hentry i l Hl) as (x' & Hx' & [Hin|[_ Hns]]).
    + by simplify_eq.
    + exfalso. apply Hns, elem_of_np_unique. by eapply list_elem_of_lookup_2.
  - intros Hcond. rewrite (Hplain Hcond).
    apply list_fmap_ext. intros _ l Hl%list_elem_of_lookup_2.
    by rewrite decide_True by by apply elem_of_np_unique.
Qed.

(** ** Graph completion: when it returns *)

(** *** complete_matrix *)

Lemma complete_matrix_pass_outcome M indices old k new i :
  square M old -> square M new -> i < M ->
  let body := fun (newSimMat : matrix) (i : nat) =>
    let neighInd := replicate M false in
    indices_i <~ np_get indices i ;;
    neighInd <~ np_put neighInd (take k (drop 1 indices_i)) true ;;
    simMat_i <~ np_get old i ;;
    let neighInd :=
      zip_with andb neighInd
               (fmap (fun v => bool_decide (v = 0%Z)) simMat_i) in
    let newSimMat :=
      set_row newSimMat i (np_mask_put (newSimMat !!! i) neighInd 1%Z) in
    let newSimMat :=
      zip_with (fun row (b : bool) => if b then <[i := 1%Z]> row else row)
               newSimMat neighInd in
    Ok newSimMat in
  (neighbours_in_range M indices k i /\ exists new', body new i = Ok new') \/
  (~ neighbours_in_range M indices k i /\ body new i = Raise IndexError).
Proof.
  intros Hold Hnew Hi body. unfold body, neighbours_in_range.
  destruct (indices !! i) as [row|] eqn:Hrow.
  - assert (np_get indices i = Ok row) as -> by by apply np_get_Ok.
    cbn [rbind]. unfold np_put. rewrite length_replicate.
    destruct (decide (Forall (fun j => j < M) (take k (drop 1 row))))
      as [Hin|Hout]; cbn [rbind].
    + left. split; [exists row; split; [reflexivity|exact Hin]|].
      destruct (lookup_lt_is_Some_2 old i) as [old_i Hold_i];
        [by rewrite (square_length M)|].
      rewrite (proj2 (np_get_Ok _ _ _) Hold_i). cbn [rbind]. eauto.
    + right. split; [|reflexivity]. intros (row' & Heq & Hall).
      by simplify_eq.
  - assert (np_get indices i = Raise IndexError) as ->
      by (unfold np_get; by rewrite Hrow).
    right. split; [|reflexivity]. by intros (row' & ? & _).
Qed.

Lemma complete_matrix_cases M indices simMat k :
  square M simMat -> 1 <= k ->
  ((forall i, i < M -> neighbours_in_range M indices k i) /\
   exists newSimMat,
     complete_matrix indices simMat k = Ok newSimMat /\
     square M newSimMat /\
     forall a b, a < M -> b < M ->
       mget newSimMat a b = mget simMat a b \/ mget newSimMat a b = 1%Z) \/
  (~ (forall i, i < M -> neighbours_in_range M indices k i) /\
   complete_matrix indices simMat k = Raise IndexError).
Proof.
  intros Hsq Hk. pose proof (square_length M simMat Hsq) as Hlen.
  unfold complete_matrix. rewrite decide_True by done.
  cbv zeta. rewrite Hlen.
  destruct (for_each_seq_outcome
    (fun (_ : nat) (new : matrix) =>
       square M new /\
       forall a b, a < M -> b < M ->
         mget new a b = mget simMat a b \/ mget new a b = 1%Z)
    (neighbours_in_range M indices k) IndexError
    (fun (newSimMat : matrix) (i : nat) =>
       let neighInd := replicate M false in
       indices_i <~ np_get indices i ;;
       neighInd <~ np_put neighInd (take k (drop 1 indices_i)) true ;;
       simMat_i <~ np_get simMat i ;;
       let neighInd :=
         zip_with andb neighInd
                  (fmap (fun v => bool_decide (v = 0%Z)) simMat_i) in
       let newSimMat :=
         set_row newSimMat i (np_mask_put (newSimMat !!! i) neighInd 1%Z) in
       let newSimMat :=
         zip_with (fun row (b : bool) => if b then <[i := 1%Z]> row else row)
                  newSimMat neighInd in
       Ok newSimMat)
    M 0 simMat) as [(Hall & new & Hrun & Hnew)|[Hnall Hrun]].
  - intros i new Hi [Hnew Hval].
    destruct (complete_matrix_pass_outcome M indices simMat k new i
                Hsq Hnew ltac:(lia)) as [(Hg & new' & Hrun)|[Hb Hrun]].
    + left. split; [done|]. exists new'. split; [exact Hrun|].
      cbv zeta in Hrun.
      destruct (complete_matrix_pass M indices simMat k Hsq new i new'
                  Hnew ltac:(lia) Hrun) as [Hsq' Hval'].
      split; [done|]. intros a b Ha Hb. rewrite Hval' by done.
      destruct (decide _); [by right|by apply Hval].
    + right. split; [done|exact Hrun].
  - split; [done|]. intros a b _ _. by left.
  - left. split; [intros i Hi; apply Hall; lia|]. by exists new.
  - right. split; [|done]. intros Hall. apply Hnall. intros i Hi. apply Hall. lia.
Qed.

(** X11. [complete_matrix] on an M x M matrix: k = 0 raises AssertionError;
    for k >= 1 it returns when the nearest-neighbour answer has a row for every
    node and the k neighbours named in it are nodes, and raises IndexError
    otherwise. The matrix returned is M x M and each of its entries is the old
    entry or 1. *)
Theorem complete_matrix_outcome M indices simMat k :
  square M simMat ->
  (k = 0 -> complete_matrix indices simMat k = Raise AssertionError) /\
  (1 <= k -> (forall i, i < M -> neighbours_in_range M indices k i) ->
   exists newSimMat,
     complete_matrix indices simMat k = Ok newSimMat /\
     square M newSimMat /\
     forall a b, a < M -> b < M ->
       mget newSimMat a b = mget simMat a b \/ mget newSimMat a b = 1%Z) /\
  (1 <= k -> ~ (forall i, i < M -> neighbours_in_range M indices k i) ->
   complete_matrix indices simMat k = Raise IndexError).
Proof.
  intros Hsq. split.
  { intros ->. reflexivity. }
  split.
  - intros Hk Hall.
    by destruct (complete_matrix_cases M indices simMat k Hsq Hk)
      as [[_ Hrun]|[Hn _]].
  - intros Hk Hnall.
    by destruct (complete_matrix_cases M indices simMat k Hsq Hk)
      as [[Hall _]|[_ Hrun]].
Qed.

Lemma complete_matrix_outcome_witness :
  (2 = 0 -> complete_matrix five_node_indices five_node_graph 2
            = Raise AssertionError) /\
  (1 <= 2 ->
   (forall i, i < 5 -> neighbours_in_range 5 five_node_indices 2 i) ->
   exists newSimMat,
     complete_matrix five_node_indices five_node_graph 2 = Ok newSimMat /\
     square 5 newSimMat /\
     forall a b, a < 5 -> b < 5 ->
       mget newSimMat a b = mget five_node_graph a b \/
       mget newSimMat a b = 1%Z) /\
  (1 <= 2 ->
   ~ (forall i, i < 5 -> neighbours_in_range 5 five_node_indices 2 i) ->
   complete_matrix five_node_indices five_node_graph 2 = Raise IndexError).
Proof.
  apply (complete_matrix_outcome 5 five_node_indices five_node_graph 2).
  split; [reflexivity|]. repeat constructor.
Defined.

(** ** Agglomeration: when it returns *)

(** *** Agglomeration: when it runs to its end *)

Lemma np_take_outcome {A} (x : list A) (idx : list nat) :
  (Forall (fun i => i < length x) idx /\
   exists vs, np_take x idx = Ok vs /\ length vs = length idx) \/
  (~ Forall (fun i => i < length x) idx /\ np_take x idx = Raise IndexError).
Proof.
  induction idx as [|i idx IH]; [left; split; [done|by exists []]|].
  cbn [np_take].
  destruct (x !! i) as [v|] eqn:Hv.
  - assert (np_get x i = Ok v) as -> by by apply np_get_Ok.
    cbn [rbind]. pose proof (lookup_lt_Some _ _ _ Hv) as Hlt.
    destruct IH as [(Hall & vs & -> & Hlen)|[Hn ->]]; cbn [rbind].
    + left. split; [by constructor|]. exists (v :: vs).
      split; [done|]. simpl. by rewrite Hlen.
    + right. split; [|done]. by intros [_ ?]%Forall_cons.
  - assert (np_get x i = Raise IndexError) as ->
      by (unfold np_get; by rewrite Hv).
    right. split; [|done]. intros [Hlt _]%Forall_cons.
    apply lookup_ge_None in Hv. lia.
Qed.

Lemma agglomerate_shape_initial N :
  agglomerate_shape N 0 ((fun x => [x]) <$> seq 0 N, seq 0 N).
Proof.
  split; [cbn [fst]; by rewrite length_fmap, length_seq, Nat.add_0_r|].
  split; [|apply length_seq]. cbn [fst].
  apply Forall_fmap, Forall_seq. intros a Ha. cbn [compose].
  split; [done|]. repeat constructor. lia.
Qed.

Lemma agglomerate_pass_outcome self N children_ i st :
  agglomerate_shape N i st ->
  let body := fun (st : list (list nat) * list nat) (i : nat) =>
    nx <~ linkage_to_merges_next children_ st.1 i ;;
    bigLabelSet <~ agglomerate_merge self st.2 nx.2 ;;
    Ok (nx.1, bigLabelSet) in
  (merge_in_range N children_ i /\
   exists st', body st i = Ok st' /\ agglomerate_shape N (S i) st') \/
  (~ merge_in_range N children_ i /\ body st i = Raise IndexError).
Proof.
  destruct st as [clusMem bigLabelSet]. intros (Hlen & Hmem & Hlab) body.
  cbn [fst snd] in *. unfold body, merge_in_range, linkage_to_merges_next.
  cbn [fst snd].
  destruct (children_ !! i) as [ch|] eqn:Hch.
  2:{ assert (np_get children_ i = Raise IndexError) as ->
        by (unfold np_get; by rewrite Hch).
      right. split; [|reflexivity]. by intros (? & ? & _). }
  assert (np_get children_ i = Ok ch) as -> by by apply np_get_Ok.
  cbn [rbind].
  destruct (clusMem !! ch.1) as [m1|] eqn:Hm1.
  2:{ assert (np_get clusMem ch.1 = Raise IndexError) as ->
        by (unfold np_get; by rewrite Hm1).
      right. split; [|reflexivity]. intros (ch' & Heq & Hlt & _).
      simplify_eq. apply lookup_ge_None in Hm1. lia. }
  assert (np_get clusMem ch.1 = Ok m1) as -> by by apply np_get_Ok.
  cbn [rbind].
  destruct (clusMem !! ch.2) as [m2|] eqn:Hm2.
  2:{ assert (np_get clusMem ch.2 = Raise IndexError) as ->
        by (unfold np_get; by rewrite Hm2).
      right. split; [|reflexivity]. intros (ch' & Heq & _ & Hlt).
      simplify_eq. apply lookup_ge_None in Hm2. lia. }
  assert (np_get clusMem ch.2 = Ok m2) as -> by by apply np_get_Ok.
  cbn [rbind fst snd].
  left. split.
  { exists ch. split; [done|]. apply lookup_lt_Some in Hm1, Hm2. lia. }
  destruct (proj1 (Forall_lookup _ _) Hmem _ _ Hm1) as [Hne1 Hin1].
  destruct (proj1 (Forall_lookup _ _) Hmem _ _ Hm2) as [Hne2 Hin2].
  assert (agglomerate_shape N (S i) (clusMem ++ [m1 ++ m2], bigLabelSet))
    as Hkeep.
  { split; [cbn [fst]; rewrite length_app; simpl; lia|].
    split; [|done]. cbn [fst].
    apply Forall_app. split; [done|]. repeat constructor.
    - destruct m1; [done|]. done.
    - by apply Forall_app. }
  unfold agglomerate_merge. cbn [fst snd].
  destruct (is_CL_violated_spec self (m1 ++ m2)) as (v & -> & _).
  cbn [rbind]. destruct v; [eauto|].
  destruct m2 as [|first2 m2]; [done|].
  change (np_get (first2 :: m2) 0) with (Ok (A := nat) first2). cbn [rbind].
  apply Forall_cons in Hin2 as [Hf2 _].
  destruct (lookup_lt_is_Some_2 bigLabelSet first2 ltac:(lia)) as [lab Hl].
  rewrite (proj2 (np_get_Ok _ _ _) Hl). cbn [rbind].
  unfold np_put. rewrite Hlab. rewrite decide_True by done.
  cbn [rbind]. eexists. split; [reflexivity|].
  destruct Hkeep as (H1 & H2 & H3). split; [done|]. split; [done|].
  cbn [snd]. by rewrite length_put_fold.
Qed.

Lemma agglomerate_loop_outcome self N children_ :
  ((forall i, i < N - 1 -> merge_in_range N children_ i) /\
   exists st, agglomerate_loop self N children_ = Ok st /\
              agglomerate_shape N (N - 1) st) \/
  (~ (forall i, i < N - 1 -> merge_in_range N children_ i) /\
   agglomerate_loop self N children_ = Raise IndexError).
Proof.
  unfold agglomerate_loop.
  destruct (for_each_seq_outcome (agglomerate_shape N)
              (merge_in_range N children_) IndexError
              (fun st i =>
                 nx <~ linkage_to_merges_next children_ st.1 i ;;
                 bigLabelSet <~ agglomerate_merge self st.2 nx.2 ;;
                 Ok (nx.1, bigLabelSet))
              (N - 1) 0 ((fun x => [x]) <$> seq 0 N, seq 0 N))
    as [(Hall & st & Hrun & Hst)|[Hn Hrun]].
  - intros i st _ Hst. by apply agglomerate_pass_outcome.
  - apply agglomerate_shape_initial.
  - left. split; [intros i Hi; apply Hall; lia|]. by exists st.
  - right. split; [|done]. intros Hall. apply Hn. intros i Hi. apply Hall. lia.
Qed.

(** X12. [agglomerate_constrained_samples] returns when each of the N-1
    merges is a row of [children_] naming clusters that exist when it is
    reached (indices below N+i for merge i) and every constrained sample is
    below N; otherwise it raises IndexError. The labelSet returned has one
    label per constrained sample and uses exactly the labels 0 .. M-1. *)
Theorem agglomeration_outcome self N children_ :
  (agglomeration_in_range self N children_ ->
   exists labelSet,
     agglomerate_constrained_samples self N children_ = Ok labelSet /\
     length labelSet = length (constrainedSamps self) /\
     forall l, l ∈ labelSet <-> l < length (np_unique labelSet)) /\
  (~ agglomeration_in_range self N children_ ->
   agglomerate_constrained_samples self N children_ = Raise IndexError).
Proof.
  unfold agglomeration_in_range, agglomerate_constrained_samples.
  destruct (agglomerate_loop_outcome self N children_)
    as [(Hall & st & -> & _ & _ & Hlab)|[Hn ->]]; cbn [rbind].
  2:{ split; [by intros [? _]|done]. }
  destruct (np_take_outcome st.2 (constrainedSamps self))
    as [(Hin & vs & -> & Hlen)|[Hout ->]]; cbn [rbind].
  - split; [|intros Hn; exfalso; apply Hn; split; [done|by rewrite <- Hlab]].
    intros _. eexists. split; [reflexivity|].
    split; [by rewrite length_translate|].
    intros l. rewrite length_unique_translate. apply translate_range.
  - split; [|done]. intros [_ Hin]. exfalso. apply Hout. by rewrite Hlab.
Qed.

(** ** The node graph *)

(** *** The net constraint values, entry by entry *)








(** ** The plot and the cut *)

(** *** merge_nodes: the plot and the cut *)






(** ** Runs without cannot-link constraints *)

(** *** Agglomeration without cannot-link constraints *)





Lemma length_children_flat children_ :
  length (children_flat children_) = 2 * length children_.
Proof.
  unfold children_flat. induction children_ as [|ch c IH]; [done|].
  rewrite fmap_cons.
  change (S (S (length (mjoin ((fun ch => [ch.1; ch.2]) <$> c))))
          = 2 * S (length c)).
  rewrite IH. lia.
Qed.

Lemma only_one_left (used : list nat) (n v w : nat) :
  NoDup used -> (forall u, u ∈ used -> u < n) -> length used + 1 = n ->
  v ∉ used -> w ∉ used -> v < n -> w < n -> v = w.
Proof.
  intros Hnd Hlt Hlen Hv Hw Hvn Hwn.
  destruct (decide (v = w)) as [|Hne]; [done|]. exfalso.
  assert (NoDup (v :: w :: used)) as Hnd'.
  { apply NoDup_cons. split.
    - rewrite not_elem_of_cons. done.
    - by apply NoDup_cons. }
  assert (length (v :: w :: used) <= length (seq 0 n)) as Hle.
  { apply submseteq_length, NoDup_submseteq; [done|].
    intros u. rewrite !elem_of_cons, elem_of_seq.
    intros [->|[->|Hu]]; [lia|lia|]. pose proof (Hlt u Hu). lia. }
  rewrite length_seq in Hle. simpl in Hle. lia.
Qed.





(** ** Synthetic constraints *)

(** *** make_constraints *)

Lemma np_take_fmap {A} `{!Inhabited A} (x : list A) (idx : list nat) :
  Forall (fun i => i < length x) idx ->
  np_take x idx = Ok ((fun i => x !!! i) <$> idx).
Proof.
  induction 1 as [|i idx Hi _ IH]; [done|].
  cbn [np_take]. destruct (lookup_lt_is_Some_2 _ _ Hi) as [v Hv].
  rewrite (proj2 (np_get_Ok _ _ _) Hv). cbn [rbind]. rewrite IH. cbn [rbind].
  by rewrite fmap_cons, (list_lookup_total_correct _ _ _ Hv).
Qed.

Lemma lookup_put_values (f : nat -> nat) idx : forall (link : list nat) j,
  j < length link ->
  foldl (fun link iv => <[iv.1 := iv.2]> link) link (zip idx (f <$> idx)) !!! j
  = if decide (j ∈ idx) then f j else link !!! j.
Proof.
  induction idx as [|e idx IH]; intros link j Hj.
  - by rewrite decide_False by apply not_elem_of_nil.
  - rewrite fmap_cons. cbn [zip zip_with foldl fst snd].
    rewrite IH by by rewrite length_insert.
    destruct (decide (j ∈ idx)) as [Hin|Hnin].
    + by rewrite decide_True by by right.
    + rewrite list_lookup_total_insert.
      destruct (decide (e = j)) as [->|Hne].
      * rewrite decide_True by done. by rewrite decide_True by left.
      * rewrite decide_False by (intros [? _]; done).
        rewrite decide_False; [done|].
        rewrite elem_of_cons. intros [?|?]; congruence.
Qed.

Lemma length_put_values (vals : list (nat * nat)) : forall (link : list nat),
  length (foldl (fun link iv => <[iv.1 := iv.2]> link) link vals)
  = length link.
Proof.
  induction vals as [|iv vals IH]; intros link; [done|].
  cbn [foldl]. by rewrite IH, length_insert.
Qed.

Lemma make_constraints_runs labels queryMat errorInd :
  Forall (fun q => q.1 < length labels /\ q.2 < length labels) queryMat ->
  Forall (fun e => e < length queryMat) errorInd ->
  make_constraints labels queryMat errorInd
  = Ok (imap (fun j q =>
                CRow q.1 q.2 (if decide (j ∈ errorInd)
                              then 2 - 2 ^ same_label labels q
                              else same_label labels q))
             queryMat).
Proof.
  intros Hq He. unfold make_constraints.
  rewrite (np_take_fmap labels (queryMat.*1)).
  2:{ apply Forall_fmap. eapply Forall_impl; [exact Hq|]. by intros q [? _]. }
  rewrite (np_take_fmap labels (queryMat.*2)).
  2:{ apply Forall_fmap. eapply Forall_impl; [exact Hq|]. by intros q [_ ?]. }
  cbn [rbind].
  set (link := zip_with _ _ _).
  assert (link = same_label labels <$> queryMat) as Hlink.
  { unfold link. rewrite <- !list_fmap_compose, zip_with_fmap_l, zip_with_fmap_r.
    by rewrite zip_with_diag. }
  rewrite Hlink. clear link Hlink. set (link := same_label labels <$> queryMat).
  assert (length link = length queryMat) as Hlen
    by (unfold link; by rewrite length_fmap).
  rewrite (np_take_fmap link errorInd) by by rewrite Hlen.
  cbn [rbind].
  assert ((fun l => 2 - 2 ^ l) <$> ((fun i => link !!! i) <$> errorInd)
          = (fun e => 2 - 2 ^ link !!! e) <$> errorInd) as ->
    by by rewrite <- list_fmap_compose.
  f_equal. apply list_eq_same_length with (length queryMat).
  - by rewrite length_imap.
  - rewrite length_zip_with_l_eq; [done|]. by rewrite length_put_values.
  - intros j x y Hj Hx Hy.
    destruct (lookup_lt_is_Some_2 queryMat j Hj) as [q Hqj].
    rewrite list_lookup_imap, Hqj in Hy. simpl in Hy. injection Hy as <-.
    rewrite lookup_zip_with, Hqj in Hx. cbn [mbind option_bind] in Hx.
    rewrite list_lookup_lookup_total_lt in Hx
      by (rewrite length_put_values; lia).
    cbn [mbind option_bind] in Hx. injection Hx as <-. f_equal.
    pose proof (lookup_put_values (fun e => 2 - 2 ^ link !!! e) errorInd link j
                  ltac:(lia)) as Hput.
    rewrite Hput.
    pose proof (list_lookup_total_fmap (same_label labels) queryMat j Hj)
      as Hf.
    fold link in Hf. rewrite Hf, (list_lookup_total_correct _ _ _ Hqj). done.
Qed.

Lemma make_constraints_fails labels queryMat errorInd :
  Forall (fun q => q.1 < length labels /\ q.2 < length labels) queryMat ->
  ~ Forall (fun e => e < length queryMat) errorInd ->
  make_constraints labels queryMat errorInd = Raise IndexError.
Proof.
  intros Hq He. unfold make_constraints.
  rewrite (np_take_fmap labels (queryMat.*1)).
  2:{ apply Forall_fmap. eapply Forall_impl; [exact Hq|]. by intros q [? _]. }
  rewrite (np_take_fmap labels (queryMat.*2)).
  2:{ apply Forall_fmap. eapply Forall_impl; [exact Hq|]. by intros q [_ ?]. }
  cbn [rbind].
  set (link := zip_with _ _ _).
  assert (length link = length queryMat) as Hlen.
  { unfold link. rewrite length_zip_with_l_eq; by rewrite !length_fmap. }
  destruct (np_take_outcome link errorInd) as [(Hin & _)|[_ ->]]; [|done].
  exfalso. apply He. by rewrite <- Hlen.
Qed.

(** X16. [make_constraints] on pairs drawn in range: row j of the table is
    (queryMat[j,0], queryMat[j,1], link), where link is 1 for equal true labels
    and 0 otherwise, inverted exactly when the row index j occurs as a value of
    [errorInd]; a value of [errorInd] that is not a row index raises
    IndexError. In particular when [errorInd] is all 0, as it is drawn for
    errRate = 0, the first row is inverted and every other row is exact. *)
Theorem make_constraints_inverts_by_row_index labels queryMat errorInd :
  Forall (fun q => q.1 < length labels /\ q.2 < length labels) queryMat ->
  (Forall (fun e => e < length queryMat) errorInd ->
   make_constraints labels queryMat errorInd
   = Ok (imap (fun j q =>
                 CRow q.1 q.2 (if decide (j ∈ errorInd)
                               then 2 - 2 ^ same_label labels q
                               else same_label labels q))
              queryMat)) /\
  (~ Forall (fun e => e < length queryMat) errorInd ->
   make_constraints labels queryMat errorInd = Raise IndexError) /\
  (forall q, 2 - 2 ^ same_label labels q = 1 - same_label labels q) /\
  (forall q rest, queryMat = q :: rest ->
   make_constraints labels queryMat (replicate (length queryMat) 0)
   = Ok (CRow q.1 q.2 (1 - same_label labels q)
         :: ((fun q => CRow q.1 q.2 (same_label labels q)) <$> rest))).
Proof.
  intros Hq.
  assert (forall q, 2 - 2 ^ same_label labels q = 1 - same_label labels q)
    as Hflip.
  { intros q. unfold same_label. by destruct (bool_decide _). }
  split; [by apply make_constraints_runs|].
  split; [by apply make_constraints_fails|].
  split; [done|].
  intros q rest ->. rewrite make_constraints_runs; [|done|].
  2:{ apply Forall_replicate. simpl. lia. }
  f_equal. cbn [imap length replicate].
  rewrite decide_True by left. rewrite Hflip. f_equal.
  rewrite <- (imap_const (fun q => CRow q.1 q.2 (same_label labels q)) rest).
  apply imap_ext. intros j q' _. cbn [compose].
  rewrite decide_False; [done|].
  rewrite elem_of_cons. intros [?|[? _]%elem_of_replicate]; done.
Qed.

Lemma make_constraints_inverts_by_row_index_witness :
  (Forall (fun e => e < length [(0, 1); (1, 2); (0, 2)]) [0; 0; 0] ->
   make_constraints [7; 7; 9] [(0, 1); (1, 2); (0, 2)] [0; 0; 0]
   = Ok (imap (fun j q =>
                 CRow q.1 q.2 (if decide (j ∈ [0; 0; 0])
                               then 2 - 2 ^ same_label [7; 7; 9] q
                               else same_label [7; 7; 9] q))
              [(0, 1); (1, 2); (0, 2)])) /\
  (~ Forall (fun e => e < length [(0, 1); (1, 2); (0, 2)]) [0; 0; 0] ->
   make_constraints [7; 7; 9] [(0, 1); (1, 2); (0, 2)] [0; 0; 0]
   = Raise IndexError) /\
  (forall q, 2 - 2 ^ same_label [7; 7; 9] q = 1 - same_label [7; 7; 9] q) /\
  (forall q rest, [(0, 1); (1, 2); (0, 2)] = q :: rest ->
   make_constraints [7; 7; 9] [(0, 1); (1, 2); (0, 2)]
     (replicate (length [(0, 1); (1, 2); (0, 2)]) 0)
   = Ok (CRow q.1 q.2 (1 - same_label [7; 7; 9] q)
         :: ((fun q => CRow q.1 q.2 (same_label [7; 7; 9] q)) <$> rest))).
Proof.
  apply (make_constraints_inverts_by_row_index [7; 7; 9]
           [(0, 1); (1, 2); (0, 2)] [0; 0; 0]).
  repeat constructor.
Defined.

(** ** Final clusters and constraint partners *)

(** *** The number of final clusters *)

Lemma agglomerate_labels_cover self N children_ working :
  agglomerate_constrained_samples self N children_ = Ok working ->
  forall l, l ∈ working <-> l < length (np_unique working).
Proof.
  unfold agglomerate_constrained_samples. intros Hagg.
  apply rbind_Ok_inv in Hagg as (st & _ & Hagg).
  apply rbind_Ok_inv in Hagg as (restricted & _ & [= <-]).
  intros l. rewrite length_unique_translate. apply translate_range.
Qed.

Lemma length_np_unique_eq a b :
  (forall x, x ∈ a <-> x ∈ b) -> length (np_unique a) = length (np_unique b).
Proof.
  intros Heq. apply Nat.le_antisymm; apply length_np_unique_incl;
    intros x; by rewrite Heq.
Qed.

(** X17. When [fit_constrained] returns, the final labels take as many
    distinct values as the relabelling returned by the cut: at most the number
    M of nodes and, for a target count K < M, at least K. *)
Theorem fit_constrained_cluster_count self n_clusters N children_ indices
    final :
  fit_constrained self n_clusters N children_ indices = Ok final ->
  exists working newLabels,
    agglomerate_constrained_samples self N children_ = Ok working /\
    merge_nodes self n_clusters indices working = Ok newLabels /\
    length (np_unique final) = length (np_unique newLabels) /\
    length (np_unique final) <= length (np_unique working) /\
    (forall K, n_clusters = Some K -> K < length (np_unique working) ->
               K <= length (np_unique final)).
Proof.
  intros Hfit. unfold fit_constrained in Hfit.
  apply rbind_Ok_inv in Hfit as (working & Hagg & Hfit).
  apply rbind_Ok_inv in Hfit as (newLabels & Hmerge & Htrans).
  exists working, newLabels. split; [done|]. split; [done|].
  pose proof (agglomerate_labels_cover _ _ _ _ Hagg) as Hcover.
  set (M := length (np_unique working)) in *.
  pose proof Hmerge as Hmerge'. unfold merge_nodes in Hmerge'.
  apply rbind_Ok_inv in Hmerge' as (simMat & Hng & Hmerge').
  apply rbind_Ok_inv in Hmerge' as (_ & _ & Hcut).
  pose proof (node_graph_square _ _ _ _ Hng) as Hsq. fold M in Hsq.
  destruct (graph_cut_approx_idempotent _ _ _ _ Hsq Hcut) as [Hlnew Hid].
  assert (Forall (fun l => l < M) working) as Hbound.
  { apply Forall_forall. intros x Hx. by apply Hcover. }
  rewrite (translate_labels_idempotent _ _ _ Hlnew Hid Hbound) in Htrans.
  injection Htrans as <-.
  assert (length (np_unique ((fun l => newLabels !!! l) <$> working))
          = length (np_unique newLabels)) as Hcount.
  { apply length_np_unique_eq. intros x. rewrite list_elem_of_fmap. split.
    - intros (l & -> & Hl%Hcover). apply list_elem_of_lookup_total_2. lia.
    - intros [l Hl]%list_elem_of_lookup_1. exists l.
      split; [by rewrite (list_lookup_total_correct _ _ _ Hl)|].
      apply Hcover. rewrite <- Hlnew. by eapply lookup_lt_Some. }
  split; [done|]. rewrite Hcount. split.
  - pose proof (length_np_unique_le newLabels). lia.
  - intros K -> HK. unfold graph_cut_approx in Hcut.
    apply rbind_Ok_inv in Hcut as (st & Hrun & [= <-]).
    rewrite (square_length M) in Hrun by done.
    pose proof (graph_cut_loop_target K (S M) (simMat, seq 0 M) st) as Hb.
    cbn [snd] in Hb.
    rewrite (length_np_unique_NoDup (seq 0 M)), length_seq in Hb
      by apply NoDup_seq.
    by apply Hb.
Qed.

Lemma fit_constrained_cluster_count_witness :
  exists working newLabels,
    agglomerate_constrained_samples five_node_store 6
      [(0, 2); (3, 4); (6, 7); (8, 5); (9, 1)] = Ok working /\
    merge_nodes five_node_store (Some 3) five_node_indices working
    = Ok newLabels /\
    length (np_unique [0; 1; 0; 3; 3]) = length (np_unique newLabels) /\
    length (np_unique [0; 1; 0; 3; 3]) <= length (np_unique working) /\
    (forall K, Some 3 = Some K -> K < length (np_unique working) ->
               K <= length (np_unique [0; 1; 0; 3; 3])).
Proof.
  apply (fit_constrained_cluster_count five_node_store (Some 3) 6
           [(0, 2); (3, 4); (6, 7); (8, 5); (9, 1)] five_node_indices
           [0; 1; 0; 3; 3]).
  vm_compute. reflexivity.
Defined.

(** *** other_sample_in_pair *)

(** X18. [other_sample_in_pair] returns, for consVal 0 (CL) and 1 (ML), the
    second samples of the stored pairs whose first sample is in the group, one
    entry per such pair; every other consVal raises AssertionError. *)
Theorem other_sample_in_pair_partners self group consVal :
  (consVal = 0 ->
   exists others,
     other_sample_in_pair self group consVal = Ok others /\
     (forall y, y ∈ others <-> exists x, x ∈ group /\ (x, y) ∈ CL self) /\
     length others = length (filter (fun p => p.1 ∈ group) (CL self))) /\
  (consVal = 1 ->
   exists others,
     other_sample_in_pair self group consVal = Ok others /\
     (forall y, y ∈ others <-> exists x, x ∈ group /\ (x, y) ∈ ML self) /\
     length others = length (filter (fun p => p.1 ∈ group) (ML self))) /\
  (1 < consVal ->
   other_sample_in_pair self group consVal = Raise AssertionError).
Proof.
  assert (forall block : list (nat * nat),
            length (np_mask (block.*2) (ismember (block.*1) group))
            = length (filter (fun p => p.1 ∈ group) block)) as Hcount.
  { intros block. rewrite ismember_fmap.
    induction block as [|[x y] block IH]; [done|].
    rewrite !fmap_cons. cbn [np_mask fst snd].
    destruct (decide (x ∈ group)) as [Hx|Hx].
    - rewrite bool_decide_eq_true_2 by done.
      rewrite filter_cons_True by done. simpl. by rewrite IH.
    - rewrite bool_decide_eq_false_2 by done.
      by rewrite filter_cons_False by done. }
  unfold other_sample_in_pair. split; [|split].
  - intros ->. rewrite decide_True by (by left). rewrite decide_True by done.
    eexists. split; [reflexivity|]. split; [|apply Hcount].
    intros y. apply elem_of_other_samples.
  - intros ->. rewrite decide_True by (by right). rewrite decide_False by done.
    eexists. split; [reflexivity|]. split; [|apply Hcount].
    intros y. apply elem_of_other_samples.
  - intros Hv. rewrite decide_False by lia. done.
Qed.

(** ** The clusters of the dendrogram *)

(** *** linkage_to_merges: the clusters of the dendrogram *)

Lemma linkage_pass_clusters self N children_ i st st' :
  tree_like children_ ->
  forest N (children_flat (take i children_)) st.1 /\
  length st.1 = N + i /\ Forall (fun g => NoDup g) st.1 /\
  (length st.1 - 1 ∉ children_flat (take i children_)) ->
  (nx <~ linkage_to_merges_next children_ st.1 i ;;
   bigLabelSet <~ agglomerate_merge self st.2 nx.2 ;;
   Ok (nx.1, bigLabelSet)) = Ok st' ->
  (forest N (children_flat (take (S i) children_)) st'.1 /\
   length st'.1 = N + S i /\ Forall (fun g => NoDup g) st'.1 /\
   (length st'.1 - 1 ∉ children_flat (take (S i) children_))) /\
  exists ch m1 m2,
    children_ !! i = Some ch /\ st.1 !! ch.1 = Some m1 /\
    st.1 !! ch.2 = Some m2 /\ st'.1 = st.1 ++ [m1 ++ m2].
Proof.
  destruct st as [clusMem bigLabelSet]. cbn [fst snd].
  intros Htree (Hforest & Hlen & Hnd & Hlast) Hrun.
  apply rbind_Ok_inv in Hrun as (nx & Hnext & Hrun).
  apply rbind_Ok_inv in Hrun as (bigLabelSet' & _ & [= <-]).
  unfold linkage_to_merges_next in Hnext.
  apply rbind_Ok_inv in Hnext as (ch & Hch%np_get_Ok & Hnext).
  apply rbind_Ok_inv in Hnext as (m1 & Hm1%np_get_Ok & Hnext).
  apply rbind_Ok_inv in Hnext as (m2 & Hm2%np_get_Ok & [= <-]).
  cbn [fst snd] in *.
  destruct (tree_like_children _ _ _ Htree Hch) as (Hx & Hy & Hxy).
  split; [|by exists ch, m1, m2].
  rewrite (children_flat_take_S _ _ _ Hch).
  split; [by apply forest_step|].
  split; [rewrite length_app; simpl; lia|].
  pose proof Hforest as (Hused & _ & Hdisj & _).
  split.
  - apply Forall_app. split; [done|]. repeat constructor.
    apply NoDup_app. split; [by apply (proj1 (Forall_lookup _ _) Hnd _ _ Hm1)|].
    split; [|by apply (proj1 (Forall_lookup _ _) Hnd _ _ Hm2)].
    intros a Ha1 Ha2. apply Hxy. by eapply (Hdisj (ch.1) (ch.2) m1 m2 a).
  - rewrite length_app. simpl. replace (length clusMem + 1 - 1) with
      (length clusMem) by lia.
    rewrite not_elem_of_app, !not_elem_of_cons.
    apply lookup_lt_Some in Hm1, Hm2.
    split; [intros Hin; apply Hused in Hin; lia|].
    split; [lia|]. split; [lia|apply not_elem_of_nil].
Qed.

(** X19. On a dendrogram that merges each cluster at most once, when the
    walk over it returns (N >= 1): [clusMem] of [linkage_to_merges] holds 2N-1
    clusters, each a non-empty list of distinct samples below N; cluster N+i is
    the concatenation of the two children of merge i; and the last cluster
    holds every sample 0 .. N-1 exactly once. *)
Theorem dendrogram_root_holds_every_sample self N children_ st :
  tree_like children_ -> 0 < N ->
  agglomerate_loop self N children_ = Ok st ->
  length st.1 = 2 * N - 1 /\
  (forall v g, st.1 !! v = Some g ->
     NoDup g /\ g <> [] /\ forall a, a ∈ g -> a < N) /\
  (forall i, i < N - 1 ->
     exists ch m1 m2,
       children_ !! i = Some ch /\ st.1 !! ch.1 = Some m1 /\
       st.1 !! ch.2 = Some m2 /\ st.1 !! (N + i) = Some (m1 ++ m2)) /\
  exists root, st.1 !! (2 * N - 2) = Some root /\ root ≡ₚ seq 0 N.
Proof.
  intros Htree HN Hrun. unfold agglomerate_loop in Hrun.
  set (inv := fun (i : nat) (st : list (list nat) * list nat) =>
    (forest N (children_flat (take i children_)) st.1 /\
     length st.1 = N + i /\ Forall (fun g => NoDup g) st.1 /\
     (length st.1 - 1 ∉ children_flat (take i children_))) /\
    (forall v g, st.1 !! v = Some g -> g <> []) /\
    (forall j, j < i ->
       exists ch m1 m2,
         children_ !! j = Some ch /\ st.1 !! ch.1 = Some m1 /\
         st.1 !! ch.2 = Some m2 /\ st.1 !! (N + j) = Some (m1 ++ m2))).
  assert (inv (0 + (N - 1)) st) as Hinv.
  { revert Hrun. apply (for_each_seq_invariant inv).
    - intros i s s' _ (Hshape & Hne & Hrows) Hbody.
      destruct (linkage_pass_clusters self N children_ i s s' Htree Hshape
                  Hbody) as (Hshape' & ch & m1 & m2 & Hch & Hm1 & Hm2 & Heq).
      split; [done|]. destruct Hshape as (_ & Hlen & _).
      split.
      + intros v g. rewrite Heq.
        intros [[_ Hv]|[_ <-]]%lookup_snoc_Some; [by eapply Hne|].
        pose proof (Hne _ _ Hm1). by destruct m1.
      + intros j Hj. destruct (decide (j = i)) as [->|Hji].
        * exists ch, m1, m2. split; [done|]. rewrite Heq.
          split; [apply lookup_app_l_Some; done|].
          split; [apply lookup_app_l_Some; done|].
          rewrite <- Hlen. apply list_lookup_middle. done.
        * destruct (Hrows j ltac:(lia)) as (ch' & n1 & n2 & ? & ? & ? & ?).
          exists ch', n1, n2. split; [done|]. rewrite Heq.
          repeat split; by apply lookup_app_l_Some.
    - split; [|split].
      + split; [apply forest_initial|]. cbn [fst].
        split; [rewrite length_fmap, length_seq; lia|].
        split; [|apply not_elem_of_nil].
        apply Forall_fmap, Forall_seq. intros a _. cbn [compose].
        apply NoDup_singleton.
      + intros v g. cbn [fst]. rewrite list_lookup_fmap.
        destruct (seq 0 N !! v); [|done]. simpl. by intros [= <-].
      + intros j Hj. lia. }
  cbn [Nat.add] in Hinv.
  destruct Hinv as ((Hforest & Hlen & Hnd & Hlast) & Hne & Hrows).
  pose proof Hforest as (Hused & Hrange & Hdisj & Hcover).
  split; [lia|]. split.
  { intros v g Hv. split; [by apply (proj1 (Forall_lookup _ _) Hnd _ _ Hv)|].
    split; [by eapply Hne|]. intros a Ha. by eapply Hrange. }
  split; [done|].
  assert (2 * N - 2 < length st.1) as Hlt by lia.
  destruct (lookup_lt_is_Some_2 _ _ Hlt) as [root Hroot].
  exists root. split; [done|].
  replace (length st.1 - 1) with (2 * N - 2) in Hlast by lia.
  apply NoDup_Permutation.
  - by apply (proj1 (Forall_lookup _ _) Hnd _ _ Hroot).
  - apply NoDup_seq.
  - intros a. rewrite elem_of_seq. split.
    + intros Ha. pose proof (Hrange _ _ _ Hroot Ha). lia.
    + intros [_ Ha]. destruct (Hcover a Ha) as (v & g & Hv & Hlv & Hag).
      assert (length (children_flat (take (N - 1) children_)) + 1
              = length st.1) as Hcount.
      { rewrite length_children_flat, length_take.
        destruct (decide (N - 1 = 0)) as [Hz|Hpos]; [rewrite Hz; simpl; lia|].
        destruct (Hrows (N - 2) ltac:(lia)) as (ch & _ & _ & Hch & _).
        apply lookup_lt_Some in Hch. lia. }
      assert (v = 2 * N - 2) as ->.
      { apply (only_one_left (children_flat (take (N - 1) children_))
                 (length st.1)); [by apply tree_like_take|done|done|done|done| |done].
        by eapply lookup_lt_Some. }
      by simplify_eq.
Qed.

Lemma dendrogram_root_holds_every_sample_witness :
  length ([[0]; [1]; [2]; [3]; [0; 1]; [2; 3]; [0; 1; 2; 3]],
          [1; 1; 3; 3]).1 = 2 * 4 - 1 /\
  (forall v g, ([[0]; [1]; [2]; [3]; [0; 1]; [2; 3]; [0; 1; 2; 3]],
                [1; 1; 3; 3]).1 !! v = Some g ->
     NoDup g /\ g <> [] /\ forall a, a ∈ g -> a < 4) /\
  (forall i, i < 4 - 1 ->
     exists ch m1 m2,
       four_sample_children !! i = Some ch /\
       ([[0]; [1]; [2]; [3]; [0; 1]; [2; 3]; [0; 1; 2; 3]],
        [1; 1; 3; 3]).1 !! ch.1 = Some m1 /\
       ([[0]; [1]; [2]; [3]; [0; 1]; [2; 3]; [0; 1; 2; 3]],
        [1; 1; 3; 3]).1 !! ch.2 = Some m2 /\
       ([[0]; [1]; [2]; [3]; [0; 1]; [2; 3]; [0; 1; 2; 3]],
        [1; 1; 3; 3]).1 !! (4 + i) = Some (m1 ++ m2)) /\
  exists root,
    ([[0]; [1]; [2]; [3]; [0; 1]; [2; 3]; [0; 1; 2; 3]],
     [1; 1; 3; 3]).1 !! (2 * 4 - 2) = Some root /\ root ≡ₚ seq 0 4.
Proof.
  apply (dendrogram_root_holds_every_sample four_sample_store 4
           four_sample_children
           ([[0]; [1]; [2]; [3]; [0; 1]; [2; 3]; [0; 1; 2; 3]],
            [1; 1; 3; 3])).
  - apply (bool_decide_unpack _). vm_compute. exact I.
  - lia.
  - vm_compute. reflexivity.
Defined.

(** ** How a run of the pipeline ends *)

(** *** fit_constrained: how a run in range ends *)




(** ** The embedding on small inputs *)

Example ismember_ex : ismember [3; 5; 3; 7] [7; 3] = [true; false; true; true].
Proof. reflexivity. Qed.

Example np_unique_ex : np_unique [5; 7; 1; 5; 0] = [0; 1; 5; 7].
Proof. reflexivity. Qed.

Example translate_ex :
  translate_to_counting_numbers [5; 3; 5; 9] = [1; 0; 1; 2].
Proof. reflexivity. Qed.

Example is_CL_violated_ex :
  is_CL_violated four_sample_store [0; 1; 2] = Ok true /\
  is_CL_violated four_sample_store [0; 1; 3] = Ok false.
Proof. split; vm_compute; reflexivity. Qed.

Example graph_cut_approx_ex :
  graph_cut_approx None [[0; 2; 0]; [2; 0; 1]; [0; 1; 0]]%Z = Ok [0; 0; 0] /\
  graph_cut_approx (Some 2) [[0; 2; 0]; [2; 0; 1]; [0; 1; 0]]%Z
  = Ok [0; 0; 2] /\
  graph_cut_approx None [] = Raise ValueError.
Proof. repeat split; vm_compute; reflexivity. Qed.

Example fit_constrained_ex :
  fit_constrained five_node_store None 6
    [(0, 2); (3, 4); (6, 7); (8, 5); (9, 1)] five_node_indices
  = Ok [0; 1; 0; 3; 3].
Proof. vm_compute. reflexivity. Qed.
